(** * jsonpath.c: binary encoding, cursor, printer and mutability analysis

    A shallow embedding of [src/backend/utils/adt/jsonpath.c].  The byte buffer
    is a list of 8-bit integers, positions and offsets are integers, the
    output text is a [string].  Errors raised with [ereport]/[elog] are values
    of [PgError]; the stack budget consulted by [check_stack_depth] is an
    explicit number of frames. *)

From Stdlib Require Import ZArith List String Ascii Bool Lia DecimalString.
Import ListNotations.
Local Open Scope Z_scope.

(* ------------------------------------------------------------------ *)
(** ** Errors and results *)

Inductive SqlErrCode : Type :=
| ERRCODE_SYNTAX_ERROR
| ERRCODE_INVALID_TEXT_REPRESENTATION
| ERRCODE_STATEMENT_TOO_COMPLEX
| ERRCODE_PROTOCOL_VIOLATION
| ERRCODE_INTERNAL_ERROR.

(** One constructor per place that raises an error.  [ErrBadAddress] stands
    for a read outside the buffer, which the C code does not check. *)
Inductive PgError : Type :=
| ErrCurrentInRoot          (* "@ is not allowed in root expressions" *)
| ErrLastOutsideSubscript   (* "LAST is allowed only in array subscripts" *)
| ErrExtensionsNotEnabled   (* "... contains extended operators that were not enabled" *)
| ErrInvalidInputSyntax     (* "invalid input syntax for type jsonpath" *)
| ErrStackDepth             (* check_stack_depth(): "stack depth limit exceeded" *)
| ErrUnrecognizedItemType   (* elog: "unrecognized jsonpath item type" *)
| ErrUnsupportedVersion (version : Z) (* elog: "unsupported jsonpath version number" *)
| ErrInsufficientData       (* pq_getmsgint: "insufficient data left in message" *)
| ErrCollaborator           (* an error raised inside an external routine *)
| ErrBadAddress.

Definition errcode (e : PgError) : SqlErrCode :=
  match e with
  | ErrCurrentInRoot | ErrLastOutsideSubscript => ERRCODE_SYNTAX_ERROR
  | ErrExtensionsNotEnabled | ErrInvalidInputSyntax =>
      ERRCODE_INVALID_TEXT_REPRESENTATION
  | ErrStackDepth => ERRCODE_STATEMENT_TOO_COMPLEX
  | ErrInsufficientData => ERRCODE_PROTOCOL_VIOLATION
  | ErrUnrecognizedItemType | ErrUnsupportedVersion _
  | ErrCollaborator | ErrBadAddress => ERRCODE_INTERNAL_ERROR
  end.

(** [OutOfFuel] is produced only by the mutability walker, whose recursion
    the source does not bound: it says that the bounded unrolling of the model
    ended before the walk did.  It is not an error of the program. *)
Inductive result (A : Type) : Type :=
| OK (a : A)
| Err (e : PgError)
| OutOfFuel.
Arguments OK {A} a.
Arguments Err {A} e.
Arguments OutOfFuel {A}.

Definition bind {A B : Type} (r : result A) (k : A -> result B) : result B :=
  match r with
  | OK a => k a
  | Err e => Err e
  | OutOfFuel => OutOfFuel
  end.

Declare Scope result_scope.
Delimit Scope result_scope with result.
Notation "x <- r ;; k" := (bind r (fun x => k))
  (at level 61, r at next level, right associativity) : result_scope.
Notation "' p <- r ;; k" := (bind r (fun p => k))
  (at level 61, p pattern, r at next level, right associativity) : result_scope.
Local Open Scope result_scope.

Definition is_ok {A : Type} (r : result A) : bool :=
  match r with OK _ => true | _ => false end.

(* ------------------------------------------------------------------ *)
(** ** Item types *)

Inductive JsonPathItemType : Type :=
| jpiNull | jpiString | jpiNumeric | jpiBool
| jpiAnd | jpiOr | jpiNot | jpiIsUnknown
| jpiEqual | jpiNotEqual | jpiLess | jpiGreater
| jpiLessOrEqual | jpiGreaterOrEqual
| jpiAdd | jpiSub | jpiMul | jpiDiv | jpiMod
| jpiPlus | jpiMinus
| jpiAnyArray | jpiAnyKey | jpiIndexArray | jpiAny | jpiKey
| jpiCurrent | jpiRoot | jpiVariable | jpiFilter | jpiExists
| jpiType | jpiSize | jpiAbs | jpiFloor | jpiCeiling | jpiDouble
| jpiDatetime | jpiKeyValue | jpiSubscript | jpiLast
| jpiStartsWith | jpiLikeRegex
| jpiSequence | jpiArray | jpiObject | jpiObjectField.

Definition JsonPathItemType_eqb (a b : JsonPathItemType) : bool :=
  match a, b with
  | jpiNull, jpiNull | jpiString, jpiString | jpiNumeric, jpiNumeric
  | jpiBool, jpiBool | jpiAnd, jpiAnd | jpiOr, jpiOr | jpiNot, jpiNot
  | jpiIsUnknown, jpiIsUnknown | jpiEqual, jpiEqual
  | jpiNotEqual, jpiNotEqual | jpiLess, jpiLess | jpiGreater, jpiGreater
  | jpiLessOrEqual, jpiLessOrEqual | jpiGreaterOrEqual, jpiGreaterOrEqual
  | jpiAdd, jpiAdd | jpiSub, jpiSub | jpiMul, jpiMul | jpiDiv, jpiDiv
  | jpiMod, jpiMod | jpiPlus, jpiPlus | jpiMinus, jpiMinus
  | jpiAnyArray, jpiAnyArray | jpiAnyKey, jpiAnyKey
  | jpiIndexArray, jpiIndexArray | jpiAny, jpiAny | jpiKey, jpiKey
  | jpiCurrent, jpiCurrent | jpiRoot, jpiRoot | jpiVariable, jpiVariable
  | jpiFilter, jpiFilter | jpiExists, jpiExists | jpiType, jpiType
  | jpiSize, jpiSize | jpiAbs, jpiAbs | jpiFloor, jpiFloor
  | jpiCeiling, jpiCeiling | jpiDouble, jpiDouble
  | jpiDatetime, jpiDatetime | jpiKeyValue, jpiKeyValue
  | jpiSubscript, jpiSubscript | jpiLast, jpiLast
  | jpiStartsWith, jpiStartsWith | jpiLikeRegex, jpiLikeRegex
  | jpiSequence, jpiSequence | jpiArray, jpiArray | jpiObject, jpiObject
  | jpiObjectField, jpiObjectField => true
  | _, _ => false
  end.

Definition all_item_types : list JsonPathItemType :=
  [ jpiNull; jpiString; jpiNumeric; jpiBool; jpiAnd; jpiOr; jpiNot;
    jpiIsUnknown; jpiEqual; jpiNotEqual; jpiLess; jpiGreater;
    jpiLessOrEqual; jpiGreaterOrEqual; jpiAdd; jpiSub; jpiMul; jpiDiv;
    jpiMod; jpiPlus; jpiMinus; jpiAnyArray; jpiAnyKey; jpiIndexArray;
    jpiAny; jpiKey; jpiCurrent; jpiRoot; jpiVariable; jpiFilter;
    jpiExists; jpiType; jpiSize; jpiAbs; jpiFloor; jpiCeiling; jpiDouble;
    jpiDatetime; jpiKeyValue; jpiSubscript; jpiLast; jpiStartsWith;
    jpiLikeRegex; jpiSequence; jpiArray; jpiObject; jpiObjectField ].

(** Modelled from the spec: the numbering of [enum JsonPathItemType] is
    declared in jsonpath.h, which is not among the sources.  The tag stored in
    the buffer is the position of the kind in the declaration order above;
    only the fact that distinct kinds have distinct one-byte tags is used. *)
Fixpoint index_of (t : JsonPathItemType) (l : list JsonPathItemType) (i : Z) : Z :=
  match l with
  | [] => i
  | x :: r => if JsonPathItemType_eqb t x then i else index_of t r (i + 1)
  end.

Definition type_code (t : JsonPathItemType) : Z := index_of t all_item_types 0.

Definition type_of_code (c : Z) : option JsonPathItemType :=
  find (fun t => type_code t =? c) all_item_types.

(* ------------------------------------------------------------------ *)
(** ** Bytes, integers and the growable buffer *)

(** A [StringInfo] holds its bytes; [buf->len] is the length of the list. *)
Definition StringInfo : Type := list Z.

Definition len (buf : StringInfo) : Z := Z.of_nat (List.length buf).

(** Modelled from the spec: [appendStringInfoChar], [appendBinaryStringInfo]
    and [appendStringInfoSpaces] belong to stringinfo.c, which is not among
    the sources.  They are the append of the buffer writer: bytes are added at
    the end and nothing that was written moves.  The capacity of the buffer
    has no counterpart here: the calls that only size it ([initStringInfo],
    [enlargeStringInfo]) are left out and an append never fails, while the
    real ones raise an out-of-memory error once the buffer would pass 1 GB. *)
Definition appendStringInfoChar (buf : StringInfo) (c : Z) : StringInfo :=
  buf ++ [c].

Definition appendBinaryStringInfo (buf : StringInfo) (data : list Z) : StringInfo :=
  buf ++ data.

(** [appendStringInfoSpaces] appends blanks (byte 32), not zeros. *)
Definition appendStringInfoSpaces (buf : StringInfo) (count : Z) : StringInfo :=
  buf ++ repeat 32 (Z.to_nat count).

(** The four bytes of a 32-bit value in the byte order of the host
    (little-endian); a negative value is stored in two's complement. *)
Definition int32_bytes (x : Z) : list Z :=
  let u := x mod 4294967296 in
  [ u mod 256; (u / 256) mod 256; (u / 65536) mod 256; (u / 16777216) mod 256 ].

(** The assignment of [x] to the 32-bit cell at [buf->data + off]. *)
Definition store_int32 (buf : StringInfo) (off : Z) (x : Z) : StringInfo :=
  firstn (Z.to_nat off) buf ++ int32_bytes x ++ skipn (Z.to_nat off + 4) buf.

(** [TYPEALIGN(4, x)]: [(x + 3) & ~3]. *)
Definition INTALIGN (x : Z) : Z := Z.land (x + 3) (Z.lnot 3).

(** The [switch] of [alignStringInfoInt] falls through, so [k] missing bytes
    give [k] zero bytes. *)
Definition alignStringInfoInt (buf : StringInfo) : StringInfo :=
  match INTALIGN (len buf) - len buf with
  | 3 => appendStringInfoChar
           (appendStringInfoChar (appendStringInfoChar buf 0) 0) 0
  | 2 => appendStringInfoChar (appendStringInfoChar buf 0) 0
  | 1 => appendStringInfoChar buf 0
  | _ => buf
  end.

(** Returns the position of the reserved slot and the buffer with a zero
    pointer appended. *)
Definition reserveSpaceForItemPointer (buf : StringInfo) : Z * StringInfo :=
  let pos := len buf in
  let ptr := 0 in
  (pos, appendBinaryStringInfo buf (int32_bytes ptr)).

(** Text as bytes and back. *)
Definition byte_of_ascii (c : ascii) : Z := Z.of_N (N_of_ascii c).
Definition ascii_of_byte (b : Z) : ascii := ascii_of_N (Z.to_N b).

Definition bytes_of_string (s : string) : list Z :=
  map byte_of_ascii (list_ascii_of_string s).

Definition strlen (s : string) : Z := Z.of_nat (String.length s).

(* ------------------------------------------------------------------ *)
(** ** The parse tree (input of the encoder) *)

(** A numeric literal is carried as its varlena image; [VARSIZE] is the
    number of bytes of the image. *)
Definition Numeric : Type := list Z.
Definition VARSIZE (n : Numeric) : Z := len n.

(** The members of the [value] union of [JsonPathParseItem].  A field of an
    object constructor (an item of kind [jpiObjectField]) is given by its two
    operands, the key and the value, which is all the encoder reads of it. *)
Inductive JsonPathParseValue (I : Type) : Type :=
| v_none
| v_string (val : string)
| v_numeric (numeric : Numeric)
| v_boolean (boolean : bool)
| v_args (left right : option I)
| v_arg (arg : option I)
| v_array (elems : list (I * option I))
| v_anybounds (first last : Z)
| v_like_regex (expr : I) (pattern : string) (flags : Z)
| v_sequence (elems : list I)
| v_object (fields : list (I * I)).
Arguments v_none {I}.
Arguments v_string {I} val.
Arguments v_numeric {I} numeric.
Arguments v_boolean {I} boolean.
Arguments v_args {I} left right.
Arguments v_arg {I} arg.
Arguments v_array {I} elems.
Arguments v_anybounds {I} first last.
Arguments v_like_regex {I} expr pattern flags.
Arguments v_sequence {I} elems.
Arguments v_object {I} fields.

#[local] Unset Elimination Schemes.
Inductive JsonPathParseItem : Type :=
| ParseItem (type : JsonPathItemType)
            (next : option JsonPathParseItem)
            (value : JsonPathParseValue JsonPathParseItem).
#[local] Set Elimination Schemes.

Definition item_type (item : JsonPathParseItem) : JsonPathItemType :=
  match item with ParseItem t _ _ => t end.
Definition item_next (item : JsonPathParseItem) : option JsonPathParseItem :=
  match item with ParseItem _ n _ => n end.
Definition item_value (item : JsonPathParseItem)
  : JsonPathParseValue JsonPathParseItem :=
  match item with ParseItem _ _ v => v end.

(** Reading a member of the union.  The parser fills the member that the item
    type selects; a member that was not filled reads as empty. *)
Definition value_string (item : JsonPathParseItem) : string :=
  match item_value item with v_string s => s | _ => EmptyString end.
Definition value_numeric (item : JsonPathParseItem) : Numeric :=
  match item_value item with v_numeric n => n | _ => [] end.
Definition value_boolean (item : JsonPathParseItem) : bool :=
  match item_value item with v_boolean b => b | _ => false end.
Definition value_args_left (item : JsonPathParseItem) : option JsonPathParseItem :=
  match item_value item with v_args l _ => l | _ => None end.
Definition value_args_right (item : JsonPathParseItem) : option JsonPathParseItem :=
  match item_value item with v_args _ r => r | _ => None end.
Definition value_arg (item : JsonPathParseItem) : option JsonPathParseItem :=
  match item_value item with v_arg a => a | _ => None end.
Definition value_array_elems (item : JsonPathParseItem)
  : list (JsonPathParseItem * option JsonPathParseItem) :=
  match item_value item with v_array l => l | _ => [] end.
Definition value_anybounds_first (item : JsonPathParseItem) : Z :=
  match item_value item with v_anybounds f _ => f | _ => 0 end.
Definition value_anybounds_last (item : JsonPathParseItem) : Z :=
  match item_value item with v_anybounds _ l => l | _ => 0 end.
Definition value_like_regex_expr (item : JsonPathParseItem) : option JsonPathParseItem :=
  match item_value item with v_like_regex e _ _ => Some e | _ => None end.
Definition value_like_regex_pattern (item : JsonPathParseItem) : string :=
  match item_value item with v_like_regex _ p _ => p | _ => EmptyString end.
Definition value_like_regex_flags (item : JsonPathParseItem) : Z :=
  match item_value item with v_like_regex _ _ f => f | _ => 0 end.
Definition value_sequence_elems (item : JsonPathParseItem) : list JsonPathParseItem :=
  match item_value item with v_sequence l => l | _ => [] end.
Definition value_object_fields (item : JsonPathParseItem)
  : list (JsonPathParseItem * JsonPathParseItem) :=
  match item_value item with v_object l => l | _ => [] end.

(** What [parsejsonpath] returns. *)
Record JsonPathParseResult : Type := {
  pr_expr : JsonPathParseItem;
  pr_lax : bool;
  pr_ext : bool
}.

(* ------------------------------------------------------------------ *)
(** ** The encoder *)

(** Modelled from the spec: [JSONPATH_HDRSZ] is declared in jsonpath.h, which
    is not among the sources.  It is [offsetof(JsonPath, data)], the size of
    the fixed header before the node stream: the varlena length word and the
    header word, 4 bytes each. *)
Definition JSONPATH_HDRSZ : Z := 8.

Definition checkJsonPathExtensionsEnabled (ext : bool) (type : JsonPathItemType)
  : result unit :=
  if negb ext then Err ErrExtensionsNotEnabled else OK tt.

(** The recursive calls of [flattenJsonPathParseItem], with the encoding
    context split into its read-only flag and the buffer it appends to. *)
Definition flattener : Type :=
  StringInfo -> JsonPathParseItem -> Z -> bool -> result (Z * StringInfo).

(** The two-operand cases: both slots are reserved, then each operand is
    written and its slot patched.  A missing operand is recorded as the item
    itself (displacement 0). *)
Definition flatten_args (rec : flattener) (buf : StringInfo)
    (item : JsonPathParseItem) (pos nestingLevel argNestingLevel : Z)
    (insideArraySubscript : bool) : result StringInfo :=
  let '(left', buf) := reserveSpaceForItemPointer buf in
  let '(right', buf) := reserveSpaceForItemPointer buf in
  '(chld, buf) <-
     match value_args_left item with
     | None => OK (pos, buf)
     | Some l => rec buf l (nestingLevel + argNestingLevel) insideArraySubscript
     end ;;
  let buf := store_int32 buf left' (chld - pos) in
  '(chld, buf) <-
     match value_args_right item with
     | None => OK (pos, buf)
     | Some r => rec buf r (nestingLevel + argNestingLevel) insideArraySubscript
     end ;;
  OK (store_int32 buf right' (chld - pos)).

Definition flatten_like_regex (rec : flattener) (buf : StringInfo)
    (item : JsonPathParseItem) (pos nestingLevel : Z)
    (insideArraySubscript : bool) : result StringInfo :=
  let buf := appendBinaryStringInfo buf (int32_bytes (value_like_regex_flags item)) in
  let '(offs, buf) := reserveSpaceForItemPointer buf in
  let pattern := value_like_regex_pattern item in
  let buf := appendBinaryStringInfo buf (int32_bytes (strlen pattern)) in
  let buf := appendBinaryStringInfo buf (bytes_of_string pattern) in
  let buf := appendStringInfoChar buf 0 in
  match value_like_regex_expr item with
  | None => Err ErrBadAddress
  | Some e =>
      '(chld, buf) <- rec buf e nestingLevel insideArraySubscript ;;
      OK (store_int32 buf offs (chld - pos))
  end.

(** The one-operand cases; [argNestingLevel] is 1 for a filter and 0
    otherwise. *)
Definition flatten_arg (rec : flattener) (ext : bool) (buf : StringInfo)
    (item : JsonPathParseItem) (pos nestingLevel argNestingLevel : Z)
    (insideArraySubscript : bool) : result StringInfo :=
  let '(arg, buf) := reserveSpaceForItemPointer buf in
  _ <- (match item_type item with
        | jpiArray => checkJsonPathExtensionsEnabled ext (item_type item)
        | _ => OK tt
        end) ;;
  match value_arg item with
  | None => OK buf
  | Some a =>
      '(chld, buf) <- rec buf a (nestingLevel + argNestingLevel)
                        insideArraySubscript ;;
      OK (store_int32 buf arg (chld - pos))
  end.

(** The loop over the subscripts of [jpiIndexArray]; [i] counts them. *)
Fixpoint flatten_subscripts (rec : flattener) (pos offset nestingLevel : Z)
    (elems : list (JsonPathParseItem * option JsonPathParseItem)) (i : Z)
    (buf : StringInfo) : result StringInfo :=
  match elems with
  | [] => OK buf
  | (from, to) :: rest =>
      '(p, buf) <- rec buf from nestingLevel true ;;
      let frompos := p - pos in
      '(topos, buf) <-
         match to with
         | Some t => '(p, buf) <- rec buf t nestingLevel true ;; OK (p - pos, buf)
         | None => OK (0, buf)
         end ;;
      let ppos := offset + i * 2 * 4 in
      let buf := store_int32 buf ppos frompos in
      let buf := store_int32 buf (ppos + 4) topos in
      flatten_subscripts rec pos offset nestingLevel rest (i + 1) buf
  end.

(** The loop over the elements of [jpiSequence]. *)
Fixpoint flatten_elements (rec : flattener) (pos offset nestingLevel : Z)
    (insideArraySubscript : bool) (elems : list JsonPathParseItem)
    (buf : StringInfo) : result StringInfo :=
  match elems with
  | [] => OK buf
  | e :: rest =>
      '(elempos, buf) <- rec buf e nestingLevel insideArraySubscript ;;
      let buf := store_int32 buf offset (elempos - pos) in
      flatten_elements rec pos (offset + 4) nestingLevel insideArraySubscript
        rest buf
  end.

(** The loop over the fields of [jpiObject]; a field holds its key and its
    value as left and right operand. *)
Fixpoint flatten_fields (rec : flattener) (pos offset nestingLevel : Z)
    (insideArraySubscript : bool)
    (fields : list (JsonPathParseItem * JsonPathParseItem))
    (buf : StringInfo) : result StringInfo :=
  match fields with
  | [] => OK buf
  | (k, v) :: rest =>
      '(keypos, buf) <- rec buf k nestingLevel insideArraySubscript ;;
      '(valpos, buf) <- rec buf v nestingLevel insideArraySubscript ;;
      let buf := store_int32 buf offset (keypos - pos) in
      let buf := store_int32 buf (offset + 4) (valpos - pos) in
      flatten_fields rec pos (offset + 2 * 4) nestingLevel
        insideArraySubscript rest buf
  end.

(** The [switch (item->type)] of [flattenJsonPathParseItem]. *)
Definition flatten_payload (rec : flattener) (ext : bool) (buf : StringInfo)
    (item : JsonPathParseItem) (pos nestingLevel : Z)
    (insideArraySubscript : bool) : result StringInfo :=
  match item_type item with
  | jpiString | jpiVariable | jpiKey =>
      let s := value_string item in
      let buf := appendBinaryStringInfo buf (int32_bytes (strlen s)) in
      let buf := appendBinaryStringInfo buf (bytes_of_string s) in
      OK (appendStringInfoChar buf 0)
  | jpiNumeric =>
      OK (appendBinaryStringInfo buf (value_numeric item))
  | jpiBool =>
      OK (appendBinaryStringInfo buf [if value_boolean item then 1 else 0])
  | jpiAnd | jpiOr | jpiEqual | jpiNotEqual | jpiLess | jpiGreater
  | jpiLessOrEqual | jpiGreaterOrEqual | jpiAdd | jpiSub | jpiMul | jpiDiv
  | jpiMod | jpiStartsWith =>
      flatten_args rec buf item pos nestingLevel 0 insideArraySubscript
  | jpiLikeRegex =>
      flatten_like_regex rec buf item pos nestingLevel insideArraySubscript
  | jpiFilter =>
      flatten_arg rec ext buf item pos nestingLevel 1 insideArraySubscript
  | jpiIsUnknown | jpiNot | jpiPlus | jpiMinus | jpiExists | jpiDatetime
  | jpiArray =>
      flatten_arg rec ext buf item pos nestingLevel 0 insideArraySubscript
  | jpiNull => OK buf
  | jpiRoot => OK buf
  | jpiAnyArray | jpiAnyKey => OK buf
  | jpiCurrent =>
      if nestingLevel <=? 0 then Err ErrCurrentInRoot else OK buf
  | jpiLast =>
      if negb insideArraySubscript then Err ErrLastOutsideSubscript else OK buf
  | jpiIndexArray =>
      let elems := value_array_elems item in
      let nelems := Z.of_nat (List.length elems) in
      let buf := appendBinaryStringInfo buf (int32_bytes nelems) in
      let offset := len buf in
      let buf := appendStringInfoSpaces buf (4 * 2 * nelems) in
      flatten_subscripts rec pos offset nestingLevel elems 0 buf
  | jpiAny =>
      let buf := appendBinaryStringInfo buf
                   (int32_bytes (value_anybounds_first item)) in
      OK (appendBinaryStringInfo buf (int32_bytes (value_anybounds_last item)))
  | jpiType | jpiSize | jpiAbs | jpiFloor | jpiCeiling | jpiDouble
  | jpiKeyValue => OK buf
  | jpiSequence =>
      let elems := value_sequence_elems item in
      let nelems := Z.of_nat (List.length elems) in
      _ <- checkJsonPathExtensionsEnabled ext (item_type item) ;;
      let buf := appendBinaryStringInfo buf (int32_bytes nelems) in
      let offset := len buf in
      let buf := appendStringInfoSpaces buf (4 * nelems) in
      flatten_elements rec pos offset nestingLevel insideArraySubscript elems buf
  | jpiObject =>
      let fields := value_object_fields item in
      let nfields := Z.of_nat (List.length fields) in
      _ <- checkJsonPathExtensionsEnabled ext (item_type item) ;;
      let buf := appendBinaryStringInfo buf (int32_bytes nfields) in
      let offset := len buf in
      let buf := appendStringInfoSpaces buf (4 * 2 * nfields) in
      flatten_fields rec pos offset nestingLevel insideArraySubscript fields buf
  | jpiSubscript | jpiObjectField => Err ErrUnrecognizedItemType
  end.

(** [flattenJsonPathParseItem]: [stack] is the number of frames left before
    [check_stack_depth] raises its error; every call uses one.  The result is
    the position of the item (counted from the start of the jsonpath data) and
    the buffer. *)
Fixpoint flattenJsonPathParseItem (stack : nat) (ext : bool) (buf : StringInfo)
    (item : JsonPathParseItem) (nestingLevel : Z)
    (insideArraySubscript : bool) {struct stack} : result (Z * StringInfo) :=
  match stack with
  | O => Err ErrStackDepth
  | S stack' =>
      let pos := len buf - JSONPATH_HDRSZ in
      let buf := appendStringInfoChar buf (type_code (item_type item)) in
      let buf := alignStringInfoInt buf in
      let '(next, buf) := reserveSpaceForItemPointer buf in
      buf <- flatten_payload (flattenJsonPathParseItem stack' ext) ext buf item
               pos nestingLevel insideArraySubscript ;;
      match item_next item with
      | Some n =>
          '(chld, buf) <- flattenJsonPathParseItem stack' ext buf n
                            nestingLevel insideArraySubscript ;;
          OK (pos, store_int32 buf next (chld - pos))
      | None => OK (pos, buf)
      end
  end.

(* ------------------------------------------------------------------ *)
(** ** Reading the encoded items: the cursor *)

(** A pointer into the jsonpath data is the index of a byte of [mem]; the
    data starts at a 4-byte aligned address, so aligning an address and
    aligning its index are the same. *)
Definition load_byte (mem : list Z) (addr : Z) : result Z :=
  if addr <? 0 then Err ErrBadAddress
  else match nth_error mem (Z.to_nat addr) with
       | Some b => OK b
       | None => Err ErrBadAddress
       end.

Definition load_uint32 (mem : list Z) (addr : Z) : result Z :=
  b0 <- load_byte mem addr ;;
  b1 <- load_byte mem (addr + 1) ;;
  b2 <- load_byte mem (addr + 2) ;;
  b3 <- load_byte mem (addr + 3) ;;
  OK (b0 + 256 * b1 + 65536 * b2 + 16777216 * b3).

(** The conversion of an [uint32] to the [int32] field it is assigned to. *)
Definition to_int32 (u : Z) : Z :=
  if u <? 2147483648 then u else u - 4294967296.

(** The macros [read_byte], [read_int32] and [read_int32_n]: the value read
    at [b + p] and the advanced [p]. *)
Definition read_byte (mem : list Z) (b p : Z) : result (Z * Z) :=
  v <- load_byte mem (b + p) ;; OK (v, p + 1).

Definition read_int32 (mem : list Z) (b p : Z) : result (Z * Z) :=
  v <- load_uint32 mem (b + p) ;; OK (v, p + 4).

Definition read_int32_n (b p n : Z) : Z * Z := (b + p, p + 4 * n).

(** The NUL-terminated string that starts at [addr]. *)
Fixpoint cstring (bytes : list Z) : result string :=
  match bytes with
  | [] => Err ErrBadAddress
  | b :: rest =>
      if b =? 0 then OK EmptyString
      else s <- cstring rest ;; OK (String (ascii_of_byte b) s)
  end.

Definition load_cstring (mem : list Z) (addr : Z) : result string :=
  if addr <? 0 then Err ErrBadAddress else cstring (skipn (Z.to_nat addr) mem).

(** The members of the [content] union of [JsonPathItem]; pointers into the
    buffer are indices of [mem]. *)
Inductive JsonPathItemContent : Type :=
| c_none
| c_value (data datalen : Z)
| c_args (left right : Z)
| c_arg (arg : Z)
| c_array (nelems elems : Z)
| c_anybounds (first last : Z)
| c_like_regex (expr pattern patternlen flags : Z)
| c_sequence (nelems elems : Z)
| c_object (nfields fields : Z).

Record JsonPathItem : Type := {
  type : JsonPathItemType;
  nextPos : Z;
  base : Z;
  content : JsonPathItemContent
}.

Definition content_value_data (v : JsonPathItem) : Z :=
  match content v with c_value d _ => d | _ => 0 end.
Definition content_value_datalen (v : JsonPathItem) : Z :=
  match content v with c_value _ l => l | _ => 0 end.
Definition content_args_left (v : JsonPathItem) : Z :=
  match content v with c_args l _ => l | _ => 0 end.
Definition content_args_right (v : JsonPathItem) : Z :=
  match content v with c_args _ r => r | _ => 0 end.
Definition content_arg (v : JsonPathItem) : Z :=
  match content v with c_arg a => a | _ => 0 end.
Definition content_array_nelems (v : JsonPathItem) : Z :=
  match content v with c_array n _ => n | _ => 0 end.
Definition content_array_elems (v : JsonPathItem) : Z :=
  match content v with c_array _ e => e | _ => 0 end.
Definition content_anybounds_first (v : JsonPathItem) : Z :=
  match content v with c_anybounds f _ => f | _ => 0 end.
Definition content_anybounds_last (v : JsonPathItem) : Z :=
  match content v with c_anybounds _ l => l | _ => 0 end.
Definition content_like_regex_expr (v : JsonPathItem) : Z :=
  match content v with c_like_regex e _ _ _ => e | _ => 0 end.
Definition content_like_regex_pattern (v : JsonPathItem) : Z :=
  match content v with c_like_regex _ p _ _ => p | _ => 0 end.
Definition content_like_regex_flags (v : JsonPathItem) : Z :=
  match content v with c_like_regex _ _ _ f => f | _ => 0 end.
Definition content_sequence_nelems (v : JsonPathItem) : Z :=
  match content v with c_sequence n _ => n | _ => 0 end.
Definition content_sequence_elems (v : JsonPathItem) : Z :=
  match content v with c_sequence _ e => e | _ => 0 end.
Definition content_object_nfields (v : JsonPathItem) : Z :=
  match content v with c_object n _ => n | _ => 0 end.
Definition content_object_fields (v : JsonPathItem) : Z :=
  match content v with c_object _ f => f | _ => 0 end.

(** The [switch (v->type)] of [jspInitByBuffer]: the payload scalars are
    read, the displacements of the children are only recorded.  [datalen] is
    left unset by the source for numerics and booleans (0 here). *)
Definition init_content (mem : list Z) (t : JsonPathItemType) (b pos : Z)
  : result JsonPathItemContent :=
  match t with
  | jpiNull | jpiRoot | jpiCurrent | jpiAnyArray | jpiAnyKey | jpiType
  | jpiSize | jpiAbs | jpiFloor | jpiCeiling | jpiDouble | jpiKeyValue
  | jpiLast => OK c_none
  | jpiKey | jpiString | jpiVariable =>
      '(datalen, pos) <- read_int32 mem b pos ;;
      OK (c_value (b + pos) (to_int32 datalen))
  | jpiNumeric | jpiBool => OK (c_value (b + pos) 0)
  | jpiAnd | jpiOr | jpiAdd | jpiSub | jpiMul | jpiDiv | jpiMod | jpiEqual
  | jpiNotEqual | jpiLess | jpiGreater | jpiLessOrEqual | jpiGreaterOrEqual
  | jpiStartsWith =>
      '(l, pos) <- read_int32 mem b pos ;;
      '(r, pos) <- read_int32 mem b pos ;;
      OK (c_args (to_int32 l) (to_int32 r))
  | jpiLikeRegex =>
      '(flags, pos) <- read_int32 mem b pos ;;
      '(expr, pos) <- read_int32 mem b pos ;;
      '(patternlen, pos) <- read_int32 mem b pos ;;
      OK (c_like_regex (to_int32 expr) (b + pos) (to_int32 patternlen) flags)
  | jpiNot | jpiExists | jpiIsUnknown | jpiPlus | jpiMinus | jpiFilter
  | jpiDatetime | jpiArray =>
      '(arg, pos) <- read_int32 mem b pos ;;
      OK (c_arg (to_int32 arg))
  | jpiIndexArray =>
      '(nelems, pos) <- read_int32 mem b pos ;;
      let '(elems, pos) := read_int32_n b pos (to_int32 nelems * 2) in
      OK (c_array (to_int32 nelems) elems)
  | jpiAny =>
      '(first, pos) <- read_int32 mem b pos ;;
      '(last, pos) <- read_int32 mem b pos ;;
      OK (c_anybounds first last)
  | jpiSequence =>
      '(nelems, pos) <- read_int32 mem b pos ;;
      let '(elems, pos) := read_int32_n b pos (to_int32 nelems) in
      OK (c_sequence (to_int32 nelems) elems)
  | jpiObject =>
      '(nfields, pos) <- read_int32 mem b pos ;;
      let '(fields, pos) := read_int32_n b pos (to_int32 nfields * 2) in
      OK (c_object (to_int32 nfields) fields)
  | jpiSubscript | jpiObjectField => Err ErrUnrecognizedItemType
  end.

(** [jspInitByBuffer(v, base, pos)]: the kind tag, the alignment (of the
    address, not of the displacement), the [next] displacement, then the
    payload. *)
Definition jspInitByBuffer (mem : list Z) (b pos : Z) : result JsonPathItem :=
  let vbase := b + pos in
  '(tag, pos) <- read_byte mem b pos ;;
  let pos := INTALIGN (b + pos) - b in
  '(nxt, pos) <- read_int32 mem b pos ;;
  match type_of_code tag with
  | None => Err ErrUnrecognizedItemType
  | Some t =>
      c <- init_content mem t b pos ;;
      OK {| type := t; nextPos := to_int32 nxt; base := vbase; content := c |}
  end.

(** Modelled from the spec: the version and the two flag bits of the header
    word are declared in jsonpath.h, which is not among the sources.  Version 1
    is the one supported (comment of [jsonpath_recv]); the lax flag and the
    extensions flag are two bits above the version. *)
Definition JSONPATH_VERSION : Z := 1.
Definition JSONPATH_LAX : Z := 2147483648.
Definition JSONPATH_EXT : Z := 1073741824.

(** The varlena value: the length word is implicit, [data] is the node
    stream. *)
Record JsonPath : Type := {
  header : Z;
  data : list Z
}.

Definition jspInit (js : JsonPath) : result JsonPathItem :=
  jspInitByBuffer (data js) 0 0.

(** Modelled from the spec: the macro [jspHasNext] is declared in jsonpath.h;
    a [next] displacement of 0 means no successor. *)
Definition jspHasNext (v : JsonPathItem) : bool := 0 <? nextPos v.

(** The accessors; their assertions on the kind of [v] are not compiled into
    a production build and do nothing here. *)
Definition jspGetArg (mem : list Z) (v : JsonPathItem) : result JsonPathItem :=
  jspInitByBuffer mem (base v) (content_arg v).

Definition jspGetNext (mem : list Z) (v : JsonPathItem)
  : result (option JsonPathItem) :=
  if jspHasNext v then
    a <- jspInitByBuffer mem (base v) (nextPos v) ;; OK (Some a)
  else OK None.

Definition jspGetLeftArg (mem : list Z) (v : JsonPathItem) : result JsonPathItem :=
  jspInitByBuffer mem (base v) (content_args_left v).

Definition jspGetRightArg (mem : list Z) (v : JsonPathItem) : result JsonPathItem :=
  jspInitByBuffer mem (base v) (content_args_right v).

Definition jspGetBool (mem : list Z) (v : JsonPathItem) : result bool :=
  b <- load_byte mem (content_value_data v) ;; OK (negb (b =? 0)).

(** The pointer to the numeric literal. *)
Definition jspGetNumeric (v : JsonPathItem) : Z := content_value_data v.

Definition jspGetString (mem : list Z) (v : JsonPathItem) : result (string * Z) :=
  s <- load_cstring mem (content_value_data v) ;;
  OK (s, content_value_datalen v).

Definition jspGetArraySubscript (mem : list Z) (v : JsonPathItem) (i : Z)
  : result (JsonPathItem * option JsonPathItem) :=
  from_ <- load_uint32 mem (content_array_elems v + 8 * i) ;;
  from <- jspInitByBuffer mem (base v) (to_int32 from_) ;;
  to_ <- load_uint32 mem (content_array_elems v + 8 * i + 4) ;;
  if to_int32 to_ =? 0 then OK (from, None)
  else to <- jspInitByBuffer mem (base v) (to_int32 to_) ;; OK (from, Some to).

Definition jspGetSequenceElement (mem : list Z) (v : JsonPathItem) (i : Z)
  : result JsonPathItem :=
  e <- load_uint32 mem (content_sequence_elems v + 4 * i) ;;
  jspInitByBuffer mem (base v) (to_int32 e).

Definition jspGetObjectField (mem : list Z) (v : JsonPathItem) (i : Z)
  : result (JsonPathItem * JsonPathItem) :=
  k <- load_uint32 mem (content_object_fields v + 8 * i) ;;
  key <- jspInitByBuffer mem (base v) (to_int32 k) ;;
  w <- load_uint32 mem (content_object_fields v + 8 * i + 4) ;;
  val <- jspInitByBuffer mem (base v) (to_int32 w) ;;
  OK (key, val).

(* ------------------------------------------------------------------ *)
(** ** The printer *)

Local Infix "+++" := String.append (at level 60, right associativity).

Definition dquote : string := String (ascii_of_nat 34) EmptyString.

Definition hex_digit (n : Z) : string :=
  String (ascii_of_byte (if n <? 10 then 48 + n else 87 + n)) EmptyString.

(** Modelled from the spec: [escape_json] belongs to json.c, which is not
    among the sources; literal escaping follows the JSON string-escaping
    rules.  The text is put between double quotes; the quote, the backslash
    and the control characters are escaped. *)
Fixpoint escape_json_chars (s : string) : string :=
  match s with
  | EmptyString => EmptyString
  | String c r =>
      let k := byte_of_ascii c in
      (if Z.eqb k 8 then "\b"
       else if Z.eqb k 12 then "\f"
       else if Z.eqb k 10 then "\n"
       else if Z.eqb k 13 then "\r"
       else if Z.eqb k 9 then "\t"
       else if Z.eqb k 34 then "\" +++ dquote
       else if Z.eqb k 92 then "\\"
       else if Z.ltb k 32 then "\u00" +++ hex_digit (k / 16) +++ hex_digit (k mod 16)
       else String c EmptyString)%string +++ escape_json_chars r
  end.

Definition escape_json (s : string) : string :=
  dquote +++ escape_json_chars s +++ dquote.

(** The [%u] conversion of [appendStringInfo]. *)
Definition format_u (x : Z) : string :=
  NilZero.string_of_uint (N.to_uint (Z.to_N x)).

Definition PG_UINT32_MAX : Z := 4294967295.

(** Modelled from the spec: the bits of the regex flags are declared in
    jsonpath.h, which is not among the sources; one bit per flag letter. *)
Definition JSP_REGEX_ICASE : Z := 1.
Definition JSP_REGEX_DOTALL : Z := 2.
Definition JSP_REGEX_MLINE : Z := 4.
Definition JSP_REGEX_WSPACE : Z := 8.
Definition JSP_REGEX_QUOTE : Z := 16.

Definition jspOperationName (t : JsonPathItemType) : result string :=
  match t with
  | jpiAnd => OK "&&"
  | jpiOr => OK "||"
  | jpiEqual => OK "=="
  | jpiNotEqual => OK "!="
  | jpiLess => OK "<"
  | jpiGreater => OK ">"
  | jpiLessOrEqual => OK "<="
  | jpiGreaterOrEqual => OK ">="
  | jpiPlus | jpiAdd => OK "+"
  | jpiMinus | jpiSub => OK "-"
  | jpiMul => OK "*"
  | jpiDiv => OK "/"
  | jpiMod => OK "%"
  | jpiStartsWith => OK "starts with"
  | jpiLikeRegex => OK "like_regex"
  | jpiType => OK "type"
  | jpiSize => OK "size"
  | jpiKeyValue => OK "keyvalue"
  | jpiDouble => OK "double"
  | jpiAbs => OK "abs"
  | jpiFloor => OK "floor"
  | jpiCeiling => OK "ceiling"
  | jpiDatetime => OK "datetime"
  | _ => Err ErrUnrecognizedItemType
  end%string.

Definition operationPriority (op : JsonPathItemType) : Z :=
  match op with
  | jpiSequence => -1
  | jpiOr => 0
  | jpiAnd => 1
  | jpiEqual | jpiNotEqual | jpiLess | jpiGreater | jpiLessOrEqual
  | jpiGreaterOrEqual | jpiStartsWith => 2
  | jpiAdd | jpiSub => 3
  | jpiMul | jpiDiv | jpiMod => 4
  | jpiPlus | jpiMinus => 5
  | _ => 6
  end.

(** The text between the two tests of [printBracketes]. *)
Definition paren (printBracketes : bool) (s : string) : string :=
  if printBracketes then ("(" +++ s +++ ")")%string else s.

Definition dot (inKey : bool) : string :=
  if inKey then "."%string else EmptyString.

Definition regex_flags_text (flags : Z) : string :=
  if flags =? 0 then EmptyString
  else (" flag " +++ dquote
        +++ (if Z.eqb (Z.land flags JSP_REGEX_ICASE) 0 then "" else "i")
        +++ (if Z.eqb (Z.land flags JSP_REGEX_DOTALL) 0 then "" else "s")
        +++ (if Z.eqb (Z.land flags JSP_REGEX_MLINE) 0 then "" else "m")
        +++ (if Z.eqb (Z.land flags JSP_REGEX_WSPACE) 0 then "" else "x")
        +++ (if Z.eqb (Z.land flags JSP_REGEX_QUOTE) 0 then "" else "q")
        +++ dquote)%string.

Definition any_text (first last : Z) : string :=
  (if andb (Z.eqb first 0) (Z.eqb last PG_UINT32_MAX) then "**"
   else if Z.eqb first last then
     if Z.eqb first PG_UINT32_MAX then "**{last}"
     else "**{" +++ format_u first +++ "}"
   else if Z.eqb first PG_UINT32_MAX then "**{last to " +++ format_u last +++ "}"
   else if Z.eqb last PG_UINT32_MAX then "**{" +++ format_u first +++ " to last}"
   else "**{" +++ format_u first +++ " to " +++ format_u last +++ "}")%string.

Definition is_sequence (t : JsonPathItemType) : bool :=
  match t with jpiSequence => true | _ => false end.

Section Printer.

(** [numeric_out] belongs to numeric.c: it formats the numeric found at a
    pointer; it is given the bytes from the pointer on. *)
Variable numeric_out : list Z -> string.

(** The recursive call: item, [inKey], [printBracketes]. *)
Definition printer : Type := JsonPathItem -> bool -> bool -> result string.

(** The loop over the subscripts of [jpiIndexArray]. *)
Fixpoint print_subscripts (rec : printer) (mem : list Z) (v : JsonPathItem)
    (n : nat) (i : Z) : result string :=
  match n with
  | O => OK EmptyString
  | S n' =>
      '(from, to) <- jspGetArraySubscript mem v i ;;
      tfrom <- rec from false (is_sequence (type from)) ;;
      tto <- match to with
             | Some t => s <- rec t false (is_sequence (type t)) ;;
                         OK (" to " +++ s)%string
             | None => OK EmptyString
             end ;;
      rest <- print_subscripts rec mem v n' (i + 1) ;;
      OK ((if Z.eqb i 0 then "" else ",") +++ tfrom +++ tto +++ rest)%string
  end.

(** The loop over the elements of [jpiSequence]. *)
Fixpoint print_elements (rec : printer) (mem : list Z) (v : JsonPathItem)
    (n : nat) (i : Z) : result string :=
  match n with
  | O => OK EmptyString
  | S n' =>
      elem <- jspGetSequenceElement mem v i ;;
      t <- rec elem false (is_sequence (type elem)) ;;
      rest <- print_elements rec mem v n' (i + 1) ;;
      OK ((if Z.eqb i 0 then "" else ", ") +++ t +++ rest)%string
  end.

(** The loop over the fields of [jpiObject]. *)
Fixpoint print_fields (rec : printer) (mem : list Z) (v : JsonPathItem)
    (n : nat) (i : Z) : result string :=
  match n with
  | O => OK EmptyString
  | S n' =>
      '(key, val) <- jspGetObjectField mem v i ;;
      tkey <- rec key false false ;;
      tval <- rec val false (is_sequence (type val)) ;;
      rest <- print_fields rec mem v n' (i + 1) ;;
      OK ((if Z.eqb i 0 then "" else ", ") +++ tkey +++ ": " +++ tval +++ rest)%string
  end.

(** The two-operand cases. *)
Definition print_binary (rec : printer) (mem : list Z) (v : JsonPathItem)
    (printBracketes : bool) : result string :=
  l <- jspGetLeftArg mem v ;;
  tl <- rec l false (operationPriority (type l) <=? operationPriority (type v)) ;;
  name <- jspOperationName (type v) ;;
  r <- jspGetRightArg mem v ;;
  tr <- rec r false (operationPriority (type r) <=? operationPriority (type v)) ;;
  OK (paren printBracketes (tl +++ " " +++ name +++ " " +++ tr))%string.

(** The [switch (v->type)] of [printJsonPathItem]: the text appended for
    the item itself. *)
Definition print_item (rec : printer) (mem : list Z) (v : JsonPathItem)
    (inKey printBracketes : bool) : result string :=
  match type v with
  | jpiNull => OK "null"%string
  | jpiKey =>
      '(s, _) <- jspGetString mem v ;; OK (dot inKey +++ escape_json s)
  | jpiString =>
      '(s, _) <- jspGetString mem v ;; OK (escape_json s)
  | jpiVariable =>
      '(s, _) <- jspGetString mem v ;; OK ("$" +++ escape_json s)%string
  | jpiNumeric =>
      OK (paren (jspHasNext v)
            (numeric_out (skipn (Z.to_nat (jspGetNumeric v)) mem)))
  | jpiBool =>
      b <- jspGetBool mem v ;; OK (if b then "true" else "false")%string
  | jpiAnd | jpiOr | jpiEqual | jpiNotEqual | jpiLess | jpiGreater
  | jpiLessOrEqual | jpiGreaterOrEqual | jpiAdd | jpiSub | jpiMul | jpiDiv
  | jpiMod | jpiStartsWith =>
      print_binary rec mem v printBracketes
  | jpiLikeRegex =>
      elem <- jspInitByBuffer mem (base v) (content_like_regex_expr v) ;;
      t <- rec elem false
             (operationPriority (type elem) <=? operationPriority (type v)) ;;
      pattern <- load_cstring mem (content_like_regex_pattern v) ;;
      OK (paren printBracketes
            (t +++ " like_regex " +++ escape_json pattern
               +++ regex_flags_text (content_like_regex_flags v)))%string
  | jpiPlus | jpiMinus =>
      elem <- jspGetArg mem v ;;
      t <- rec elem false
             (operationPriority (type elem) <=? operationPriority (type v)) ;;
      OK (paren printBracketes
            ((match type v with jpiPlus => "+" | _ => "-" end) +++ t))%string
  | jpiFilter =>
      elem <- jspGetArg mem v ;;
      t <- rec elem false false ;; OK ("?(" +++ t +++ ")")%string
  | jpiNot =>
      elem <- jspGetArg mem v ;;
      t <- rec elem false false ;; OK ("!(" +++ t +++ ")")%string
  | jpiIsUnknown =>
      elem <- jspGetArg mem v ;;
      t <- rec elem false false ;; OK ("(" +++ t +++ ") is unknown")%string
  | jpiExists =>
      elem <- jspGetArg mem v ;;
      t <- rec elem false false ;; OK ("exists (" +++ t +++ ")")%string
  | jpiCurrent => OK "@"%string
  | jpiRoot => OK "$"%string
  | jpiLast => OK "last"%string
  | jpiAnyArray => OK "[*]"%string
  | jpiAnyKey => OK (dot inKey +++ "*")%string
  | jpiIndexArray =>
      t <- print_subscripts rec mem v (Z.to_nat (content_array_nelems v)) 0 ;;
      OK ("[" +++ t +++ "]")%string
  | jpiAny =>
      OK (dot inKey +++
          any_text (content_anybounds_first v) (content_anybounds_last v))
  | jpiType => OK ".type()"%string
  | jpiSize => OK ".size()"%string
  | jpiAbs => OK ".abs()"%string
  | jpiFloor => OK ".floor()"%string
  | jpiCeiling => OK ".ceiling()"%string
  | jpiDouble => OK ".double()"%string
  | jpiDatetime =>
      t <- (if content_arg v =? 0 then OK EmptyString
            else elem <- jspGetArg mem v ;; rec elem false false) ;;
      OK (".datetime(" +++ t +++ ")")%string
  | jpiKeyValue => OK ".keyvalue()"%string
  | jpiSequence =>
      t <- print_elements rec mem v (Z.to_nat (content_sequence_nelems v)) 0 ;;
      OK (paren (printBracketes || jspHasNext v) t)
  | jpiArray =>
      t <- (if content_arg v =? 0 then OK EmptyString
            else elem <- jspGetArg mem v ;; rec elem false false) ;;
      OK ("[" +++ t +++ "]")%string
  | jpiObject =>
      t <- print_fields rec mem v (Z.to_nat (content_object_nfields v)) 0 ;;
      OK ("{" +++ t +++ "}")%string
  | jpiSubscript | jpiObjectField => Err ErrUnrecognizedItemType
  end.

(** [printJsonPathItem]: the text that the call appends to the output
    buffer, which is only ever appended to.  [stack] is the number of
    frames left before [check_stack_depth] raises its error. *)
Fixpoint printJsonPathItem (stack : nat) (mem : list Z) (v : JsonPathItem)
    (inKey printBracketes : bool) {struct stack} : result string :=
  match stack with
  | O => Err ErrStackDepth
  | S stack' =>
      text <- print_item (printJsonPathItem stack' mem) mem v inKey
                printBracketes ;;
      nxt <- jspGetNext mem v ;;
      match nxt with
      | Some elem =>
          t <- printJsonPathItem stack' mem elem true true ;;
          OK (text +++ t)
      | None => OK text
      end
  end.

(** [jsonPathToCstring]: [out] is what the output buffer holds on entry
    (empty when the caller passes none). *)
Definition jsonPathToCstring (stack : nat) (out : string) (js : JsonPath)
  : result string :=
  let out := if Z.land (header js) JSONPATH_EXT =? 0 then out
             else (out +++ "pg ")%string in
  let out := if Z.land (header js) JSONPATH_LAX =? 0
             then (out +++ "strict ")%string else out in
  v <- jspInit js ;;
  t <- printJsonPathItem stack (data js) v false (negb (is_sequence (type v))) ;;
  OK (out +++ t).

Definition jsonpath_out (stack : nat) (js : JsonPath) : result string :=
  jsonPathToCstring stack EmptyString js.

End Printer.

(* ------------------------------------------------------------------ *)
(** ** Input: text to binary *)

(** The part of [jsonPathFromCstring] that follows the parser: the room for
    the header, the node stream, then the header word.  The call that sizes
    the buffer beforehand ([enlargeStringInfo], to four times the length of
    the text) has no counterpart, the buffer of the model having no
    capacity. *)
Definition encode_parse_result (stack : nat) (jsonpath : JsonPathParseResult)
  : result JsonPath :=
  let buf := appendStringInfoSpaces [] JSONPATH_HDRSZ in
  '(_, buf) <- flattenJsonPathParseItem stack (pr_ext jsonpath) buf
                 (pr_expr jsonpath) 0 false ;;
  let h := JSONPATH_VERSION in
  let h := if pr_lax jsonpath then Z.lor h JSONPATH_LAX else h in
  let h := if pr_ext jsonpath then Z.lor h JSONPATH_EXT else h in
  OK {| header := h; data := skipn (Z.to_nat JSONPATH_HDRSZ) buf |}.

Section Input.

(** The grammar-level parser: an error, no tree ([NULL]), or the tree. *)
Variable parsejsonpath : string -> result (option JsonPathParseResult).

(** The conversion of a message body to the encoding of the server, done
    inside [pq_getmsgtext]. *)
Variable pg_client_to_server : list Z -> string.

Definition jsonPathFromCstring (stack : nat) (input : string) : result JsonPath :=
  jsonpath <- parsejsonpath input ;;
  match jsonpath with
  | None => Err ErrInvalidInputSyntax
  | Some jsonpath => encode_parse_result stack jsonpath
  end.

Definition jsonpath_in (stack : nat) (input : string) : result JsonPath :=
  jsonPathFromCstring stack input.

(** A received message: its bytes and the read cursor. *)
Record PqMessage : Type := {
  msg : StringInfo;
  cursor : Z
}.

(** Modelled from the spec: [pq_getmsgint] and [pq_getmsgtext] belong to
    pqformat.c, which is not among the sources.  The first reads a one-byte
    unsigned integer at the cursor and fails when no byte is left; the second
    takes the given number of bytes at the cursor as text. *)
Definition pq_getmsgint1 (m : PqMessage) : result (Z * PqMessage) :=
  if (cursor m <? 0) || (len (msg m) - cursor m <? 1) then Err ErrInsufficientData
  else
    b <- load_byte (msg m) (cursor m) ;;
    OK (b, {| msg := msg m; cursor := cursor m + 1 |}).

Definition pq_getmsgtext (m : PqMessage) (rawbytes : Z) : result (string * PqMessage) :=
  if (rawbytes <? 0) || (len (msg m) - cursor m <? rawbytes)
  then Err ErrInsufficientData
  else
    OK (pg_client_to_server
          (firstn (Z.to_nat rawbytes) (skipn (Z.to_nat (cursor m)) (msg m))),
        {| msg := msg m; cursor := cursor m + rawbytes |}).

Definition jsonpath_recv (stack : nat) (buf : PqMessage) : result JsonPath :=
  '(version, buf) <- pq_getmsgint1 buf ;;
  if version =? JSONPATH_VERSION then
    '(str, _) <- pq_getmsgtext buf (len (msg buf) - cursor buf) ;;
    jsonPathFromCstring stack str
  else Err (ErrUnsupportedVersion version).

End Input.

(* ------------------------------------------------------------------ *)
(** ** The mutability analysis *)

Inductive JsonPathDatatypeStatus : Type :=
| jpdsNonDateTime
| jpdsUnknownDateTime
| jpdsDateTimeZoned
| jpdsDateTimeNonZoned.

Definition JsonPathDatatypeStatus_eqb (a b : JsonPathDatatypeStatus) : bool :=
  match a, b with
  | jpdsNonDateTime, jpdsNonDateTime
  | jpdsUnknownDateTime, jpdsUnknownDateTime
  | jpdsDateTimeZoned, jpdsDateTimeZoned
  | jpdsDateTimeNonZoned, jpdsDateTimeNonZoned => true
  | _, _ => false
  end.

(** The type identifiers that the walker tells apart. *)
Inductive Oid : Type :=
| DATEOID | TIMEOID | TIMESTAMPOID | TIMETZOID | TIMESTAMPTZOID
| OTHEROID (oid : Z).

(** A variable expression, as far as the walker looks at it: its type. *)
Record Node : Type := { exprType : Oid }.

Record JsonPathMutableContext : Type := {
  varnames : list string;
  varexprs : list Node;
  current : JsonPathDatatypeStatus;
  lax : bool;
  mutable : bool
}.

Definition set_current (cxt : JsonPathMutableContext) (s : JsonPathDatatypeStatus)
  : JsonPathMutableContext :=
  {| varnames := varnames cxt; varexprs := varexprs cxt; current := s;
     lax := lax cxt; mutable := mutable cxt |}.

Definition set_mutable (cxt : JsonPathMutableContext) (m : bool)
  : JsonPathMutableContext :=
  {| varnames := varnames cxt; varexprs := varexprs cxt; current := current cxt;
     lax := lax cxt; mutable := m |}.

(** [strncmp] of the C library on strings that hold no NUL: the end of a
    string compares as the byte 0. *)
Fixpoint strncmp (s1 s2 : string) (n : nat) {struct n} : Z :=
  match n with
  | O => 0
  | S n' =>
      match s1, s2 with
      | EmptyString, EmptyString => 0
      | EmptyString, String c2 _ => 0 - byte_of_ascii c2
      | String c1 _, EmptyString => byte_of_ascii c1
      | String c1 r1, String c2 r2 =>
          if byte_of_ascii c1 =? byte_of_ascii c2 then strncmp r1 r2 n'
          else byte_of_ascii c1 - byte_of_ascii c2
      end
  end.

Definition datetime_status_of_type (t : Oid) : JsonPathDatatypeStatus :=
  match t with
  | DATEOID | TIMEOID | TIMESTAMPOID => jpdsDateTimeNonZoned
  | TIMETZOID | TIMESTAMPTZOID => jpdsDateTimeZoned
  | OTHEROID _ => jpdsNonDateTime
  end.

(** The [forboth] loop of the [jpiVariable] case: [status] is what the loop
    leaves untouched when it ends without a [break]. *)
Fixpoint variable_status (names : list string) (exprs : list Node)
    (name : string) (namelen : Z) (status : JsonPathDatatypeStatus)
  : JsonPathDatatypeStatus :=
  match names, exprs with
  | varname :: names', varexpr :: exprs' =>
      if negb (strncmp varname name (Z.to_nat namelen) =? 0)
      then variable_status names' exprs' name namelen status
      else datetime_status_of_type (exprType varexpr)
  | _, _ => status
  end.

(** Modelled from the spec: [DCH_ZONED] is declared in formatting.h, which is
    not among the sources; it is the bit of the flags that says that the
    template names a time zone. *)
Definition DCH_ZONED : Z := 4.

(** The test of the comparison case. *)
Definition comparison_is_mutable (leftStatus rightStatus : JsonPathDatatypeStatus)
  : bool :=
  negb (JsonPathDatatypeStatus_eqb leftStatus jpdsNonDateTime)
  && negb (JsonPathDatatypeStatus_eqb rightStatus jpdsNonDateTime)
  && (JsonPathDatatypeStatus_eqb leftStatus jpdsUnknownDateTime
      || JsonPathDatatypeStatus_eqb rightStatus jpdsUnknownDateTime
      || negb (JsonPathDatatypeStatus_eqb leftStatus rightStatus)).

Section Mutability.

(** [datetime_format_flags] belongs to formatting.c: the flags of a
    datetime template, or nothing when it raises an error for a template it
    rejects. *)
Variable datetime_format_flags : string -> option Z.

(** A recursive call of the walker on an operand: it starts from its own
    fresh [status]. *)
Definition walker : Type :=
  JsonPathItem -> JsonPathMutableContext
  -> result (JsonPathDatatypeStatus * JsonPathMutableContext).

(** The loop over the subscripts of [jpiIndexArray]: the upper bound of a
    range is walked before the lower one. *)
Fixpoint walk_subscripts (rec : walker) (mem : list Z) (jpi : JsonPathItem)
    (n : nat) (i : Z) (cxt : JsonPathMutableContext)
  : result JsonPathMutableContext :=
  match n with
  | O => OK cxt
  | S n' =>
      '(from, to) <- jspGetArraySubscript mem jpi i ;;
      cxt <- match to with
             | Some t => '(_, c) <- rec t cxt ;; OK c
             | None => OK cxt
             end ;;
      '(_, cxt) <- rec from cxt ;;
      walk_subscripts rec mem jpi n' (i + 1) cxt
  end.

(** The [jpiDatetime] case. *)
Definition datetime_status (mem : list Z) (jpi : JsonPathItem)
  : result JsonPathDatatypeStatus :=
  if content_arg jpi =? 0 then OK jpdsUnknownDateTime
  else
    arg <- jspGetArg mem jpi ;;
    match type arg with
    | jpiString =>
        '(template, _) <- jspGetString mem arg ;;
        match datetime_format_flags template with
        | None => Err ErrCollaborator
        | Some flags =>
            if Z.land flags DCH_ZONED =? 0 then OK jpdsDateTimeNonZoned
            else OK jpdsDateTimeZoned
        end
    | _ => OK jpdsNonDateTime
    end.

(** The [switch (jpi->type)] inside the loop of [jspIsMutableWalker]:
    the new [status] and the context.  Kinds without a case (sequence,
    array and object constructors, object field) change nothing. *)
Definition walker_switch (rec : walker) (mem : list Z) (jpi : JsonPathItem)
    (status : JsonPathDatatypeStatus) (cxt : JsonPathMutableContext)
  : result (JsonPathDatatypeStatus * JsonPathMutableContext) :=
  match type jpi with
  | jpiRoot => OK (status, cxt)
  | jpiCurrent => OK (current cxt, cxt)
  | jpiFilter =>
      let prevStatus := current cxt in
      let cxt := set_current cxt status in
      arg <- jspGetArg mem jpi ;;
      '(_, cxt) <- rec arg cxt ;;
      OK (status, set_current cxt prevStatus)
  | jpiVariable =>
      '(name, namelen) <- jspGetString mem jpi ;;
      OK (variable_status (varnames cxt) (varexprs cxt) name namelen status,
          cxt)
  | jpiEqual | jpiNotEqual | jpiLess | jpiGreater | jpiLessOrEqual
  | jpiGreaterOrEqual =>
      arg <- jspGetLeftArg mem jpi ;;
      '(leftStatus, cxt) <- rec arg cxt ;;
      arg <- jspGetRightArg mem jpi ;;
      '(rightStatus, cxt) <- rec arg cxt ;;
      if comparison_is_mutable leftStatus rightStatus
      then OK (status, set_mutable cxt true)
      else OK (status, cxt)
  | jpiNot | jpiIsUnknown | jpiExists | jpiPlus | jpiMinus =>
      arg <- jspGetArg mem jpi ;;
      '(_, cxt) <- rec arg cxt ;;
      OK (status, cxt)
  | jpiAnd | jpiOr | jpiAdd | jpiSub | jpiMul | jpiDiv | jpiMod
  | jpiStartsWith =>
      arg <- jspGetLeftArg mem jpi ;;
      '(_, cxt) <- rec arg cxt ;;
      arg <- jspGetRightArg mem jpi ;;
      '(_, cxt) <- rec arg cxt ;;
      OK (status, cxt)
  | jpiIndexArray =>
      cxt <- walk_subscripts rec mem jpi
               (Z.to_nat (content_array_nelems jpi)) 0 cxt ;;
      OK (if negb (lax cxt) then jpdsNonDateTime else status, cxt)
  | jpiAnyArray =>
      OK (if negb (lax cxt) then jpdsNonDateTime else status, cxt)
  | jpiAny =>
      OK (if 0 <? content_anybounds_first jpi then jpdsNonDateTime else status,
          cxt)
  | jpiDatetime =>
      s <- datetime_status mem jpi ;; OK (s, cxt)
  | jpiLikeRegex =>
      arg <- jspInitByBuffer mem (base jpi) (content_like_regex_expr jpi) ;;
      '(_, cxt) <- rec arg cxt ;;
      OK (status, cxt)
  | jpiNull | jpiString | jpiNumeric | jpiBool | jpiKey | jpiAnyKey
  | jpiSubscript | jpiLast | jpiType | jpiSize | jpiAbs | jpiFloor
  | jpiCeiling | jpiDouble | jpiKeyValue => OK (jpdsNonDateTime, cxt)
  | jpiSequence | jpiArray | jpiObject | jpiObjectField => OK (status, cxt)
  end.

(** The [while (!cxt->mutable)] loop of [jspIsMutableWalker], with the
    local [status] it carries from one item of the chain to the next.  The
    source bounds neither the loop nor the recursion; [fuel] bounds the
    unrolling of the model and [OutOfFuel] says it was too small. *)
Fixpoint jspIsMutableWalker_loop (fuel : nat) (mem : list Z)
    (jpi : JsonPathItem) (status : JsonPathDatatypeStatus)
    (cxt : JsonPathMutableContext) {struct fuel}
  : result (JsonPathDatatypeStatus * JsonPathMutableContext) :=
  match fuel with
  | O => OutOfFuel
  | S fuel' =>
      if mutable cxt then OK (status, cxt)
      else
        '(status, cxt) <-
           walker_switch
             (fun arg c => jspIsMutableWalker_loop fuel' mem arg jpdsNonDateTime c)
             mem jpi status cxt ;;
        nxt <- jspGetNext mem jpi ;;
        match nxt with
        | None => OK (status, cxt)
        | Some next => jspIsMutableWalker_loop fuel' mem next status cxt
        end
  end.

Definition jspIsMutableWalker (fuel : nat) (mem : list Z) (jpi : JsonPathItem)
    (cxt : JsonPathMutableContext)
  : result (JsonPathDatatypeStatus * JsonPathMutableContext) :=
  jspIsMutableWalker_loop fuel mem jpi jpdsNonDateTime cxt.

Definition jspIsMutable (fuel : nat) (path : JsonPath) (names : list string)
    (exprs : list Node) : result bool :=
  let cxt := {| varnames := names; varexprs := exprs;
                current := jpdsNonDateTime;
                lax := negb (Z.land (header path) JSONPATH_LAX =? 0);
                mutable := false |} in
  jpi <- jspInit path ;;
  '(_, cxt) <- jspIsMutableWalker fuel (data path) jpi cxt ;;
  OK (mutable cxt).

End Mutability.

(* ------------------------------------------------------------------ *)
(** ** Notions used to state the properties *)

(** Kinds with two operands. *)
Definition is_binary (t : JsonPathItemType) : bool :=
  match t with
  | jpiAnd | jpiOr | jpiEqual | jpiNotEqual | jpiLess | jpiGreater
  | jpiLessOrEqual | jpiGreaterOrEqual | jpiAdd | jpiSub | jpiMul | jpiDiv
  | jpiMod | jpiStartsWith => true
  | _ => false
  end.

(** The six comparisons. *)
Definition is_comparison (t : JsonPathItemType) : bool :=
  match t with
  | jpiEqual | jpiNotEqual | jpiLess | jpiGreater | jpiLessOrEqual
  | jpiGreaterOrEqual => true
  | _ => false
  end.

(** Kinds that need the extensions. *)
Definition needs_extensions (t : JsonPathItemType) : bool :=
  match t with
  | jpiArray | jpiObject | jpiSequence => true
  | _ => false
  end.

(** The comparison test as the specification words it: "both sides have some
    datetime status and they disagree in zoned-ness, or either side is the
    unknown-kind status paired with any concrete status". *)
Definition has_datetime_status (s : JsonPathDatatypeStatus) : bool :=
  negb (JsonPathDatatypeStatus_eqb s jpdsNonDateTime).

Definition zonedness (s : JsonPathDatatypeStatus) : option bool :=
  match s with
  | jpdsDateTimeZoned => Some true
  | jpdsDateTimeNonZoned => Some false
  | _ => None
  end.

Definition is_concrete (s : JsonPathDatatypeStatus) : bool :=
  match zonedness s with Some _ => true | None => false end.

Definition is_unknown (s : JsonPathDatatypeStatus) : bool :=
  JsonPathDatatypeStatus_eqb s jpdsUnknownDateTime.

Definition disagree_in_zonedness (l r : JsonPathDatatypeStatus) : bool :=
  match zonedness l, zonedness r with
  | Some a, Some b => negb (Bool.eqb a b)
  | _, _ => false
  end.

Definition spec_comparison_is_mutable (l r : JsonPathDatatypeStatus) : bool :=
  (has_datetime_status l && has_datetime_status r && disagree_in_zonedness l r)
  || (is_unknown l && is_concrete r)
  || (is_unknown r && is_concrete l).

(** The same with "paired with any datetime status, unknown included". *)
Definition amended_comparison_is_mutable (l r : JsonPathDatatypeStatus) : bool :=
  (has_datetime_status l && has_datetime_status r && disagree_in_zonedness l r)
  || (is_unknown l && has_datetime_status r)
  || (is_unknown r && has_datetime_status l).

(** A variable name matches a declared name when the two are equal. *)
Fixpoint lookup_by_name (names : list string) (exprs : list Node) (name : string)
  : option Node :=
  match names, exprs with
  | n :: names', e :: exprs' =>
      if String.eqb n name then Some e else lookup_by_name names' exprs' name
  | _, _ => None
  end.

(** The first declared entry whose name starts with [name]. *)
Fixpoint first_with_prefix (names : list string) (exprs : list Node)
    (name : string) : option Node :=
  match names, exprs with
  | n :: names', e :: exprs' =>
      if String.prefix name n then Some e
      else first_with_prefix names' exprs' name
  | _, _ => None
  end.

(** The status the specification gives to a variable: that of the first
    declared entry whose name matches, not-a-datetime without a match. *)
Definition spec_variable_status (names : list string) (exprs : list Node)
    (name : string) : JsonPathDatatypeStatus :=
  match lookup_by_name names exprs name with
  | Some e => datetime_status_of_type (exprType e)
  | None => jpdsNonDateTime
  end.

(** The items that a call of the encoder on [item] calls itself on, each with
    the nesting level and the subscript flag it is given: the operands in the
    order they are written, then the successor. *)
Definition with_context (nl : Z) (ias : bool) (o : option JsonPathParseItem)
  : list (Z * bool * JsonPathParseItem) :=
  match o with Some c => [(nl, ias, c)] | None => [] end.

Definition payload_children (nl : Z) (ias : bool) (item : JsonPathParseItem)
  : list (Z * bool * JsonPathParseItem) :=
  match item_type item with
  | jpiAnd | jpiOr | jpiEqual | jpiNotEqual | jpiLess | jpiGreater
  | jpiLessOrEqual | jpiGreaterOrEqual | jpiAdd | jpiSub | jpiMul | jpiDiv
  | jpiMod | jpiStartsWith =>
      with_context nl ias (value_args_left item)
      ++ with_context nl ias (value_args_right item)
  | jpiLikeRegex => with_context nl ias (value_like_regex_expr item)
  | jpiFilter => with_context (nl + 1) ias (value_arg item)
  | jpiIsUnknown | jpiNot | jpiPlus | jpiMinus | jpiExists | jpiDatetime
  | jpiArray => with_context nl ias (value_arg item)
  | jpiIndexArray =>
      flat_map (fun e => (nl, true, fst e) :: with_context nl true (snd e))
        (value_array_elems item)
  | jpiSequence => map (fun e => (nl, ias, e)) (value_sequence_elems item)
  | jpiObject =>
      flat_map (fun f => [(nl, ias, fst f); (nl, ias, snd f)])
        (value_object_fields item)
  | _ => []
  end.

Definition children (nl : Z) (ias : bool) (item : JsonPathParseItem)
  : list (Z * bool * JsonPathParseItem) :=
  payload_children nl ias item ++ with_context nl ias (item_next item).

(** [occurs nl ias item nl' ias' d]: the encoder, called on [item] at nesting
    level [nl] with subscript flag [ias], reaches [d] at level [nl'] with flag
    [ias'] (when nothing stops it before). *)
Inductive occurs : Z -> bool -> JsonPathParseItem
                   -> Z -> bool -> JsonPathParseItem -> Prop :=
| occurs_here : forall nl ias item, occurs nl ias item nl ias item
| occurs_below : forall nl ias item nl1 ias1 c nl' ias' d,
    In (nl1, ias1, c) (children nl ias item) ->
    occurs nl1 ias1 c nl' ias' d ->
    occurs nl ias item nl' ias' d.

(** The error that the encoder raises for the item itself, before it turns
    to the operands. *)
Definition own_error (ext : bool) (nl : Z) (ias : bool) (item : JsonPathParseItem)
  : option PgError :=
  match item_type item with
  | jpiCurrent => if nl <=? 0 then Some ErrCurrentInRoot else None
  | jpiLast => if negb ias then Some ErrLastOutsideSubscript else None
  | jpiArray | jpiSequence | jpiObject =>
      if negb ext then Some ErrExtensionsNotEnabled else None
  | jpiLikeRegex =>
      match value_like_regex_expr item with
      | None => Some ErrBadAddress
      | Some _ => None
      end
  | jpiSubscript | jpiObjectField => Some ErrUnrecognizedItemType
  | _ => None
  end.

(** The number of stack frames that encoding an item takes. *)
Fixpoint item_depth (item : JsonPathParseItem) : nat :=
  match item with
  | ParseItem _ nx v =>
      S (Nat.max
           (match nx with Some n => item_depth n | None => O end)
           (match v with
            | v_args l r =>
                Nat.max (match l with Some a => item_depth a | None => O end)
                        (match r with Some a => item_depth a | None => O end)
            | v_arg a => match a with Some a => item_depth a | None => O end
            | v_array elems =>
                list_max
                  (map (fun e =>
                          Nat.max (item_depth (fst e))
                            (match snd e with
                             | Some t => item_depth t
                             | None => O
                             end)) elems)
            | v_like_regex e _ _ => item_depth e
            | v_sequence elems => list_max (map item_depth elems)
            | v_object fields =>
                list_max
                  (map (fun f => Nat.max (item_depth (fst f)) (item_depth (snd f)))
                     fields)
            | _ => O
            end))
  end.

(** The chain of successors that starts at [v]: for each item its position,
    its kind and its [next] displacement. *)
Fixpoint chain_items (fuel : nat) (mem : list Z) (v : JsonPathItem)
  : result (list (Z * JsonPathItemType * Z)) :=
  match fuel with
  | O => OutOfFuel
  | S fuel' =>
      nxt <- jspGetNext mem v ;;
      match nxt with
      | None => OK [(base v, type v, nextPos v)]
      | Some a =>
          rest <- chain_items fuel' mem a ;;
          OK ((base v, type v, nextPos v) :: rest)
      end
  end.

Definition chain_types (fuel : nat) (mem : list Z) (v : JsonPathItem)
  : result (list JsonPathItemType) :=
  items <- chain_items fuel mem v ;; OK (map (fun i => snd (fst i)) items).

(** The text of a string without characters to escape, as it is printed. *)
Definition quoted (s : string) : string :=
  String.append dquote (String.append s dquote).

(** A text round-trips when printing its binary form gives a text with the
    same binary form. *)
Definition round_trips
    (parsejsonpath : string -> result (option JsonPathParseResult))
    (numeric_out : list Z -> string) (stack : nat) (text : string) : Prop :=
  forall js,
    jsonPathFromCstring parsejsonpath stack text = OK js ->
    exists printed,
      jsonpath_out numeric_out stack js = OK printed
      /\ jsonPathFromCstring parsejsonpath stack printed = OK js.

(** The outcome of a call without its value. *)
Definition void {A : Type} (r : result A) : result unit :=
  bind r (fun _ => OK tt).

Definition own_check (ext : bool) (nl : Z) (ias : bool) (item : JsonPathParseItem)
  : result unit :=
  match own_error ext nl ias item with
  | Some e => Err e
  | None => OK tt
  end.

(** A check on each item of a list, in order, up to the first failure. *)
Fixpoint check_all (chk : Z -> bool -> JsonPathParseItem -> result unit)
    (cs : list (Z * bool * JsonPathParseItem)) : result unit :=
  match cs with
  | [] => OK tt
  | c :: rest =>
      _ <- chk (fst (fst c)) (snd (fst c)) (snd c) ;; check_all chk rest
  end.

(** The outcome of the encoder as a function of the tree alone: the test of
    the stack, the error of the item itself, then the operands and the
    successor in the order they are written. *)
Fixpoint flatten_check (stack : nat) (ext : bool) (nl : Z) (ias : bool)
    (item : JsonPathParseItem) {struct stack} : result unit :=
  match stack with
  | O => Err ErrStackDepth
  | S stack' =>
      _ <- own_check ext nl ias item ;;
      check_all (flatten_check stack' ext) (children nl ias item)
  end.

(** [extends buf buf']: [buf'] is [buf] with bytes appended. *)
Definition extends (buf buf' : StringInfo) : Prop :=
  exists suffix, buf' = buf ++ suffix.

(** [raises r P]: when [r] is an error, the error satisfies [P]. *)
Definition raises {A : Type} (r : result A) (P : PgError -> Prop) : Prop :=
  forall e, r = Err e -> P e.

(** Reading an item fails only for an address outside the buffer or for a
    kind tag that is not recognized. *)
Definition cursor_error (e : PgError) : Prop :=
  e = ErrBadAddress \/ e = ErrUnrecognizedItemType.

(** What a walk leaves as it found it: everything but the [mutable] flag. *)
Definition same_settings (c c' : JsonPathMutableContext) : Prop :=
  varnames c' = varnames c /\ varexprs c' = varexprs c
  /\ current c' = current c /\ lax c' = lax c.

(** A recursive call that keeps the settings. *)
Definition keeps_settings (rec : walker) : Prop :=
  forall a c s c', rec a c = OK (s, c') -> same_settings c c'.

(** The errors of a walk: those of the cursor and that of the template
    classifier.  The stack-depth error is not among them. *)
Definition walker_error (e : PgError) : Prop :=
  cursor_error e \/ e = ErrCollaborator.

(** [rec'] answers wherever [rec] does, and the same. *)
Definition grows (rec rec' : walker) : Prop :=
  forall a c r, rec a c = OK r -> rec' a c = OK r.

(** The frames taken by the operands alone. *)
Definition value_depth (v : JsonPathParseValue JsonPathParseItem) : nat :=
  match v with
  | v_args l r =>
      Nat.max (match l with Some a => item_depth a | None => O end)
              (match r with Some a => item_depth a | None => O end)
  | v_arg a => match a with Some a => item_depth a | None => O end
  | v_array elems =>
      list_max
        (map (fun e =>
                Nat.max (item_depth (fst e))
                  (match snd e with
                   | Some t => item_depth t
                   | None => O
                   end)) elems)
  | v_like_regex e _ _ => item_depth e
  | v_sequence elems => list_max (map item_depth elems)
  | v_object fields =>
      list_max
        (map (fun f => Nat.max (item_depth (fst f)) (item_depth (snd f))) fields)
  | _ => O
  end.

(** The kinds whose case in the printer tests [printBracketes]: the
    two-operand items, [like_regex], the unary signs and the sequence. *)
Definition takes_parentheses (t : JsonPathItemType) : bool :=
  is_binary t
  || match t with
     | jpiLikeRegex | jpiPlus | jpiMinus | jpiSequence => true
     | _ => false
     end.

(** The errors that the specification calls syntax errors: its class of
    input errors, which the code reports to the user with [ereport] under the
    code of a syntax error or of an invalid text representation.  The
    stack-depth error and the internal errors raised with [elog] are not
    among them. *)
Definition input_error (e : PgError) : bool :=
  match errcode e with
  | ERRCODE_SYNTAX_ERROR | ERRCODE_INVALID_TEXT_REPRESENTATION => true
  | _ => false
  end.

(** The three situations of the specification, each with the error that the
    encoder raises for it: an item that needs the extensions while they are
    off, a current-item reference at nesting level <= 0, a last-index
    reference outside an array subscript. *)
Definition violation (ext : bool) (nl : Z) (ias : bool) (d : JsonPathParseItem)
    (e : PgError) : Prop :=
  (needs_extensions (item_type d) = true /\ ext = false
   /\ e = ErrExtensionsNotEnabled)
  \/ (item_type d = jpiCurrent /\ nl <= 0 /\ e = ErrCurrentInRoot)
  \/ (item_type d = jpiLast /\ ias = false /\ e = ErrLastOutsideSubscript).

(** An item as the parser builds it, as far as the outcome of the encoder
    depends on it: its kind has a case in the encoder (subscripts and object
    fields are held by their array and object items), and a [like_regex] has
    its operand. *)
Definition encodable (d : JsonPathParseItem) : bool :=
  match item_type d with
  | jpiSubscript | jpiObjectField => false
  | jpiLikeRegex =>
      match value_like_regex_expr d with Some _ => true | None => false end
  | _ => true
  end.

(** The subscripts of an indexed-array step, each as [jspGetArraySubscript]
    reads it: the lower bound, and the upper bound of a range. *)
Definition array_subscripts (mem : list Z) (jpi : JsonPathItem)
  : list (result (JsonPathItem * option JsonPathItem)) :=
  map (fun i => jspGetArraySubscript mem jpi (Z.of_nat i))
    (seq 0 (Z.to_nat (content_array_nelems jpi))).

(** The bound expressions of a list of subscripts, in the order in which the
    walker takes them: of a range the upper bound, then the lower one. *)
Definition subscript_bounds (subs : list (JsonPathItem * option JsonPathItem))
  : list JsonPathItem :=
  flat_map (fun s => match snd s with
                     | Some to => [to; fst s]
                     | None => [fst s]
                     end) subs.

(** A walk of its own for each item of a list, one after the other: the
    status that a walk returns is dropped, the context is handed on. *)
Fixpoint walk_each (rec : walker) (items : list JsonPathItem)
    (cxt : JsonPathMutableContext) : result JsonPathMutableContext :=
  match items with
  | [] => OK cxt
  | a :: rest => '(_, cxt) <- rec a cxt ;; walk_each rec rest cxt
  end.

(* ------------------------------------------------------------------ *)
(** ** Sample paths and sample collaborators *)

Definition leaf (t : JsonPathItemType) (nx : option JsonPathParseItem)
  : JsonPathParseItem := ParseItem t nx v_none.

Definition named (t : JsonPathItemType) (name : string)
    (nx : option JsonPathParseItem) : JsonPathParseItem :=
  ParseItem t nx (v_string name).

Definition binop (t : JsonPathItemType) (l r : JsonPathParseItem)
    (nx : option JsonPathParseItem) : JsonPathParseItem :=
  ParseItem t nx (v_args (Some l) (Some r)).

Definition unop (t : JsonPathItemType) (a : option JsonPathParseItem)
    (nx : option JsonPathParseItem) : JsonPathParseItem :=
  ParseItem t nx (v_arg a).

(** [$.name], followed by [nx]. *)
Definition root_key (name : string) (nx : option JsonPathParseItem)
  : JsonPathParseItem :=
  leaf jpiRoot (Some (named jpiKey name nx)).

(** [$.datetime()]. *)
Definition root_datetime : JsonPathParseItem :=
  leaf jpiRoot (Some (unop jpiDatetime None None)).

(** The varlena image of the numeric 2: a four-byte length word, then a short
    header and one base-10000 digit. *)
Definition numeric_two : Numeric := [32; 0; 0; 0; 0; 128; 2; 0].

Definition lax_path (e : JsonPathParseItem) : JsonPathParseResult :=
  {| pr_expr := e; pr_lax := true; pr_ext := false |}.

Definition strict_path (e : JsonPathParseItem) : JsonPathParseResult :=
  {| pr_expr := e; pr_lax := false; pr_ext := false |}.

(** [$.a[*].type()]: the chain given in the header comment of jsonpath.c. *)
Definition path_a_any_type : JsonPathParseResult :=
  lax_path
    (leaf jpiRoot
       (Some (named jpiKey "a"
                (Some (leaf jpiAnyArray (Some (leaf jpiType None))))))).

(** [$.a + $.b * 2] and [($.a + $.b) * 2]. *)
Definition path_sum_of_product : JsonPathParseResult :=
  lax_path
    (binop jpiAdd (root_key "a" None)
       (binop jpiMul (root_key "b" None)
          (ParseItem jpiNumeric None (v_numeric numeric_two)) None) None).

Definition path_product_of_sum : JsonPathParseResult :=
  lax_path
    (binop jpiMul
       (binop jpiAdd (root_key "a" None) (root_key "b" None) None)
       (ParseItem jpiNumeric None (v_numeric numeric_two)) None).

(** [($.a * $.b).c + $.d]: the key accessor [.c] follows the product.
    [$.a * $.b.c + $.d]: the key accessor [.c] follows [$.b]. *)
Definition path_chained_product : JsonPathParseResult :=
  lax_path
    (binop jpiAdd
       (binop jpiMul (root_key "a" None) (root_key "b" None)
          (Some (named jpiKey "c" None)))
       (root_key "d" None) None).

Definition path_plain_product : JsonPathParseResult :=
  lax_path
    (binop jpiAdd
       (binop jpiMul (root_key "a" None)
          (root_key "b" (Some (named jpiKey "c" None))) None)
       (root_key "d" None) None).

(** [($.a * $.b).c]: the product with its successor, alone. *)
Definition path_product_key : JsonPathParseResult :=
  lax_path
    (binop jpiMul (root_key "a" None) (root_key "b" None)
       (Some (named jpiKey "c" None))).

(** [$.datetime() == $.datetime()]. *)
Definition path_datetime_eq_datetime : JsonPathParseResult :=
  lax_path (binop jpiEqual root_datetime root_datetime None).

(** [$t == $.datetime()]. *)
Definition path_var_eq_datetime : JsonPathParseResult :=
  lax_path (binop jpiEqual (named jpiVariable "t" None) root_datetime None).

(** [$x[2] == $.datetime()], lax and strict. *)
Definition var_subscript_eq_datetime : JsonPathParseItem :=
  binop jpiEqual
    (named jpiVariable "x"
       (Some (ParseItem jpiIndexArray None
                (v_array
                   [(ParseItem jpiNumeric None (v_numeric numeric_two), None)]))))
    root_datetime None.

(** [!(!( ... true))] with [n] negations. *)
Fixpoint negations (n : nat) : JsonPathParseItem :=
  match n with
  | O => ParseItem jpiBool None (v_boolean true)
  | S k => unop jpiNot (Some (negations k)) None
  end.

(** [$ ? (@ == $)] and [$[last]]: the current item inside a filter, the
    last index inside a subscript. *)
Definition filter_on_current : JsonPathParseItem :=
  leaf jpiRoot
    (Some (unop jpiFilter
             (Some (binop jpiEqual (leaf jpiCurrent None) (leaf jpiRoot None)
                      None)) None)).

Definition subscript_last : JsonPathParseItem :=
  leaf jpiRoot
    (Some (ParseItem jpiIndexArray None (v_array [(leaf jpiLast None, None)]))).

(** The buffer that the encoder starts from: the room for the header. *)
Definition header_room : StringInfo := appendStringInfoSpaces [] JSONPATH_HDRSZ.



(** [[$]], an array constructor. *)
Definition array_of_root : JsonPathParseItem :=
  unop jpiArray (Some (leaf jpiRoot None)) None.

Definition timestamptz_var : Node := {| exprType := TIMESTAMPTZOID |}.
Definition int4_var : Node := {| exprType := OTHEROID 23 |}.

(** A formatter for the one-digit numerics of the samples. *)
Definition sample_numeric_out (bytes : list Z) : string :=
  format_u (nth 6 bytes 0).

(** A classifier of templates: zoned when the template names a time zone. *)
Definition sample_format_flags (template : string) : option Z :=
  match String.index 0 "TZ" template with
  | Some _ => Some DCH_ZONED
  | None => Some 0
  end.

(** A parser that knows four texts. *)
Definition sample_parse (text : string) : result (option JsonPathParseResult) :=
  if String.eqb text "$.a[*].type()" then OK (Some path_a_any_type)
  else if String.eqb text "$.a + $.b * 2" then OK (Some path_sum_of_product)
  else if String.eqb text "($.a * $.b).c + $.d"
       then OK (Some path_chained_product)
  else if String.eqb text "$.a * $.b.c + $.d" then OK (Some path_plain_product)
  else OK None.

Definition sample_client_to_server (bytes : list Z) : string :=
  string_of_list_ascii (map ascii_of_byte bytes).

(** The node stream of an encoded sample, and the item at its start. *)
Definition data_of (r : result JsonPath) : list Z :=
  match r with OK js => data js | _ => [] end.

Definition item_of (r : result JsonPathItem) : JsonPathItem :=
  match r with
  | OK v => v
  | _ => {| type := jpiNull; nextPos := 0; base := 0; content := c_none |}
  end.

Definition mem_datetime_eq_datetime : list Z :=
  Eval vm_compute in data_of (encode_parse_result 16 path_datetime_eq_datetime).

Definition mem_sum_of_product : list Z :=
  Eval vm_compute in data_of (encode_parse_result 16 path_sum_of_product).

(** [!(!(!(true)))], encoded with four frames of stack. *)
Definition path_negations : JsonPath :=
  Eval vm_compute in
    match encode_parse_result 4 (lax_path (negations 3)) with
    | OK js => js
    | _ => {| header := 0; data := [] |}
    end.

(** A message in binary mode: the version byte, then the text. *)
Definition sample_message (version : Z) : PqMessage :=
  {| msg := version :: bytes_of_string "$.a[*].type()"; cursor := 0 |}.

(** [$x[$.a ? (@.datetime() == $.datetime()) to 2]]: a range whose lower
    bound holds a comparison of two datetimes of unknown kind. *)
Definition var_subscript_range : JsonPathParseItem :=
  named jpiVariable "x"
    (Some (ParseItem jpiIndexArray None
             (v_array
                [(root_key "a"
                    (Some (unop jpiFilter
                             (Some (binop jpiEqual
                                      (leaf jpiCurrent
                                         (Some (unop jpiDatetime None None)))
                                      root_datetime None)) None)),
                  Some (ParseItem jpiNumeric None (v_numeric numeric_two)))]))).

(** Its node stream, which is the same in both modes. *)
Definition mem_var_subscript_range : list Z :=
  Eval vm_compute in
    data_of (encode_parse_result 16 (strict_path var_subscript_range)).

(** The item [[... to 2]] of the sample above, and its one subscript. *)
Definition range_subscript_of_var : JsonPathItem :=
  Eval vm_compute in
    item_of (x <- jspInitByBuffer mem_var_subscript_range 0 0 ;;
             n <- jspGetNext mem_var_subscript_range x ;;
             match n with Some a => OK a | None => Err ErrBadAddress end).

Definition range_of_var : list (JsonPathItem * option JsonPathItem) :=
  Eval vm_compute in
    match jspGetArraySubscript mem_var_subscript_range range_subscript_of_var 0
    with
    | OK s => [s]
    | _ => []
    end.

(** The context that [jspIsMutable] starts from. *)
Definition initial_context (names : list string) (exprs : list Node)
    (is_lax : bool) : JsonPathMutableContext :=
  {| varnames := names; varexprs := exprs; current := jpdsNonDateTime;
     lax := is_lax; mutable := false |}.

(** [-$.a + ($.b, $.c)]: a sum of a signed path and a sequence; and
    [$.a - ($.b - $.c)]: a difference whose right operand is a difference. *)
Definition path_sign_plus_sequence : JsonPathParseResult :=
  {| pr_expr :=
       binop jpiAdd
         (unop jpiMinus (Some (root_key "a" None)) None)
         (ParseItem jpiSequence None
            (v_sequence [root_key "b" None; root_key "c" None])) None;
     pr_lax := true;
     pr_ext := true |}.

Definition path_difference_of_difference : JsonPathParseResult :=
  lax_path
    (binop jpiSub (root_key "a" None)
       (binop jpiSub (root_key "b" None) (root_key "c" None) None) None).

(* ------------------------------------------------------------------ *)
(** ** Output in binary mode *)

Section Output.

Variable numeric_out : list Z -> string.

(** The conversion of a text to the encoding of the client, done inside
    [pq_sendtext]. *)
Variable pg_server_to_client : string -> list Z.

(** Modelled from the spec: [pq_begintypsend], [pq_sendint8], [pq_sendtext]
    and [pq_endtypsend] belong to pqformat.c, which is not among the sources.
    The message built is the bytes sent, in order: here the version byte and
    the converted text. *)
Definition pq_sendint8 (buf : StringInfo) (i : Z) : StringInfo :=
  appendStringInfoChar buf (i mod 256).

Definition pq_sendtext (buf : StringInfo) (str : string) : StringInfo :=
  appendBinaryStringInfo buf (pg_server_to_client str).

(** [jsonpath_send]: the body of the message. *)
Definition jsonpath_send (stack : nat) (js : JsonPath) : result StringInfo :=
  let version := JSONPATH_VERSION in
  jtext <- jsonPathToCstring numeric_out stack EmptyString js ;;
  let buf := pq_sendint8 [] version in
  OK (pq_sendtext buf jtext).

End Output.

(* ------------------------------------------------------------------ *)
(** ** Notions used to relate an encoded path to its parse tree *)

(** A name the encoder can store as a C string: it holds no NUL. *)
Fixpoint no_nul (s : string) : bool :=
  match s with
  | EmptyString => true
  | String c r => negb (byte_of_ascii c =? 0) && no_nul r
  end.

(** A value of a field declared [uint32]. *)
Definition is_uint32 (x : Z) : bool := (0 <=? x) && (x <? 4294967296).

(** The scalars of an item are as their C types have them. *)
Definition own_values_ok (item : JsonPathParseItem) : bool :=
  match item_type item with
  | jpiString | jpiVariable | jpiKey => no_nul (value_string item)
  | jpiLikeRegex =>
      no_nul (value_like_regex_pattern item)
      && is_uint32 (value_like_regex_flags item)
  | jpiAny =>
      is_uint32 (value_anybounds_first item)
      && is_uint32 (value_anybounds_last item)
  | _ => true
  end.

Definition is_some {A : Type} (o : option A) : bool :=
  match o with Some _ => true | None => false end.

(** The operands that the grammar always gives are there: both operands of
    a two-operand item, the operand of a filter, of a predicate and of a sign.
    The argument of [.datetime()] and the content of an array constructor are
    optional. *)
Definition own_operands_present (item : JsonPathParseItem) : bool :=
  match item_type item with
  | jpiAnd | jpiOr | jpiEqual | jpiNotEqual | jpiLess | jpiGreater
  | jpiLessOrEqual | jpiGreaterOrEqual | jpiAdd | jpiSub | jpiMul | jpiDiv
  | jpiMod | jpiStartsWith =>
      is_some (value_args_left item) && is_some (value_args_right item)
  | jpiFilter | jpiIsUnknown | jpiNot | jpiPlus | jpiMinus | jpiExists =>
      is_some (value_arg item)
  | _ => true
  end.

(** An item as the parser builds it. *)
Definition as_parsed (item : JsonPathParseItem) : bool :=
  own_values_ok item && own_operands_present item.

Definition not_a_comparison (item : JsonPathParseItem) : bool :=
  negb (is_comparison (item_type item)).

(** [every P depth item]: [P] holds of [item] and of every item that the
    encoder writes for it, and these are nested at most [depth] deep. *)
Fixpoint every (P : JsonPathParseItem -> bool) (depth : nat)
    (item : JsonPathParseItem) {struct depth} : bool :=
  match depth with
  | O => false
  | S d =>
      P item && forallb (fun c => every P d (snd c)) (children 0 false item)
  end.

(** [P] holds of an optional operand, of each item of a list. *)
Definition ok_opt (ok : JsonPathParseItem -> bool)
    (o : option JsonPathParseItem) : bool :=
  match o with Some c => ok c | None => true end.

Definition oks (ok : JsonPathParseItem -> bool)
    (cs : list (Z * bool * JsonPathParseItem)) : bool :=
  forallb (fun c => ok (snd c)) cs.

(** A relation between an item read with the cursor and an item of the parse
    tree. *)
Definition item_reader : Type := JsonPathItem -> JsonPathParseItem -> Prop.

(** An optional operand: a displacement of 0 when it is missing, a positive
    displacement and an item that the accessor [get] reads otherwise. *)
Definition reads_operand (rec : item_reader) (disp : Z)
    (get : result JsonPathItem) (o : option JsonPathParseItem) : Prop :=
  match o with
  | None => disp = 0
  | Some c => 0 < disp /\ exists a, get = OK a /\ rec a c
  end.

(** The payload of [v], read with the accessors of the cursor, is that of
    [item]; [rec] relates the operands. *)
Definition reads_payload (rec : item_reader) (mem : list Z) (v : JsonPathItem)
    (item : JsonPathParseItem) : Prop :=
  match item_type item with
  | jpiString | jpiVariable | jpiKey =>
      jspGetString mem v
      = OK (value_string item, strlen (value_string item))
  | jpiNumeric =>
      0 <= jspGetNumeric v
      /\ firstn (List.length (value_numeric item))
           (skipn (Z.to_nat (jspGetNumeric v)) mem) = value_numeric item
  | jpiBool => jspGetBool mem v = OK (value_boolean item)
  | jpiAnd | jpiOr | jpiEqual | jpiNotEqual | jpiLess | jpiGreater
  | jpiLessOrEqual | jpiGreaterOrEqual | jpiAdd | jpiSub | jpiMul | jpiDiv
  | jpiMod | jpiStartsWith =>
      reads_operand rec (content_args_left v) (jspGetLeftArg mem v)
        (value_args_left item)
      /\ reads_operand rec (content_args_right v) (jspGetRightArg mem v)
           (value_args_right item)
  | jpiLikeRegex =>
      content_like_regex_flags v = value_like_regex_flags item
      /\ load_cstring mem (content_like_regex_pattern v)
         = OK (value_like_regex_pattern item)
      /\ exists e a,
           value_like_regex_expr item = Some e
           /\ jspInitByBuffer mem (base v) (content_like_regex_expr v) = OK a
           /\ rec a e
  | jpiFilter | jpiIsUnknown | jpiNot | jpiPlus | jpiMinus | jpiExists
  | jpiDatetime | jpiArray =>
      reads_operand rec (content_arg v) (jspGetArg mem v) (value_arg item)
  | jpiIndexArray =>
      content_array_nelems v
      = Z.of_nat (List.length (value_array_elems item))
      /\ forall i from to,
           nth_error (value_array_elems item) i = Some (from, to) ->
           exists f t,
             jspGetArraySubscript mem v (Z.of_nat i) = OK (f, t)
             /\ rec f from
             /\ match to, t with
                | Some to', Some t' => rec t' to'
                | None, None => True
                | _, _ => False
                end
  | jpiAny =>
      content_anybounds_first v = value_anybounds_first item
      /\ content_anybounds_last v = value_anybounds_last item
  | jpiSequence =>
      content_sequence_nelems v
      = Z.of_nat (List.length (value_sequence_elems item))
      /\ forall i e,
           nth_error (value_sequence_elems item) i = Some e ->
           exists a,
             jspGetSequenceElement mem v (Z.of_nat i) = OK a /\ rec a e
  | jpiObject =>
      content_object_nfields v
      = Z.of_nat (List.length (value_object_fields item))
      /\ forall i k w,
           nth_error (value_object_fields item) i = Some (k, w) ->
           exists key val,
             jspGetObjectField mem v (Z.of_nat i) = OK (key, val)
             /\ rec key k /\ rec val w
  | jpiNull | jpiRoot | jpiAnyArray | jpiAnyKey | jpiCurrent | jpiLast
  | jpiType | jpiSize | jpiAbs | jpiFloor | jpiCeiling | jpiDouble
  | jpiKeyValue => True
  | jpiSubscript | jpiObjectField => False
  end.

(** [reads_back depth mem v item]: the cursor [v] on [mem] shows the tree
    [item]: its kind, its payload, its operands and its successor, each read
    with the accessor the source has for it; [depth] bounds the nesting. *)
Fixpoint reads_back (depth : nat) (mem : list Z) (v : JsonPathItem)
    (item : JsonPathParseItem) {struct depth} : Prop :=
  match depth with
  | O => False
  | S d =>
      type v = item_type item
      /\ reads_payload (reads_back d mem) mem v item
      /\ match item_next item with
         | None => jspGetNext mem v = OK None
         | Some n =>
             exists a, jspGetNext mem v = OK (Some a) /\ reads_back d mem a n
         end
  end.

(** [laid rd s pos item]: the bytes [s], found at position [pos] of a node
    stream whatever comes before and after them, read as [item]. *)
Definition laid (rd : list Z -> item_reader) (s : list Z) (pos : Z)
    (item : JsonPathParseItem) : Prop :=
  forall pre post,
    len pre = pos ->
    exists v,
      jspInitByBuffer (pre ++ s ++ post) 0 pos = OK v
      /\ rd (pre ++ s ++ post) v item.

(** The same for the payload that the encoder appends to [b1], giving [b2],
    for an item at position [pos]. *)
Definition payload_laid (rd : list Z -> item_reader) (b1 b2 : StringInfo)
    (pos : Z) (item : JsonPathParseItem) : Prop :=
  exists pl,
    b2 = b1 ++ pl
    /\ forall pre post,
         len pre = len b1 - 8 -> 0 <= pos ->
         exists c,
           init_content (pre ++ pl ++ post) (item_type item) 0 (len pre) = OK c
           /\ forall v,
                type v = item_type item -> base v = pos -> content v = c ->
                reads_payload (rd (pre ++ pl ++ post)) (pre ++ pl ++ post) v item.

(** The call gives a result. *)
Definition succeeds {A : Type} (r : result A) : Prop := exists a, r = OK a.

(** The call gives a result or raises the error of an external routine. *)
Definition answers {A : Type} (r : result A) : Prop :=
  succeeds r \/ r = Err ErrCollaborator.

(** The path [$.k1.k2 ... .kn] of member accessors, and its text. *)
Fixpoint key_chain (keys : list string) : option JsonPathParseItem :=
  match keys with
  | [] => None
  | k :: rest => Some (named jpiKey k (key_chain rest))
  end.

Definition member_path (keys : list string) : JsonPathParseResult :=
  lax_path (leaf jpiRoot (key_chain keys)).

Fixpoint member_text (keys : list string) : string :=
  match keys with
  | [] => EmptyString
  | k :: rest => ("." +++ escape_json k +++ member_text rest)%string
  end.

(** The binary form of [$.a + $.b * 2]. *)
Definition encoded_sum_of_product : JsonPath :=
  Eval vm_compute in
    match encode_parse_result 16 path_sum_of_product with
    | OK js => js
    | _ => {| header := 0; data := [] |}
    end.

(** The binary form of [strict $.a]. *)
Definition encoded_strict_root_key : JsonPath :=
  Eval vm_compute in
    match encode_parse_result 16 (strict_path (root_key "a" None)) with
    | OK js => js
    | _ => {| header := 0; data := [] |}
    end.

Definition sample_server_to_client (text : string) : list Z :=
  bytes_of_string text.

(** Neither [[i]] nor [[*]]. *)
Definition not_an_array_accessor (item : JsonPathParseItem) : bool :=
  match item_type item with
  | jpiIndexArray | jpiAnyArray => false
  | _ => true
  end.

(** The context with another mode. *)
Definition set_lax (cxt : JsonPathMutableContext) (l : bool)
  : JsonPathMutableContext :=
  {| varnames := varnames cxt; varexprs := varexprs cxt; current := current cxt;
     lax := l; mutable := mutable cxt |}.

(** The outcome of a walk, with the mode of its context replaced. *)
Definition in_mode (l : bool)
    (r : result (JsonPathDatatypeStatus * JsonPathMutableContext))
  : result (JsonPathDatatypeStatus * JsonPathMutableContext) :=
  match r with
  | OK (s, c) => OK (s, set_lax c l)
  | Err e => Err e
  | OutOfFuel => OutOfFuel
  end.

(* ================================================================== *)
(** * Properties *)

(** ** The result monad *)

Lemma bind_OK : forall (A B : Type) (r : result A) (k : A -> result B) (b : B),
  bind r k = OK b -> exists a, r = OK a /\ k a = OK b.
Proof.
  intros A B r k b H. destruct r as [a | e |]; simpl in H; try discriminate.
  exists a. split; [reflexivity | exact H].
Qed.

Lemma bind_Err : forall (A B : Type) (r : result A) (k : A -> result B) (e : PgError),
  bind r k = Err e -> r = Err e \/ exists a, r = OK a /\ k a = Err e.
Proof.
  intros A B r k e H. destruct r as [a | e' |]; simpl in H; try discriminate.
  - right. exists a. split; [reflexivity | exact H].
  - left. congruence.
Qed.

Lemma bind_ext : forall (A B : Type) (r : result A) (k k' : A -> result B),
  (forall a, r = OK a -> k a = k' a) -> bind r k = bind r k'.
Proof.
  intros A B r k k' H. destruct r as [a | e |]; simpl; auto.
Qed.

Lemma bind_assoc : forall (A B C : Type) (r : result A) (k : A -> result B)
    (h : B -> result C),
  bind (bind r k) h = bind r (fun a => bind (k a) h).
Proof.
  intros A B C r k h. destruct r; reflexivity.
Qed.

Lemma JsonPathDatatypeStatus_eqb_eq : forall a b,
  JsonPathDatatypeStatus_eqb a b = true <-> a = b.
Proof.
  intros a b. destruct a, b; simpl; split; intro H;
    first [reflexivity | discriminate].
Qed.

Lemma raises_OK : forall (A : Type) (a : A) P, raises (OK a) P.
Proof. intros A a P e H. discriminate H. Qed.

Lemma raises_OutOfFuel : forall (A : Type) P, raises (@OutOfFuel A) P.
Proof. intros A P e H. discriminate H. Qed.

Lemma raises_Err : forall (A : Type) (e : PgError) (P : PgError -> Prop),
  P e -> raises (@Err A e) P.
Proof. intros A e P HP e' H. inversion H. subst. exact HP. Qed.

Lemma raises_bind : forall (A B : Type) (r : result A) (k : A -> result B) P,
  raises r P -> (forall a, raises (k a) P) -> raises (bind r k) P.
Proof.
  intros A B r k P Hr Hk e H. apply bind_Err in H.
  destruct H as [H | [a [_ H]]]; [exact (Hr e H) | exact (Hk a e H)].
Qed.

Ltac raises_step :=
  match goal with
  | |- raises (OK _) _ => apply raises_OK
  | |- raises OutOfFuel _ => apply raises_OutOfFuel
  | |- raises (Err _) _ => apply raises_Err
  | |- raises (bind _ _) _ => apply raises_bind; [| intros]
  | |- raises (let '(_, _) := ?p in _) _ => destruct p
  | |- raises (if ?c then _ else _) _ => destruct c
  | |- raises (match ?x with _ => _ end) _ => destruct x
  end.

Lemma load_byte_raises : forall mem addr, raises (load_byte mem addr) cursor_error.
Proof.
  intros mem addr. unfold load_byte. repeat raises_step; left; reflexivity.
Qed.

Lemma load_uint32_raises : forall mem addr,
  raises (load_uint32 mem addr) cursor_error.
Proof.
  intros mem addr. unfold load_uint32.
  repeat (apply raises_bind; [apply load_byte_raises | intros]).
  apply raises_OK.
Qed.

Lemma cstring_raises : forall bytes, raises (cstring bytes) cursor_error.
Proof.
  induction bytes as [| b rest IH]; simpl.
  - apply raises_Err. left. reflexivity.
  - destruct (b =? 0); [apply raises_OK |].
    apply raises_bind; [exact IH | intros; apply raises_OK].
Qed.

Lemma load_cstring_raises : forall mem addr,
  raises (load_cstring mem addr) cursor_error.
Proof.
  intros mem addr. unfold load_cstring. destruct (addr <? 0).
  - apply raises_Err. left. reflexivity.
  - apply cstring_raises.
Qed.

Lemma read_int32_raises : forall mem b p, raises (read_int32 mem b p) cursor_error.
Proof.
  intros mem b p. unfold read_int32.
  apply raises_bind; [apply load_uint32_raises | intros; apply raises_OK].
Qed.

Lemma init_content_raises : forall mem t b p,
  raises (init_content mem t b p) cursor_error.
Proof.
  intros mem t b p. unfold init_content, read_int32_n.
  destruct t;
    repeat first
      [ apply raises_OK
      | apply raises_Err; right; reflexivity
      | apply raises_bind; [apply read_int32_raises | intros [? ?]] ].
Qed.

Lemma jspInitByBuffer_raises : forall mem b p,
  raises (jspInitByBuffer mem b p) cursor_error.
Proof.
  intros mem b p. unfold jspInitByBuffer, read_byte.
  apply raises_bind.
  - apply raises_bind; [apply load_byte_raises | intros; apply raises_OK].
  - intros [tag p1]. apply raises_bind; [apply read_int32_raises |].
    intros [nxt p2]. destruct (type_of_code tag).
    + apply raises_bind; [apply init_content_raises | intros; apply raises_OK].
    + apply raises_Err. right. reflexivity.
Qed.

Lemma jspGetNext_raises : forall mem v, raises (jspGetNext mem v) cursor_error.
Proof.
  intros mem v. unfold jspGetNext. destruct (jspHasNext v).
  - apply raises_bind; [apply jspInitByBuffer_raises | intros; apply raises_OK].
  - apply raises_OK.
Qed.

Lemma jspGetString_raises : forall mem v, raises (jspGetString mem v) cursor_error.
Proof.
  intros mem v. unfold jspGetString.
  apply raises_bind; [apply load_cstring_raises | intros; apply raises_OK].
Qed.

Lemma jspGetArraySubscript_raises : forall mem v i,
  raises (jspGetArraySubscript mem v i) cursor_error.
Proof.
  intros mem v i. unfold jspGetArraySubscript.
  apply raises_bind; [apply load_uint32_raises | intros].
  apply raises_bind; [apply jspInitByBuffer_raises | intros].
  apply raises_bind; [apply load_uint32_raises | intros].
  destruct (to_int32 a1 =? 0); [apply raises_OK |].
  apply raises_bind; [apply jspInitByBuffer_raises | intros; apply raises_OK].
Qed.

(* ------------------------------------------------------------------ *)
(** ** The version prefix of the binary input *)

Section InputFacts.

Variable parsejsonpath : string -> result (option JsonPathParseResult).
Variable pg_client_to_server : list Z -> string.

Lemma load_byte_nth : forall mem addr v,
  0 <= addr -> nth_error mem (Z.to_nat addr) = Some v ->
  load_byte mem addr = OK v.
Proof.
  intros mem addr v Hpos Hnth. unfold load_byte.
  destruct (addr <? 0) eqn:E; [apply Z.ltb_lt in E; lia |].
  rewrite Hnth. reflexivity.
Qed.

Lemma nth_error_len : forall (mem : list Z) n v,
  nth_error mem n = Some v -> Z.of_nat n < len mem.
Proof.
  intros mem n v H. unfold len.
  assert (n < List.length mem)%nat by (apply nth_error_Some; congruence).
  lia.
Qed.

(** C9.  [jsonpath_recv] reads the one-byte version at the cursor.  Without
    a byte it fails with the error of the message reader.  With a version
    other than [JSONPATH_VERSION] it fails with the unsupported-version error,
    whatever the parser, the text conversion and the bytes of the body are:
    nothing of the body is looked at.  With the supported version the bytes
    that follow, converted to text, go to [jsonPathFromCstring]. *)
Theorem jsonpath_recv_version_prefix :
  forall (stack : nat) (buf : PqMessage) (version : Z),
    0 <= cursor buf ->
    nth_error (msg buf) (Z.to_nat (cursor buf)) = Some version ->
    (version <> JSONPATH_VERSION ->
     jsonpath_recv parsejsonpath pg_client_to_server stack buf
     = Err (ErrUnsupportedVersion version))
    /\ (version = JSONPATH_VERSION ->
        jsonpath_recv parsejsonpath pg_client_to_server stack buf
        = jsonPathFromCstring parsejsonpath stack
            (pg_client_to_server
               (skipn (Z.to_nat (cursor buf) + 1) (msg buf)))).
Proof.
  intros stack buf version Hcur Hnth.
  pose proof (nth_error_len _ _ _ Hnth) as Hlen.
  assert (Hread : pq_getmsgint1 buf
                  = OK (version, {| msg := msg buf; cursor := cursor buf + 1 |})).
  { unfold pq_getmsgint1.
    destruct (cursor buf <? 0) eqn:E1; [apply Z.ltb_lt in E1; lia |].
    destruct (len (msg buf) - cursor buf <? 1) eqn:E2;
      [apply Z.ltb_lt in E2; lia |].
    simpl. rewrite (load_byte_nth _ _ _ Hcur Hnth). reflexivity. }
  split; intro Hv; unfold jsonpath_recv; rewrite Hread; simpl.
  - destruct (version =? JSONPATH_VERSION) eqn:E;
      [apply Z.eqb_eq in E; contradiction | reflexivity].
  - subst version. rewrite Z.eqb_refl. unfold pq_getmsgtext. simpl.
    destruct (len (msg buf) - (cursor buf + 1) <? 0) eqn:E1;
      [apply Z.ltb_lt in E1; lia |].
    rewrite Z.ltb_irrefl. simpl.
    replace (Z.to_nat (cursor buf + 1)) with (Z.to_nat (cursor buf) + 1)%nat
      by lia.
    rewrite firstn_all2; [reflexivity |].
    rewrite length_skipn. unfold len in *. lia.
Qed.

(** Without a byte at the cursor the message reader fails and nothing is
    parsed. *)
Lemma jsonpath_recv_empty : forall stack buf,
  0 <= cursor buf -> len (msg buf) <= cursor buf ->
  jsonpath_recv parsejsonpath pg_client_to_server stack buf
  = Err ErrInsufficientData.
Proof.
  intros stack buf H0 H1. unfold jsonpath_recv, pq_getmsgint1.
  destruct (cursor buf <? 0) eqn:E1; [apply Z.ltb_lt in E1; lia |].
  destruct (len (msg buf) - cursor buf <? 1) eqn:E2; [reflexivity |].
  apply Z.ltb_ge in E2. lia.
Qed.

End InputFacts.

(* ------------------------------------------------------------------ *)
(** ** The mutability analysis *)

Ltac inv_bind :=
  repeat match goal with
  | H : bind ?r ?k = OK ?b |- _ =>
      let a := fresh "a" in
      let Ha := fresh "Ha" in
      apply bind_OK in H; destruct H as [a [Ha H]]
  | H : (let '(_, _) := ?p in _) = OK _ |- _ => destruct p
  | H : OK _ = OK _ |- _ => inversion H; subst; clear H
  | H : Err _ = OK _ |- _ => discriminate H
  | H : OutOfFuel = OK _ |- _ => discriminate H
  | H : (if ?c then _ else _) = OK _ |- _ => destruct c eqn:?
  | H : match ?x with _ => _ end = OK _ |- _ => destruct x eqn:?
  end.

Lemma same_settings_refl : forall c, same_settings c c.
Proof. intro c. repeat split. Qed.

Lemma same_settings_trans : forall a b c,
  same_settings a b -> same_settings b c -> same_settings a c.
Proof.
  unfold same_settings. intros a b c (H1 & H2 & H3 & H4) (K1 & K2 & K3 & K4).
  repeat split; congruence.
Qed.

Lemma same_settings_set_mutable : forall c m, same_settings c (set_mutable c m).
Proof. intros c m. repeat split. Qed.

Lemma set_mutable_same : forall c, set_mutable c (mutable c) = c.
Proof. intros [n e c l m]. reflexivity. Qed.

Create HintDb settings.
#[local] Hint Resolve same_settings_refl same_settings_trans
  same_settings_set_mutable : settings.

(** The loop over the subscripts walks their bounds one after the other. *)
Lemma walk_subscripts_each : forall rec mem jpi subs i,
  map (fun k => jspGetArraySubscript mem jpi (Z.of_nat k))
    (seq i (List.length subs)) = map OK subs ->
  forall cxt,
    walk_subscripts rec mem jpi (List.length subs) (Z.of_nat i) cxt
    = walk_each rec (subscript_bounds subs) cxt.
Proof.
  intros rec mem jpi subs. induction subs as [| [from to] rest IH];
    intros i H cxt.
  - reflexivity.
  - simpl in H. inversion H as [[Hhead Hrest]]. clear H.
    simpl walk_subscripts. rewrite Hhead. cbn [bind].
    replace (Z.of_nat i + 1) with (Z.of_nat (S i)) by lia.
    destruct to as [t |]; simpl.
    + destruct (rec t cxt) as [[s c] | e |]; simpl; [| reflexivity ..].
      destruct (rec from c) as [[s' c'] | e |]; simpl; [| reflexivity ..].
      exact (IH (S i) Hrest _).
    + destruct (rec from cxt) as [[s' c'] | e |]; simpl; [| reflexivity ..].
      exact (IH (S i) Hrest _).
Qed.

Section MutabilityFacts.

Variable datetime_format_flags : string -> option Z.

Local Abbreviation walk := (jspIsMutableWalker datetime_format_flags).
Local Abbreviation walk_loop := (jspIsMutableWalker_loop datetime_format_flags).
Local Abbreviation switch := (walker_switch datetime_format_flags).

Lemma walk_subscripts_settings : forall rec mem jpi,
  keeps_settings rec ->
  forall n i cxt cxt',
    walk_subscripts rec mem jpi n i cxt = OK cxt' -> same_settings cxt cxt'.
Proof.
  intros rec mem jpi Hrec. induction n as [| n IH]; intros i cxt cxt' H.
  - simpl in H. inv_bind. auto with settings.
  - simpl in H. inv_bind;
      repeat match goal with
             | K : rec _ _ = OK _ |- _ => apply Hrec in K
             | K : walk_subscripts _ _ _ _ _ _ = OK _ |- _ => apply IH in K
             end;
      eauto with settings.
Qed.

Lemma walker_switch_settings : forall rec mem jpi status cxt s' cxt',
  keeps_settings rec ->
  switch rec mem jpi status cxt = OK (s', cxt') -> same_settings cxt cxt'.
Proof.
  intros rec mem jpi status cxt s' cxt' Hrec H.
  unfold walker_switch in H.
  destruct (type jpi); inv_bind;
    repeat match goal with
           | K : rec _ _ = OK _ |- _ => apply Hrec in K
           | K : walk_subscripts _ _ _ _ _ _ = OK _ |- _ =>
               apply (walk_subscripts_settings _ _ _ Hrec) in K
           end;
    eauto with settings.
  (* the filter: [current] is set for the predicate and restored *)
  destruct Ha0 as (K1 & K2 & K3 & K4). simpl in *.
  repeat split; simpl; congruence.
Qed.

Lemma walk_loop_settings : forall fuel mem jpi status cxt s' cxt',
  walk_loop fuel mem jpi status cxt = OK (s', cxt') -> same_settings cxt cxt'.
Proof.
  induction fuel as [| fuel IH]; intros mem jpi status cxt s' cxt' H.
  - discriminate H.
  - simpl in H. destruct (mutable cxt) eqn:Hm.
    + inv_bind. auto with settings.
    + apply bind_OK in H. destruct H as [[s1 c1] [Hsw H]].
      apply walker_switch_settings in Hsw;
        [| intros a c s c' K; exact (IH _ _ _ _ _ _ K)].
      apply bind_OK in H. destruct H as [nxt [Hn H]].
      destruct nxt as [next |].
      * apply IH in H. eauto with settings.
      * inv_bind. assumption.
Qed.

Lemma walk_keeps_settings : forall fuel mem, keeps_settings (walk fuel mem).
Proof.
  intros fuel mem a c s c' H. exact (walk_loop_settings _ _ _ _ _ _ _ H).
Qed.

(** One turn of the loop of the walker. *)
Lemma walk_loop_step : forall fuel mem jpi status cxt,
  mutable cxt = false ->
  walk_loop (S fuel) mem jpi status cxt =
  ('(status', cxt') <- switch (walk fuel mem) mem jpi status cxt ;;
   nxt <- jspGetNext mem jpi ;;
   match nxt with
   | None => OK (status', cxt')
   | Some next => walk_loop fuel mem next status' cxt'
   end).
Proof.
  intros fuel mem jpi status cxt Hm. simpl. rewrite Hm. reflexivity.
Qed.

Lemma cursor_walker_error : forall (A : Type) (r : result A),
  raises r cursor_error -> raises r walker_error.
Proof. intros A r H e He. left. exact (H e He). Qed.

Lemma walk_subscripts_raises : forall rec mem jpi,
  (forall a c, raises (rec a c) walker_error) ->
  forall n i cxt, raises (walk_subscripts rec mem jpi n i cxt) walker_error.
Proof.
  intros rec mem jpi Hrec. induction n as [| n IH]; intros i cxt; simpl.
  - apply raises_OK.
  - apply raises_bind;
      [apply cursor_walker_error, jspGetArraySubscript_raises |].
    intros [from [to |]].
    + apply raises_bind.
      * apply raises_bind; [apply Hrec | intros [? ?]; apply raises_OK].
      * intros c. apply raises_bind; [apply Hrec | intros [? ?]; apply IH].
    + apply raises_bind; [apply raises_OK |].
      intros c. apply raises_bind; [apply Hrec | intros [? ?]; apply IH].
Qed.

Lemma datetime_status_raises : forall mem jpi,
  raises (datetime_status datetime_format_flags mem jpi) walker_error.
Proof.
  intros mem jpi. unfold datetime_status, jspGetArg.
  destruct (content_arg jpi =? 0); [apply raises_OK |].
  apply raises_bind;
    [apply cursor_walker_error, jspInitByBuffer_raises | intros arg].
  destruct (type arg); try apply raises_OK.
  apply raises_bind;
    [apply cursor_walker_error, jspGetString_raises | intros [t l]].
  destruct (datetime_format_flags t).
  - destruct (Z.land z DCH_ZONED =? 0); apply raises_OK.
  - apply raises_Err. right. reflexivity.
Qed.

Lemma walker_switch_raises : forall rec mem jpi status cxt,
  (forall a c, raises (rec a c) walker_error) ->
  raises (switch rec mem jpi status cxt) walker_error.
Proof.
  intros rec mem jpi status cxt Hrec.
  unfold walker_switch, jspGetArg, jspGetLeftArg, jspGetRightArg.
  destruct (type jpi);
    repeat first
      [ apply raises_OK
      | apply Hrec
      | apply datetime_status_raises
      | apply walk_subscripts_raises; exact Hrec
      | apply cursor_walker_error, jspInitByBuffer_raises
      | apply cursor_walker_error, jspGetString_raises
      | apply raises_bind; [| first [intros [? ?] | intros ?]]
      | match goal with
        | |- raises (if ?c then _ else _) _ => destruct c
        end ].
Qed.

Lemma walk_loop_raises : forall fuel mem jpi status cxt,
  raises (walk_loop fuel mem jpi status cxt) walker_error.
Proof.
  induction fuel as [| fuel IH]; intros mem jpi status cxt; simpl.
  - apply raises_OutOfFuel.
  - destruct (mutable cxt); [apply raises_OK |].
    apply raises_bind.
    + apply walker_switch_raises. intros a c. apply IH.
    + intros [s c]. apply raises_bind;
        [apply cursor_walker_error, jspGetNext_raises |].
      intros [next |]; [apply IH | apply raises_OK].
Qed.

(** More fuel does not change the answer of a walk. *)
Lemma walk_subscripts_grows : forall rec rec' mem jpi,
  grows rec rec' ->
  forall n i cxt r,
    walk_subscripts rec mem jpi n i cxt = OK r ->
    walk_subscripts rec' mem jpi n i cxt = OK r.
Proof.
  intros rec rec' mem jpi Hrec. induction n as [| n IH]; intros i cxt r H.
  - exact H.
  - simpl in H |- *. inv_bind;
      match goal with
      | K : walk_subscripts _ _ _ _ _ _ = OK _ |- _ => apply IH in K
      end;
      repeat match goal with
             | K : rec _ _ = OK _ |- _ => apply Hrec in K
             end;
      repeat match goal with
             | K : ?x = _ |- context [?x] => rewrite K; simpl
             end;
      reflexivity.
Qed.

Lemma walker_switch_grows : forall rec rec' mem jpi status cxt r,
  grows rec rec' ->
  switch rec mem jpi status cxt = OK r ->
  switch rec' mem jpi status cxt = OK r.
Proof.
  intros rec rec' mem jpi status cxt r Hrec H.
  unfold walker_switch in H |- *.
  destruct (type jpi); try exact H; inv_bind;
    repeat match goal with
           | K : walk_subscripts _ _ _ _ _ _ = OK _ |- _ =>
               apply (walk_subscripts_grows _ _ _ _ Hrec) in K
           | K : rec _ _ = OK _ |- _ => apply Hrec in K
           end;
    repeat match goal with
           | K : ?x = _ |- context [?x] => rewrite K; simpl
           end;
    reflexivity.
Qed.

Lemma walk_loop_grows : forall fuel mem jpi status cxt r,
  walk_loop fuel mem jpi status cxt = OK r ->
  walk_loop (S fuel) mem jpi status cxt = OK r.
Proof.
  induction fuel as [| fuel IH]; intros mem jpi status cxt r H.
  - discriminate H.
  - destruct (mutable cxt) eqn:Hm.
    + simpl in H |- *. rewrite Hm in H |- *. exact H.
    + rewrite walk_loop_step in H |- * by exact Hm.
      apply bind_OK in H. destruct H as [[s c] [Hsw H]].
      apply (walker_switch_grows _ (walk (S fuel) mem)) in Hsw;
        [| intros a c0 r0 K; exact (IH _ _ _ _ _ K)].
      rewrite Hsw. simpl.
      apply bind_OK in H. destruct H as [nxt [Hn H]]. rewrite Hn. simpl.
      destruct nxt as [next |]; [exact (IH _ _ _ _ _ H) | exact H].
Qed.

Lemma walk_loop_more_fuel : forall k fuel mem jpi status cxt r,
  walk_loop fuel mem jpi status cxt = OK r ->
  walk_loop (k + fuel) mem jpi status cxt = OK r.
Proof.
  induction k as [| k IH]; intros fuel mem jpi status cxt r H.
  - exact H.
  - simpl plus. apply walk_loop_grows. apply IH. exact H.
Qed.

(** C2 (as amended).  At a comparison item the walker takes the status of
    each operand from a walk of its own, which starts from not-a-datetime,
    and then sets the [mutable] flag exactly when both sides have a datetime
    status and either they disagree in zoned-ness or one of them is the
    unknown kind, whatever datetime status the other side has (the unknown
    kind included).  A flag set by an operand walk stays set. *)
Theorem comparison_sets_mutable :
  forall fuel mem jpi status cxt,
    is_comparison (type jpi) = true ->
    mutable cxt = false ->
    walk_loop (S fuel) mem jpi status cxt =
    (l <- jspGetLeftArg mem jpi ;;
     '(leftStatus, c1) <- walk fuel mem l cxt ;;
     r <- jspGetRightArg mem jpi ;;
     '(rightStatus, c2) <- walk fuel mem r c1 ;;
     let c3 := set_mutable c2
                 (mutable c2
                  || amended_comparison_is_mutable leftStatus rightStatus) in
     nxt <- jspGetNext mem jpi ;;
     match nxt with
     | None => OK (status, c3)
     | Some next => walk_loop fuel mem next status c3
     end).
Proof.
  intros fuel mem jpi status cxt Hcmp Hm.
  rewrite (walk_loop_step _ _ _ _ _ Hm). unfold walker_switch.
  assert (Hcond : forall a b c,
            (if comparison_is_mutable a b
             then OK (status, set_mutable c true) else OK (status, c))
            = OK (status,
                  set_mutable c (mutable c || amended_comparison_is_mutable a b))).
  { intros a b c.
    replace (amended_comparison_is_mutable a b) with (comparison_is_mutable a b)
      by (destruct a, b; reflexivity).
    destruct (comparison_is_mutable a b).
    - rewrite orb_true_r. reflexivity.
    - rewrite orb_false_r, set_mutable_same. reflexivity. }
  destruct (type jpi); try discriminate Hcmp;
    (destruct (jspGetLeftArg mem jpi) as [l | e |]; simpl; [| reflexivity ..];
     destruct (walk fuel mem l cxt) as [[ls c1] | e |]; simpl;
       [| reflexivity ..];
     destruct (jspGetRightArg mem jpi) as [r | e |]; simpl; [| reflexivity ..];
     destruct (walk fuel mem r c1) as [[rs c2] | e |]; simpl;
       [| reflexivity ..];
     rewrite Hcond; reflexivity).
Qed.

(** C10.  At an indexed subscript step the walker first walks the bound
    expressions of every subscript, each in a walk of its own (of a range the
    upper bound, then the lower one), and hands the context from one walk to
    the next; the status it then leaves for the subject is not-a-datetime in
    strict mode and the status it found in lax mode, which is what it leaves
    at a wildcard-array step. *)
Theorem index_array_resets_status_in_strict_mode :
  forall fuel mem jpi status cxt subs,
    type jpi = jpiIndexArray ->
    mutable cxt = false ->
    array_subscripts mem jpi = map OK subs ->
    let after := if lax cxt then status else jpdsNonDateTime in
    walk_loop (S fuel) mem jpi status cxt =
    (cxt' <- walk_each (walk fuel mem) (subscript_bounds subs) cxt ;;
     nxt <- jspGetNext mem jpi ;;
     match nxt with
     | None => OK (after, cxt')
     | Some next => walk_loop fuel mem next after cxt'
     end)
    /\ forall any, type any = jpiAnyArray ->
         switch (walk fuel mem) mem any status cxt = OK (after, cxt).
Proof.
  intros fuel mem jpi status cxt subs Ht Hm Hsubs after. split.
  - assert (Hn : Z.to_nat (content_array_nelems jpi) = List.length subs).
    { apply (f_equal (@List.length _)) in Hsubs.
      unfold array_subscripts in Hsubs.
      rewrite !length_map, length_seq in Hsubs. exact Hsubs. }
    unfold array_subscripts in Hsubs. rewrite Hn in Hsubs.
    rewrite <- (walk_subscripts_each (walk fuel mem) mem jpi subs 0 Hsubs cxt).
    rewrite (walk_loop_step _ _ _ _ _ Hm). unfold walker_switch.
    rewrite Ht, Hn.
    rewrite bind_assoc. apply bind_ext. intros c Hc. simpl.
    apply walk_subscripts_settings in Hc; [| apply walk_keeps_settings].
    destruct Hc as (_ & _ & _ & Hlax). rewrite Hlax. subst after.
    destruct (lax cxt); reflexivity.
  - intros any Hany. unfold walker_switch. rewrite Hany. subst after.
    destruct (lax cxt); reflexivity.
Qed.

End MutabilityFacts.

(** The two readings of "disagree in zoned-ness" (a zoned side against a
    non-zoned one, or any two different datetime statuses) give the same test,
    and the test of the specification differs from that of the code at one
    pair only: unknown against unknown. *)
Lemma spec_comparison_alternative : forall l r,
  spec_comparison_is_mutable l r
  = (has_datetime_status l && has_datetime_status r
     && negb (JsonPathDatatypeStatus_eqb l r) && (is_concrete l || is_concrete r)).
Proof. intros l r. destruct l, r; reflexivity. Qed.

Lemma comparison_is_mutable_amended : forall l r,
  comparison_is_mutable l r = amended_comparison_is_mutable l r.
Proof. intros l r. destruct l, r; reflexivity. Qed.

Lemma amended_vs_spec : forall l r,
  amended_comparison_is_mutable l r
  = spec_comparison_is_mutable l r || (is_unknown l && is_unknown r).
Proof. intros l r. destruct l, r; reflexivity. Qed.

(** C2, counterexample.  In [$.datetime() == $.datetime()] both operands have
    the unknown-datetime-kind status: neither is paired with a concrete
    status and they do not disagree, so the stated condition is false; the
    walker flags the path as mutable. *)
Lemma comparison_of_two_unknown_kinds :
  spec_comparison_is_mutable jpdsUnknownDateTime jpdsUnknownDateTime = false
  /\ (forall dff,
        let mem := mem_datetime_eq_datetime in
        let cxt := initial_context [] [] true in
        (l <- jspGetLeftArg mem (item_of (jspInitByBuffer mem 0 0)) ;;
         jspIsMutableWalker dff 16 mem l cxt) = OK (jpdsUnknownDateTime, cxt)
        /\ (r <- jspGetRightArg mem (item_of (jspInitByBuffer mem 0 0)) ;;
            jspIsMutableWalker dff 16 mem r cxt) = OK (jpdsUnknownDateTime, cxt)
        /\ (js <- encode_parse_result 16 path_datetime_eq_datetime ;;
            jspIsMutable dff 16 js [] []) = OK true).
Proof.
  split; [reflexivity |]. intros dff. repeat split; vm_compute; reflexivity.
Qed.

Lemma comparison_sets_mutable_witness :
  is_comparison
    (type (item_of (jspInitByBuffer mem_datetime_eq_datetime 0 0))) = true
  /\ mutable (initial_context [] [] true) = false
  /\ jspIsMutableWalker_loop sample_format_flags 16 mem_datetime_eq_datetime
       (item_of (jspInitByBuffer mem_datetime_eq_datetime 0 0))
       jpdsNonDateTime (initial_context [] [] true)
     = OK (jpdsNonDateTime, set_mutable (initial_context [] [] true) true).
Proof.
  split; [reflexivity |]. split; [reflexivity |].
  rewrite (comparison_sets_mutable sample_format_flags 15
             mem_datetime_eq_datetime
             (item_of (jspInitByBuffer mem_datetime_eq_datetime 0 0))
             jpdsNonDateTime (initial_context [] [] true)
             eq_refl eq_refl).
  vm_compute. reflexivity.
Defined.

(** In strict mode [$x[2]] loses the zoned status of [$x], so comparing it
    with [$.datetime()] is not flagged; in lax mode it keeps it and the
    comparison is flagged. *)
Example subscript_strict_and_lax : forall dff,
  (js <- encode_parse_result 16 (strict_path var_subscript_eq_datetime) ;;
   jspIsMutable dff 16 js ["x"%string] [timestamptz_var]) = OK false
  /\ (js <- encode_parse_result 16 (lax_path var_subscript_eq_datetime) ;;
      jspIsMutable dff 16 js ["x"%string] [timestamptz_var]) = OK true.
Proof. intro dff. split; vm_compute; reflexivity. Qed.

(** The comparison inside the lower bound of
    [$x[$.a ? (@.datetime() == $.datetime()) to 2]] flags the path, in
    both modes. *)
Example comparison_in_a_bound_is_found : forall dff,
  (js <- encode_parse_result 16 (strict_path var_subscript_range) ;;
   jspIsMutable dff 16 js ["x"%string] [timestamptz_var]) = OK true
  /\ (js <- encode_parse_result 16 (lax_path var_subscript_range) ;;
      jspIsMutable dff 16 js ["x"%string] [timestamptz_var]) = OK true.
Proof. intro dff. split; vm_compute; reflexivity. Qed.

Lemma index_array_resets_status_witness :
  type range_subscript_of_var = jpiIndexArray
  /\ mutable (initial_context ["x"%string] [timestamptz_var] false) = false
  /\ array_subscripts mem_var_subscript_range range_subscript_of_var
     = map OK range_of_var
  /\ jspIsMutableWalker_loop sample_format_flags 16 mem_var_subscript_range
       range_subscript_of_var jpdsDateTimeZoned
       (initial_context ["x"%string] [timestamptz_var] false)
     = OK (jpdsNonDateTime,
           set_mutable (initial_context ["x"%string] [timestamptz_var] false)
             true)
  /\ jspIsMutableWalker_loop sample_format_flags 16 mem_var_subscript_range
       range_subscript_of_var jpdsDateTimeZoned
       (initial_context ["x"%string] [timestamptz_var] true)
     = OK (jpdsDateTimeZoned,
           set_mutable (initial_context ["x"%string] [timestamptz_var] true)
             true).
Proof.
  split; [reflexivity |]. split; [reflexivity |].
  split; [vm_compute; reflexivity |]. split.
  - rewrite (proj1 (index_array_resets_status_in_strict_mode
                      sample_format_flags 15
                      mem_var_subscript_range range_subscript_of_var
                      jpdsDateTimeZoned
                      (initial_context ["x"%string] [timestamptz_var] false)
                      range_of_var
                      eq_refl eq_refl ltac:(vm_compute; reflexivity))).
    vm_compute. reflexivity.
  - rewrite (proj1 (index_array_resets_status_in_strict_mode
                      sample_format_flags 15
                      mem_var_subscript_range range_subscript_of_var
                      jpdsDateTimeZoned
                      (initial_context ["x"%string] [timestamptz_var] true)
                      range_of_var
                      eq_refl eq_refl ltac:(vm_compute; reflexivity))).
    vm_compute. reflexivity.
Defined.

Lemma byte_of_ascii_inj : forall a b,
  byte_of_ascii a = byte_of_ascii b -> a = b.
Proof.
  intros a b H. unfold byte_of_ascii in H. apply N2Z.inj in H.
  rewrite <- (ascii_N_embedding a), <- (ascii_N_embedding b). congruence.
Qed.

(** [strncmp] over the length of [name] is 0 exactly when the other string
    starts with [name]. *)
Lemma strncmp_prefix : forall name varname,
  (forall c, In c (list_ascii_of_string name) -> byte_of_ascii c <> 0) ->
  (strncmp varname name (String.length name) =? 0) = String.prefix name varname.
Proof.
  induction name as [| c2 r2 IH]; intros varname Hnul.
  - destruct varname; reflexivity.
  - destruct varname as [| c1 r1].
    + assert (byte_of_ascii c2 <> 0) by (apply Hnul; left; reflexivity).
      change (String.prefix (String c2 r2) EmptyString) with false.
      change (strncmp EmptyString (String c2 r2) (String.length (String c2 r2)))
        with (0 - byte_of_ascii c2).
      apply Z.eqb_neq. lia.
    + change (String.prefix (String c2 r2) (String c1 r1))
        with (if ascii_dec c2 c1 then String.prefix r2 r1 else false).
      change (strncmp (String c1 r1) (String c2 r2)
                (String.length (String c2 r2)))
        with (if byte_of_ascii c1 =? byte_of_ascii c2
              then strncmp r1 r2 (String.length r2)
              else byte_of_ascii c1 - byte_of_ascii c2).
      destruct (byte_of_ascii c1 =? byte_of_ascii c2) eqn:E.
      * apply Z.eqb_eq, byte_of_ascii_inj in E. subst c1.
        destruct (ascii_dec c2 c2) as [_ | N]; [| contradiction N; reflexivity].
        apply IH. intros c Hc. apply Hnul. right. exact Hc.
      * apply Z.eqb_neq in E.
        destruct (ascii_dec c2 c1) as [Heq | _];
          [subst c1; contradiction E; reflexivity |].
        apply Z.eqb_neq. lia.
Qed.

(** The loop of the variable case yields the status of the first declared
    entry whose name starts with the name of the variable. *)
Lemma variable_status_first_prefix : forall names exprs name status,
  (forall c, In c (list_ascii_of_string name) -> byte_of_ascii c <> 0) ->
  variable_status names exprs name (strlen name) status
  = match first_with_prefix names exprs name with
    | Some e => datetime_status_of_type (exprType e)
    | None => status
    end.
Proof.
  intros names exprs name status Hnul. revert exprs.
  induction names as [| n names IH]; intros [| e exprs]; simpl;
    try reflexivity.
  unfold strlen. rewrite Nat2Z.id, strncmp_prefix by exact Hnul.
  destruct (String.prefix name n); simpl; [reflexivity | apply IH].
Qed.

(** C7.  The walker compares the first [len] bytes of each declared name with
    the name of the variable, [len] being the length of the latter, so a
    declared name that merely starts with the name of the variable matches
    (first part).  With the names [tz] (a timestamptz) and [t] (an integer)
    declared in this order, the variable [$t] takes the status of [tz]:
    [$t == $.datetime()] is flagged as mutable, and no longer is when the two
    declarations are swapped. *)
Theorem variable_lookup_compares_a_prefix :
  (forall names exprs name status,
     (forall c, In c (list_ascii_of_string name) -> byte_of_ascii c <> 0) ->
     variable_status names exprs name (strlen name) status
     = match first_with_prefix names exprs name with
       | Some e => datetime_status_of_type (exprType e)
       | None => status
       end)
  /\ variable_status ["tz"; "t"]%string [timestamptz_var; int4_var] "t" 1
       jpdsNonDateTime = jpdsDateTimeZoned
  /\ spec_variable_status ["tz"; "t"]%string [timestamptz_var; int4_var] "t"
     = jpdsNonDateTime
  /\ forall dff,
       (js <- encode_parse_result 16 path_var_eq_datetime ;;
        jspIsMutable dff 16 js ["tz"; "t"]%string [timestamptz_var; int4_var])
       = OK true
       /\ (js <- encode_parse_result 16 path_var_eq_datetime ;;
           jspIsMutable dff 16 js ["t"; "tz"]%string [int4_var; timestamptz_var])
          = OK false.
Proof.
  split; [exact variable_status_first_prefix |].
  split; [reflexivity |]. split; [reflexivity |].
  intro dff. split; vm_compute; reflexivity.
Qed.

(* ------------------------------------------------------------------ *)
(** ** The printer *)

Lemma append_empty_r : forall s : string, String.append s EmptyString = s.
Proof.
  induction s as [| c s IH]; simpl; [reflexivity | rewrite IH; reflexivity].
Qed.

Section PrinterFacts.

Variable numeric_out : list Z -> string.

Local Abbreviation print := (printJsonPathItem numeric_out).
Local Infix "+++" := String.append (at level 60, right associativity).

(** One call of the printer: the text of the item, then that of its
    successors. *)
Lemma printJsonPathItem_step : forall stack mem v inKey printBracketes,
  print (S stack) mem v inKey printBracketes =
  (text <- print_item numeric_out (print stack mem) mem v inKey printBracketes ;;
   nxt <- jspGetNext mem v ;;
   match nxt with
   | Some elem => t <- print stack mem elem true true ;; OK (text +++ t)
   | None => OK text
   end).
Proof. reflexivity. Qed.

(** The text of a two-operand item: each operand is printed with the
    request for parentheses [priority of the operand <= priority of the
    item], and the request that the item itself receives decides whether
    its own text, the two operands around the operator, is put between
    parentheses; the successors of the item follow outside of them. *)
Lemma print_binary_item : forall stack mem v inKey printBracketes,
  is_binary (type v) = true ->
  print (S stack) mem v inKey printBracketes =
  (l <- jspGetLeftArg mem v ;;
   tl <- print stack mem l false
           (operationPriority (type l) <=? operationPriority (type v)) ;;
   name <- jspOperationName (type v) ;;
   r <- jspGetRightArg mem v ;;
   tr <- print stack mem r false
           (operationPriority (type r) <=? operationPriority (type v)) ;;
   nxt <- jspGetNext mem v ;;
   chain <- match nxt with
            | Some elem => print stack mem elem true true
            | None => OK EmptyString
            end ;;
   OK (paren printBracketes (tl +++ " " +++ name +++ " " +++ tr) +++ chain)).
Proof.
  intros stack mem v inKey pb Hbin.
  rewrite printJsonPathItem_step.
  assert (Hitem : print_item numeric_out (print stack mem) mem v inKey pb
                  = print_binary (print stack mem) mem v pb).
  { unfold print_item. destruct (type v); try discriminate Hbin; reflexivity. }
  rewrite Hitem. unfold print_binary.
  destruct (jspGetLeftArg mem v) as [l | e |]; simpl; [| reflexivity ..].
  destruct (print stack mem l false _) as [tl | e |]; simpl; [| reflexivity ..].
  destruct (jspOperationName (type v)) as [name | e |]; simpl;
    [| reflexivity ..].
  destruct (jspGetRightArg mem v) as [r | e |]; simpl; [| reflexivity ..].
  destruct (print stack mem r false _) as [tr | e |]; simpl; [| reflexivity ..].
  destruct (jspGetNext mem v) as [[elem |] | e |]; simpl; [| | reflexivity ..].
  - destruct (print stack mem elem true true); reflexivity.
  - rewrite append_empty_r. reflexivity.
Qed.

(** An item whose priority does not exceed that of a two-operand item is a
    two-operand item itself or a sequence: the kinds whose text the request
    for parentheses wraps. *)
Lemma low_priority_is_operator : forall t p,
  is_binary p = true ->
  operationPriority t <= operationPriority p ->
  is_binary t = true \/ t = jpiSequence.
Proof.
  intros t p Hp Hle.
  destruct t; simpl; auto; destruct p; simpl in *; try discriminate Hp; lia.
Qed.

(** The successors of an item are printed after the text of the item. *)
Lemma print_then_chain : forall stack mem v inKey printBracketes item_text,
  (forall k : string -> result string,
     (text <- print_item numeric_out (print stack mem) mem v inKey
                printBracketes ;; k text)
     = item_text k) ->
  print (S stack) mem v inKey printBracketes =
  item_text (fun text =>
    nxt <- jspGetNext mem v ;;
    chain <- match nxt with
             | Some elem => print stack mem elem true true
             | None => OK EmptyString
             end ;;
    OK (text +++ chain)).
Proof.
  intros stack mem v inKey pb item_text H.
  rewrite printJsonPathItem_step, <- H.
  apply bind_ext. intros text _.
  destruct (jspGetNext mem v) as [[elem |] | e |]; simpl; [| | reflexivity ..].
  - destruct (print stack mem elem true true); reflexivity.
  - rewrite append_empty_r. reflexivity.
Qed.

(** The text of a unary sign: the sign and the operand, between parentheses
    on request. *)
Lemma print_sign_item : forall stack mem v inKey printBracketes,
  type v = jpiPlus \/ type v = jpiMinus ->
  print (S stack) mem v inKey printBracketes =
  (elem <- jspGetArg mem v ;;
   t <- print stack mem elem false
          (operationPriority (type elem) <=? operationPriority (type v)) ;;
   nxt <- jspGetNext mem v ;;
   chain <- match nxt with
            | Some next => print stack mem next true true
            | None => OK EmptyString
            end ;;
   OK (paren printBracketes
         ((match type v with jpiPlus => "+" | _ => "-" end) +++ t)
       +++ chain)).
Proof.
  intros stack mem v inKey pb Hsign.
  rewrite (print_then_chain stack mem v inKey pb
             (fun k =>
                elem <- jspGetArg mem v ;;
                t <- print stack mem elem false
                       (operationPriority (type elem)
                        <=? operationPriority (type v)) ;;
                k (paren pb
                     ((match type v with jpiPlus => "+" | _ => "-" end)
                      +++ t)))).
  - reflexivity.
  - intro k. unfold print_item.
    destruct Hsign as [Ht | Ht]; rewrite Ht; rewrite !bind_assoc;
      apply bind_ext; intros elem _; rewrite bind_assoc; reflexivity.
Qed.

(** The text of [like_regex]: the operand, the pattern and the flags, between
    parentheses on request. *)
Lemma print_like_regex_item : forall stack mem v inKey printBracketes,
  type v = jpiLikeRegex ->
  print (S stack) mem v inKey printBracketes =
  (elem <- jspInitByBuffer mem (base v) (content_like_regex_expr v) ;;
   t <- print stack mem elem false
          (operationPriority (type elem) <=? operationPriority (type v)) ;;
   pattern <- load_cstring mem (content_like_regex_pattern v) ;;
   nxt <- jspGetNext mem v ;;
   chain <- match nxt with
            | Some next => print stack mem next true true
            | None => OK EmptyString
            end ;;
   OK (paren printBracketes
         (t +++ " like_regex " +++ escape_json pattern
            +++ regex_flags_text (content_like_regex_flags v))
       +++ chain)).
Proof.
  intros stack mem v inKey pb Ht.
  rewrite (print_then_chain stack mem v inKey pb
             (fun k =>
                elem <- jspInitByBuffer mem (base v)
                          (content_like_regex_expr v) ;;
                t <- print stack mem elem false
                       (operationPriority (type elem)
                        <=? operationPriority (type v)) ;;
                pattern <- load_cstring mem (content_like_regex_pattern v) ;;
                k (paren pb
                     (t +++ " like_regex " +++ escape_json pattern
                        +++ regex_flags_text (content_like_regex_flags v))))).
  - reflexivity.
  - intro k. unfold print_item. rewrite Ht, !bind_assoc.
    apply bind_ext; intros elem _. rewrite bind_assoc.
    apply bind_ext; intros t _. rewrite bind_assoc. reflexivity.
Qed.

(** The text of a sequence: its elements, between parentheses on request and
    whenever a successor follows. *)
Lemma print_sequence_item : forall stack mem v inKey printBracketes,
  type v = jpiSequence ->
  print (S stack) mem v inKey printBracketes =
  (t <- print_elements (print stack mem) mem v
          (Z.to_nat (content_sequence_nelems v)) 0 ;;
   nxt <- jspGetNext mem v ;;
   chain <- match nxt with
            | Some next => print stack mem next true true
            | None => OK EmptyString
            end ;;
   OK (paren (printBracketes || jspHasNext v) t +++ chain)).
Proof.
  intros stack mem v inKey pb Ht.
  rewrite (print_then_chain stack mem v inKey pb
             (fun k =>
                t <- print_elements (print stack mem) mem v
                       (Z.to_nat (content_sequence_nelems v)) 0 ;;
                k (paren (pb || jspHasNext v) t))).
  - reflexivity.
  - intro k. unfold print_item. rewrite Ht, bind_assoc. reflexivity.
Qed.

(** The other kinds do not look at the request. *)
Lemma print_ignores_request : forall stack mem v inKey,
  takes_parentheses (type v) = false ->
  print stack mem v inKey true = print stack mem v inKey false.
Proof.
  intros [| stack] mem v inKey Ht; [reflexivity |].
  rewrite !printJsonPathItem_step. unfold print_item.
  destruct (type v); try discriminate Ht; reflexivity.
Qed.

(** An item whose priority exceeds that of every two-operand item: all but
    the two-operand items and the sequence. *)
Lemma high_priority_gets_no_request : forall t p,
  is_binary p = true ->
  is_binary t = false -> t <> jpiSequence ->
  operationPriority p < operationPriority t.
Proof.
  intros t p Hp Ht Hs.
  destruct p; try discriminate Hp; destruct t; try discriminate Ht;
    simpl; try lia; congruence.
Qed.

Lemma bind_ret : forall (A : Type) (r : result A), (a <- r ;; OK a) = r.
Proof. intros A [a | e |]; reflexivity. Qed.

(** A request for parentheses that an item other than a sequence honours
    puts the text of the item, as it is printed without the request, between
    parentheses. *)
Lemma request_wraps_item : forall rec mem c inKey (request : bool),
  type c <> jpiSequence ->
  (request = true -> takes_parentheses (type c) = true) ->
  print_item numeric_out rec mem c inKey request
  = (body <- print_item numeric_out rec mem c inKey false ;;
     OK (paren request body)).
Proof.
  intros rec mem c inKey [|] Hseq Htakes.
  - specialize (Htakes eq_refl). unfold print_item, print_binary.
    destruct (type c); try discriminate Htakes; try congruence;
      repeat (rewrite bind_assoc; apply bind_ext; intros ? _);
      reflexivity.
  - unfold paren. rewrite bind_ret. reflexivity.
Qed.

(** The operand [c] of a two-operand item [v], when it is no sequence: its
    text is that of the item [c] as printed without a request, between
    parentheses exactly when the priority of [c] does not exceed that of [v],
    and then that of the successors of [c]. *)
Lemma print_operand_of_binary : forall stack mem v c inKey,
  is_binary (type v) = true ->
  type c <> jpiSequence ->
  print (S stack) mem c inKey
    (operationPriority (type c) <=? operationPriority (type v)) =
  (body <- print_item numeric_out (print stack mem) mem c inKey false ;;
   nxt <- jspGetNext mem c ;;
   chain <- match nxt with
            | Some next => print stack mem next true true
            | None => OK EmptyString
            end ;;
   OK (paren (operationPriority (type c) <=? operationPriority (type v)) body
       +++ chain)).
Proof.
  intros stack mem v c inKey Hv Hseq.
  rewrite (print_then_chain stack mem c inKey _
             (fun k =>
                body <- print_item numeric_out (print stack mem) mem c inKey
                          false ;;
                k (paren (operationPriority (type c)
                          <=? operationPriority (type v)) body))).
  - reflexivity.
  - intro k. rewrite request_wraps_item; [rewrite bind_assoc; reflexivity | exact Hseq |].
    intro Hreq. apply Z.leb_le in Hreq.
    destruct (low_priority_is_operator _ _ Hv Hreq) as [Hb | Hs];
      [| congruence].
    unfold takes_parentheses. rewrite Hb. reflexivity.
Qed.

(** A sequence as the operand of a two-operand item: its priority is the
    lowest, and its elements are printed between parentheses. *)
Lemma print_sequence_operand : forall stack mem v c inKey,
  is_binary (type v) = true ->
  type c = jpiSequence ->
  (operationPriority (type c) <=? operationPriority (type v)) = true
  /\ print (S stack) mem c inKey
       (operationPriority (type c) <=? operationPriority (type v)) =
     (t <- print_elements (print stack mem) mem c
             (Z.to_nat (content_sequence_nelems c)) 0 ;;
      nxt <- jspGetNext mem c ;;
      chain <- match nxt with
               | Some next => print stack mem next true true
               | None => OK EmptyString
               end ;;
      OK (("(" +++ t +++ ")") +++ chain)).
Proof.
  intros stack mem v c inKey Hv Hc.
  assert (Hreq : (operationPriority (type c) <=? operationPriority (type v))
                 = true).
  { rewrite Hc. apply Z.leb_le. destruct (type v); try discriminate Hv;
      simpl; lia. }
  split; [exact Hreq |].
  rewrite Hreq, (print_sequence_item _ _ _ _ _ Hc). reflexivity.
Qed.

(** C6.  A two-operand item prints each operand with the request for
    parentheses [priority of the operand <= priority of the item] (first
    part).  The text of an operand that is no sequence is then that of the
    operand as it is printed without the request, put between parentheses
    exactly when its priority does not exceed that of the item, with the
    successors of the operand after it (second part); the elements of a
    sequence, whose priority is the lowest, are always put between
    parentheses (third part).  What the request does to each kind of item:
    it decides on the parentheses around a unary sign with its operand,
    around [like_regex] with its operand, pattern and flags, and, unless a
    successor asks for them anyway, around the elements of a sequence; the
    other kinds do not look at it (parts four to seven).  The priorities rise
    from the sequence over [||], [&&], the comparisons and [starts with],
    [+ -], [* / %] and the unary signs to everything else, so that under a
    two-operand item only a two-operand item or a sequence gets the request.
    So [$.a + $.b * 2] is printed without parentheses around the product,
    [($.a + $.b) * 2] with parentheses around the sum, [$.a - ($.b - $.c)]
    with parentheses around the operand of equal priority, and
    [-$.a + ($.b, $.c)] without parentheses around the signed operand and
    with parentheses around the sequence. *)
Theorem operands_parenthesized_by_priority :
  (forall stack mem v inKey printBracketes,
     is_binary (type v) = true ->
     print (S stack) mem v inKey printBracketes =
     (l <- jspGetLeftArg mem v ;;
      tl <- print stack mem l false
              (operationPriority (type l) <=? operationPriority (type v)) ;;
      name <- jspOperationName (type v) ;;
      r <- jspGetRightArg mem v ;;
      tr <- print stack mem r false
              (operationPriority (type r) <=? operationPriority (type v)) ;;
      nxt <- jspGetNext mem v ;;
      chain <- match nxt with
               | Some elem => print stack mem elem true true
               | None => OK EmptyString
               end ;;
      OK (paren printBracketes (tl +++ " " +++ name +++ " " +++ tr)
          +++ chain)))
  /\ (forall stack mem v c inKey,
        is_binary (type v) = true ->
        type c <> jpiSequence ->
        print (S stack) mem c inKey
          (operationPriority (type c) <=? operationPriority (type v)) =
        (body <- print_item numeric_out (print stack mem) mem c inKey false ;;
         nxt <- jspGetNext mem c ;;
         chain <- match nxt with
                  | Some next => print stack mem next true true
                  | None => OK EmptyString
                  end ;;
         OK (paren (operationPriority (type c) <=? operationPriority (type v))
               body
             +++ chain)))
  /\ (forall stack mem v c inKey,
        is_binary (type v) = true ->
        type c = jpiSequence ->
        (operationPriority (type c) <=? operationPriority (type v)) = true
        /\ print (S stack) mem c inKey
             (operationPriority (type c) <=? operationPriority (type v)) =
           (t <- print_elements (print stack mem) mem c
                   (Z.to_nat (content_sequence_nelems c)) 0 ;;
            nxt <- jspGetNext mem c ;;
            chain <- match nxt with
                     | Some next => print stack mem next true true
                     | None => OK EmptyString
                     end ;;
            OK (("(" +++ t +++ ")") +++ chain)))
  /\ (forall stack mem v inKey printBracketes,
        type v = jpiPlus \/ type v = jpiMinus ->
        print (S stack) mem v inKey printBracketes =
        (elem <- jspGetArg mem v ;;
         t <- print stack mem elem false
                (operationPriority (type elem) <=? operationPriority (type v)) ;;
         nxt <- jspGetNext mem v ;;
         chain <- match nxt with
                  | Some next => print stack mem next true true
                  | None => OK EmptyString
                  end ;;
         OK (paren printBracketes
               ((match type v with jpiPlus => "+" | _ => "-" end) +++ t)
             +++ chain)))
  /\ (forall stack mem v inKey printBracketes,
        type v = jpiLikeRegex ->
        print (S stack) mem v inKey printBracketes =
        (elem <- jspInitByBuffer mem (base v) (content_like_regex_expr v) ;;
         t <- print stack mem elem false
                (operationPriority (type elem) <=? operationPriority (type v)) ;;
         pattern <- load_cstring mem (content_like_regex_pattern v) ;;
         nxt <- jspGetNext mem v ;;
         chain <- match nxt with
                  | Some next => print stack mem next true true
                  | None => OK EmptyString
                  end ;;
         OK (paren printBracketes
               (t +++ " like_regex " +++ escape_json pattern
                  +++ regex_flags_text (content_like_regex_flags v))
             +++ chain)))
  /\ (forall stack mem v inKey printBracketes,
        type v = jpiSequence ->
        print (S stack) mem v inKey printBracketes =
        (t <- print_elements (print stack mem) mem v
                (Z.to_nat (content_sequence_nelems v)) 0 ;;
         nxt <- jspGetNext mem v ;;
         chain <- match nxt with
                  | Some next => print stack mem next true true
                  | None => OK EmptyString
                  end ;;
         OK (paren (printBracketes || jspHasNext v) t +++ chain)))
  /\ (forall stack mem v inKey,
        takes_parentheses (type v) = false ->
        print stack mem v inKey true = print stack mem v inKey false)
  /\ (operationPriority jpiSequence < operationPriority jpiOr
      /\ operationPriority jpiOr < operationPriority jpiAnd
      /\ (forall t, is_comparison t = true \/ t = jpiStartsWith ->
            operationPriority jpiAnd < operationPriority t
            /\ operationPriority t < operationPriority jpiAdd)
      /\ operationPriority jpiAdd = operationPriority jpiSub
      /\ (forall t, t = jpiMul \/ t = jpiDiv \/ t = jpiMod ->
            operationPriority jpiAdd < operationPriority t
            /\ operationPriority t < operationPriority jpiPlus)
      /\ operationPriority jpiPlus = operationPriority jpiMinus
      /\ (forall t, is_binary t = false -> t <> jpiSequence ->
            t <> jpiPlus -> t <> jpiMinus ->
            operationPriority jpiPlus < operationPriority t))
  /\ (forall t p, is_binary p = true ->
        (operationPriority t <= operationPriority p ->
         is_binary t = true \/ t = jpiSequence)
        /\ (is_binary t = false -> t <> jpiSequence ->
            operationPriority p < operationPriority t))
  /\ (js <- encode_parse_result 16 path_sum_of_product ;;
      jsonpath_out numeric_out 16 js)
     = OK ("($." +++ quoted "a" +++ " + $." +++ quoted "b" +++ " * "
           +++ numeric_out numeric_two +++ ")")
  /\ (js <- encode_parse_result 16 path_product_of_sum ;;
      jsonpath_out numeric_out 16 js)
     = OK ("(($." +++ quoted "a" +++ " + $." +++ quoted "b" +++ ") * "
           +++ numeric_out numeric_two +++ ")")
  /\ (js <- encode_parse_result 16 path_difference_of_difference ;;
      jsonpath_out numeric_out 16 js)
     = OK ("($." +++ quoted "a" +++ " - ($." +++ quoted "b" +++ " - $."
           +++ quoted "c" +++ "))")
  /\ (js <- encode_parse_result 16 path_sign_plus_sequence ;;
      jsonpath_out numeric_out 16 js)
     = OK ("pg (-$." +++ quoted "a" +++ " + ($." +++ quoted "b" +++ ", $."
           +++ quoted "c" +++ "))").
Proof.
  split; [exact print_binary_item |].
  split; [exact print_operand_of_binary |].
  split; [exact print_sequence_operand |].
  split; [exact print_sign_item |].
  split; [exact print_like_regex_item |].
  split; [exact print_sequence_item |].
  split; [exact print_ignores_request |].
  split.
  { repeat split; simpl; try lia.
    - destruct H as [H | H]; [destruct t; try discriminate H | subst t];
        simpl; lia.
    - destruct H as [H | H]; [destruct t; try discriminate H | subst t];
        simpl; lia.
    - destruct H as [H | [H | H]]; subst t; simpl; lia.
    - destruct H as [H | [H | H]]; subst t; simpl; lia.
    - intros t Hb Hs Hp Hm.
      destruct t; simpl; try lia; try discriminate Hb; congruence. }
  split.
  { intros t p Hp. split.
    - exact (low_priority_is_operator t p Hp).
    - exact (high_priority_gets_no_request t p Hp). }
  repeat split; vm_compute; reflexivity.
Qed.

(** C8 (as amended).  The encoding of [$.a[*].type()] is a chain of four
    items linked by their [next] displacements: the root at position 0, the
    key accessor at 8, the wildcard-array accessor at 22 and the type method
    at 28.  It is printed with the key as a quoted string. *)
Theorem encoding_of_root_key_any_type :
  (js <- encode_parse_result 16 path_a_any_type ;;
   v <- jspInit js ;;
   chain_items 16 (data js) v)
  = OK [(0, jpiRoot, 8); (8, jpiKey, 14); (22, jpiAnyArray, 6);
        (28, jpiType, 0)]
  /\ (js <- encode_parse_result 16 path_a_any_type ;;
      jsonpath_out numeric_out 16 js)
     = OK ("$." +++ quoted "a" +++ "[*].type()").
Proof. split; vm_compute; reflexivity. Qed.

(** In [($.a * $.b).c + $.d] the key accessor [.c] follows the product, in
    [$.a * $.b.c + $.d] it follows [$.b]: the two have different binary
    forms, and both are printed as the same text. *)
Lemma products_print_alike :
  encode_parse_result 16 path_chained_product
  <> encode_parse_result 16 path_plain_product
  /\ (js <- encode_parse_result 16 path_chained_product ;;
      jsonpath_out numeric_out 16 js)
     = OK ("($." +++ quoted "a" +++ " * $." +++ quoted "b" +++ "."
           +++ quoted "c" +++ " + $." +++ quoted "d" +++ ")")
  /\ (js <- encode_parse_result 16 path_plain_product ;;
      jsonpath_out numeric_out 16 js)
     = OK ("($." +++ quoted "a" +++ " * $." +++ quoted "b" +++ "."
           +++ quoted "c" +++ " + $." +++ quoted "d" +++ ")").
Proof.
  split; [| split; vm_compute; reflexivity].
  vm_compute. intro H. discriminate H.
Qed.

(** Whatever the parser is: when it reads the two paths above from two
    texts, at most one of the texts round-trips. *)
Lemma no_parser_round_trips_both :
  forall (parsejsonpath : string -> result (option JsonPathParseResult))
    (text1 text2 : string),
    parsejsonpath text1 = OK (Some path_chained_product) ->
    parsejsonpath text2 = OK (Some path_plain_product) ->
    ~ (round_trips parsejsonpath numeric_out 16 text1
       /\ round_trips parsejsonpath numeric_out 16 text2).
Proof.
  intros parse text1 text2 H1 H2 [R1 R2].
  destruct products_print_alike as (Hne & P1 & P2).
  unfold round_trips, jsonPathFromCstring in R1, R2.
  rewrite H1 in R1. rewrite H2 in R2. simpl in R1, R2.
  destruct (encode_parse_result 16 path_chained_product) as [js1 | |] eqn:E1;
    [| discriminate P1 ..].
  destruct (encode_parse_result 16 path_plain_product) as [js2 | |] eqn:E2;
    [| discriminate P2 ..].
  simpl in P1, P2.
  destruct (R1 js1 eq_refl) as [p1 [Hp1 Hq1]].
  destruct (R2 js2 eq_refl) as [p2 [Hp2 Hq2]].
  rewrite P1 in Hp1. rewrite P2 in Hp2.
  inversion Hp1. inversion Hp2. subst p1 p2.
  rewrite Hq1 in Hq2. apply Hne. congruence.
Qed.

(** C1.  The product of [($.a * $.b).c + $.d] is followed by the key
    accessor [.c]; printed alone it keeps its parentheses, but as the operand
    of the sum it loses them, an operand of higher priority getting none even
    when a successor follows it.  The text printed is that of
    [$.a * $.b.c + $.d], whose binary form is different: whatever the parser
    is, the texts of the two paths do not both round-trip. *)
Theorem printer_drops_parentheses_before_successor :
  (js <- encode_parse_result 16 path_product_key ;;
   jsonpath_out numeric_out 16 js)
  = OK ("($." +++ quoted "a" +++ " * $." +++ quoted "b" +++ ")."
        +++ quoted "c")
  /\ (js <- encode_parse_result 16 path_chained_product ;;
      jsonpath_out numeric_out 16 js)
     = OK ("($." +++ quoted "a" +++ " * $." +++ quoted "b" +++ "."
           +++ quoted "c" +++ " + $." +++ quoted "d" +++ ")")
  /\ (js <- encode_parse_result 16 path_plain_product ;;
      jsonpath_out numeric_out 16 js)
     = (js <- encode_parse_result 16 path_chained_product ;;
        jsonpath_out numeric_out 16 js)
  /\ encode_parse_result 16 path_chained_product
     <> encode_parse_result 16 path_plain_product
  /\ (forall (parsejsonpath : string -> result (option JsonPathParseResult))
        (text1 text2 : string),
        parsejsonpath text1 = OK (Some path_chained_product) ->
        parsejsonpath text2 = OK (Some path_plain_product) ->
        ~ (round_trips parsejsonpath numeric_out 16 text1
           /\ round_trips parsejsonpath numeric_out 16 text2)).
Proof.
  destruct products_print_alike as (Hne & P1 & P2).
  split; [vm_compute; reflexivity |].
  split; [exact P1 |].
  split; [rewrite P1; exact P2 |].
  split; [exact Hne |].
  exact no_parser_round_trips_both.
Qed.

End PrinterFacts.

Lemma operands_parenthesized_witness :
  is_binary (type (item_of (jspInitByBuffer mem_sum_of_product 0 0))) = true
  /\ printJsonPathItem sample_numeric_out 16 mem_sum_of_product
       (item_of (jspInitByBuffer mem_sum_of_product 0 0)) false true
     = OK (String.append "($." (String.append (quoted "a")
             (String.append " + $." (String.append (quoted "b") " * 2)")))).
Proof.
  split; [reflexivity |].
  rewrite (proj1 (operands_parenthesized_by_priority sample_numeric_out) 15%nat
             mem_sum_of_product
             (item_of (jspInitByBuffer mem_sum_of_product 0 0)) false true
             eq_refl).
  vm_compute. reflexivity.
Defined.

(** C8, counterexample.  The chain of [$.a[*].type()] does not consist of the
    three accessors alone, and the text printed is not [$.a[*].type()]. *)
Lemma root_key_any_type_is_not_three_items :
  (js <- encode_parse_result 16 path_a_any_type ;;
   v <- jspInit js ;;
   chain_types 16 (data js) v) <> OK [jpiKey; jpiAnyArray; jpiType]
  /\ forall numeric_out,
       (js <- encode_parse_result 16 path_a_any_type ;;
        jsonpath_out numeric_out 16 js) <> OK "$.a[*].type()"%string.
Proof.
  split; [| intro numeric_out]; vm_compute; intro H; discriminate H.
Qed.

Lemma jsonpath_recv_version_prefix_witness :
  0 <= cursor (sample_message 2)
  /\ nth_error (msg (sample_message 2)) (Z.to_nat (cursor (sample_message 2)))
     = Some 2
  /\ jsonpath_recv sample_parse sample_client_to_server 16 (sample_message 2)
     = Err (ErrUnsupportedVersion 2)
  /\ jsonpath_recv sample_parse sample_client_to_server 16 (sample_message 1)
     = encode_parse_result 16 path_a_any_type.
Proof.
  split; [vm_compute; discriminate |]. split; [reflexivity |]. split.
  - apply (proj1 (jsonpath_recv_version_prefix sample_parse
                    sample_client_to_server 16 (sample_message 2) 2
                    ltac:(vm_compute; discriminate) eq_refl)).
    vm_compute. discriminate.
  - rewrite (proj2 (jsonpath_recv_version_prefix sample_parse
                      sample_client_to_server 16 (sample_message 1) 1
                      ltac:(vm_compute; discriminate) eq_refl) eq_refl).
    reflexivity.
Defined.

(* ------------------------------------------------------------------ *)
(** ** The bound on the depth of the recursion *)

Lemma encoding_of_negations :
  encode_parse_result 4 (lax_path (negations 3)) = OK path_negations.
Proof. vm_compute. reflexivity. Qed.

(** C5.  The encoder and the printer test the stack on entry: with no frame
    left they fail with the stack-depth error, whose code is not that of an
    input error.  The walker has no such test: it never raises the stack-depth
    error.  The path [!(!(!(true)))] takes four frames: with three frames
    the encoder and the printer refuse it, the walker goes through it however
    far the model is unrolled. *)
Theorem walker_lacks_the_depth_check :
  (forall ext buf item nl ias,
     flattenJsonPathParseItem 0 ext buf item nl ias = Err ErrStackDepth)
  /\ (forall numeric_out mem v inKey printBracketes,
        printJsonPathItem numeric_out 0 mem v inKey printBracketes
        = Err ErrStackDepth)
  /\ errcode ErrStackDepth = ERRCODE_STATEMENT_TOO_COMPLEX
  /\ (forall dff fuel mem jpi cxt,
        jspIsMutableWalker dff fuel mem jpi cxt <> Err ErrStackDepth)
  /\ encode_parse_result 3 (lax_path (negations 3)) = Err ErrStackDepth
  /\ (forall numeric_out,
        jsonpath_out numeric_out 3 path_negations = Err ErrStackDepth)
  /\ (forall numeric_out,
        jsonpath_out numeric_out 4 path_negations
        = OK "!(!(!(true)))"%string)
  /\ (forall dff fuel, (4 <= fuel)%nat ->
        jspIsMutable dff fuel path_negations [] [] = OK false).
Proof.
  split; [reflexivity |]. split; [reflexivity |]. split; [reflexivity |].
  split.
  { intros dff fuel mem jpi cxt H.
    destruct (walk_loop_raises dff fuel mem jpi jpdsNonDateTime cxt _ H)
      as [[K | K] | K]; discriminate K. }
  split; [vm_compute; reflexivity |].
  split; [intro; vm_compute; reflexivity |].
  split; [intro; vm_compute; reflexivity |].
  intros dff fuel Hfuel.
  replace fuel with ((fuel - 4) + 4)%nat by lia.
  unfold jspIsMutable, jspIsMutableWalker.
  assert (Hinit : jspInit path_negations
                  = OK (item_of (jspInit path_negations)))
    by (vm_compute; reflexivity).
  rewrite Hinit. simpl bind.
  rewrite (walk_loop_more_fuel dff (fuel - 4) 4 _ _ _ _
             (jpdsNonDateTime, initial_context [] [] true)).
  - reflexivity.
  - vm_compute. reflexivity.
Qed.

(* ------------------------------------------------------------------ *)
(** ** The encoder: when it fails *)

Lemma void_OK : forall (A : Type) (a : A), void (OK a) = OK tt.
Proof. reflexivity. Qed.

Lemma void_bind : forall (A B : Type) (r : result A) (k : A -> result B)
    (c : result unit),
  (forall a, void (k a) = c) -> void (bind r k) = (_ <- void r ;; c).
Proof.
  intros A B r k c H. destruct r as [a | e |]; simpl; [apply H | reflexivity ..].
Qed.

Lemma check_all_app : forall chk cs1 cs2,
  check_all chk (cs1 ++ cs2) = (_ <- check_all chk cs1 ;; check_all chk cs2).
Proof.
  intros chk cs1 cs2. induction cs1 as [| c cs1 IH]; simpl.
  - reflexivity.
  - rewrite IH, bind_assoc. reflexivity.
Qed.

Lemma check_all_with_context : forall chk nl ias o,
  check_all chk (with_context nl ias o)
  = match o with Some c => chk nl ias c | None => OK tt end.
Proof.
  intros chk nl ias [c |]; simpl; [| reflexivity].
  destruct (chk nl ias c) as [[] | e |]; reflexivity.
Qed.

Section EncoderOutcome.

Variable rec : flattener.
Variable chk : Z -> bool -> JsonPathParseItem -> result unit.
Hypothesis Hrec : forall buf c nl ias, void (rec buf c nl ias) = chk nl ias c.

(** Splits on the outcome of the next recursive call of the goal. *)
Ltac call_rec :=
  match goal with
  | |- context [rec ?b ?c ?n ?i] =>
      let K := fresh "K" in
      pose proof (Hrec b c n i) as K;
      destruct (rec b c n i) as [[? ?] | ? |];
      simpl in K; rewrite <- K; simpl; try reflexivity
  end.

Lemma flatten_args_outcome : forall buf item pos nl ias,
  void (flatten_args rec buf item pos nl 0 ias)
  = check_all chk (with_context nl ias (value_args_left item)
                   ++ with_context nl ias (value_args_right item)).
Proof.
  intros buf item pos nl ias. unfold flatten_args. simpl.
  rewrite Z.add_0_r, check_all_app, !check_all_with_context.
  destruct (value_args_left item) as [l |];
    destruct (value_args_right item) as [r |]; simpl;
    repeat call_rec; reflexivity.
Qed.

Lemma flatten_arg_outcome : forall ext buf item pos nl d ias,
  void (flatten_arg rec ext buf item pos nl d ias)
  = (_ <- match item_type item with
          | jpiArray => checkJsonPathExtensionsEnabled ext (item_type item)
          | _ => OK tt
          end ;;
     check_all chk (with_context (nl + d) ias (value_arg item))).
Proof.
  intros ext buf item pos nl d ias. unfold flatten_arg. simpl.
  rewrite check_all_with_context.
  destruct (match item_type item with
            | jpiArray => checkJsonPathExtensionsEnabled ext (item_type item)
            | _ => OK tt
            end) as [[] | e |]; simpl; try reflexivity.
  destruct (value_arg item) as [a |]; simpl; [call_rec | reflexivity].
Qed.

Lemma flatten_subscripts_outcome : forall pos offset nl elems i buf,
  void (flatten_subscripts rec pos offset nl elems i buf)
  = check_all chk
      (flat_map (fun e => (nl, true, fst e) :: with_context nl true (snd e))
         elems).
Proof.
  intros pos offset nl elems. induction elems as [| [from to] rest IH];
    intros i buf; simpl.
  - reflexivity.
  - call_rec. rewrite check_all_app, check_all_with_context.
    destruct to as [t |]; simpl.
    + call_rec. apply IH.
    + apply IH.
Qed.

Lemma flatten_elements_outcome : forall pos nl ias elems offset buf,
  void (flatten_elements rec pos offset nl ias elems buf)
  = check_all chk (map (fun e => (nl, ias, e)) elems).
Proof.
  intros pos nl ias elems. induction elems as [| e rest IH];
    intros offset buf; simpl.
  - reflexivity.
  - call_rec. apply IH.
Qed.

Lemma flatten_fields_outcome : forall pos nl ias fields offset buf,
  void (flatten_fields rec pos offset nl ias fields buf)
  = check_all chk
      (flat_map (fun f => [(nl, ias, fst f); (nl, ias, snd f)]) fields).
Proof.
  intros pos nl ias fields. induction fields as [| [k v] rest IH];
    intros offset buf; simpl.
  - reflexivity.
  - call_rec. call_rec. apply IH.
Qed.

Lemma flatten_like_regex_outcome : forall buf item pos nl ias,
  void (flatten_like_regex rec buf item pos nl ias)
  = match value_like_regex_expr item with
    | None => Err ErrBadAddress
    | Some e => chk nl ias e
    end.
Proof.
  intros buf item pos nl ias. unfold flatten_like_regex. simpl.
  destruct (value_like_regex_expr item) as [e |]; simpl; [call_rec | reflexivity].
Qed.

Lemma flatten_payload_outcome : forall ext buf item pos nl ias,
  void (flatten_payload rec ext buf item pos nl ias)
  = (_ <- own_check ext nl ias item ;;
     check_all chk (payload_children nl ias item)).
Proof.
  intros ext buf item pos nl ias.
  unfold flatten_payload, own_check, own_error, payload_children.
  destruct (item_type item) eqn:Ht;
    try reflexivity;
    try (rewrite flatten_args_outcome; reflexivity);
    try (rewrite flatten_arg_outcome, Ht; simpl;
         rewrite ?Z.add_0_r; reflexivity).
  - (* jpiIndexArray *)
    apply flatten_subscripts_outcome.
  - (* jpiCurrent *)
    destruct (nl <=? 0); reflexivity.
  - (* jpiLast *)
    destruct ias; reflexivity.
  - (* jpiLikeRegex *)
    rewrite flatten_like_regex_outcome, check_all_with_context.
    destruct (value_like_regex_expr item); reflexivity.
  - (* jpiSequence *)
    unfold checkJsonPathExtensionsEnabled. destruct ext; simpl;
      [apply flatten_elements_outcome | reflexivity].
  - (* jpiArray *)
    rewrite flatten_arg_outcome, Ht. unfold checkJsonPathExtensionsEnabled.
    rewrite Z.add_0_r. destruct ext; reflexivity.
  - (* jpiObject *)
    unfold checkJsonPathExtensionsEnabled. destruct ext; simpl;
      [apply flatten_fields_outcome | reflexivity].
Qed.

End EncoderOutcome.

(** The outcome of the encoder does not depend on the buffer: it is that of
    [flatten_check]. *)
Lemma flatten_outcome : forall stack ext buf item nl ias,
  void (flattenJsonPathParseItem stack ext buf item nl ias)
  = flatten_check stack ext nl ias item.
Proof.
  induction stack as [| stack IH]; intros ext buf item nl ias.
  - reflexivity.
  - simpl flattenJsonPathParseItem. simpl flatten_check. unfold children.
    rewrite check_all_app, <- bind_assoc.
    rewrite <- (flatten_payload_outcome (flattenJsonPathParseItem stack ext)
                  (flatten_check stack ext) (IH ext) ext
                  (appendBinaryStringInfo
                     (alignStringInfoInt
                        (appendStringInfoChar buf (type_code (item_type item))))
                     (int32_bytes 0))
                  item (len buf - JSONPATH_HDRSZ) nl ias).
    apply void_bind. intros b. rewrite check_all_with_context.
    destruct (item_next item) as [n |]; [| reflexivity].
    pose proof (IH ext b n nl ias) as K.
    destruct (flattenJsonPathParseItem stack ext b n nl ias) as [[? ?] | ? |];
      simpl in K; rewrite <- K; reflexivity.
Qed.

Lemma check_all_Err : forall chk cs e,
  check_all chk cs = Err e ->
  exists c, In c cs /\ chk (fst (fst c)) (snd (fst c)) (snd c) = Err e.
Proof.
  intros chk cs e. induction cs as [| c rest IH]; simpl; intro H.
  - discriminate H.
  - apply bind_Err in H. destruct H as [H | [[] [_ H]]].
    + exists c. auto.
    + destruct (IH H) as [c' [Hin Hc']]. exists c'. auto.
Qed.

Lemma check_all_OK : forall chk cs,
  check_all chk cs = OK tt <->
  forall c, In c cs -> chk (fst (fst c)) (snd (fst c)) (snd c) = OK tt.
Proof.
  intros chk cs. induction cs as [| c rest IH]; simpl.
  - split; [intros _ c [] | reflexivity].
  - split.
    + intros H c' [Hc | Hc].
      * subst c'. apply bind_OK in H. destruct H as [[] [H _]]. exact H.
      * apply bind_OK in H. destruct H as [[] [_ H]].
        apply (proj1 IH H). exact Hc.
    + intros H. rewrite (H c (or_introl eq_refl)). simpl.
      apply IH. intros c' Hc'. apply H. right. exact Hc'.
Qed.

Lemma own_check_OK : forall ext nl ias item,
  own_check ext nl ias item = OK tt <-> own_error ext nl ias item = None.
Proof.
  intros. unfold own_check. destruct (own_error ext nl ias item);
    split; intro H; try discriminate H; reflexivity.
Qed.

Lemma own_check_Err : forall ext nl ias item e,
  own_check ext nl ias item = Err e <-> own_error ext nl ias item = Some e.
Proof.
  intros. unfold own_check. destruct (own_error ext nl ias item);
    split; intro H; try discriminate H; congruence.
Qed.

Lemma own_error_not_stack : forall ext nl ias item,
  own_error ext nl ias item <> Some ErrStackDepth.
Proof.
  intros ext nl ias item. unfold own_error.
  destruct (item_type item); try discriminate;
    repeat match goal with
           | |- context [if ?c then _ else _] => destruct c
           | |- context [match ?x with _ => _ end] => destruct x
           end; discriminate.
Qed.

(** A failure of the encoder is the stack-depth error or the error of an
    item that occurs in the tree. *)
Lemma flatten_check_Err : forall stack ext nl ias item e,
  flatten_check stack ext nl ias item = Err e ->
  e = ErrStackDepth
  \/ exists nl' ias' d,
       occurs nl ias item nl' ias' d /\ own_error ext nl' ias' d = Some e.
Proof.
  induction stack as [| stack IH]; intros ext nl ias item e H.
  - left. simpl in H. congruence.
  - simpl in H. apply bind_Err in H. destruct H as [H | [[] [_ H]]].
    + right. exists nl, ias, item. split; [apply occurs_here |].
      apply own_check_Err. exact H.
    + apply check_all_Err in H. destruct H as [[[nl1 ias1] c] [Hin Hc]].
      simpl in Hc. destruct (IH _ _ _ _ _ Hc) as [He | (nl' & ias' & d & Ho & Hd)].
      * left. exact He.
      * right. exists nl', ias', d. split; [| exact Hd].
        eapply occurs_below; eassumption.
Qed.

(** When the encoder succeeds, no item that occurs has an error. *)
Lemma flatten_check_OK : forall ext nl ias item nl' ias' d,
  occurs nl ias item nl' ias' d ->
  forall stack,
    flatten_check stack ext nl ias item = OK tt ->
    own_error ext nl' ias' d = None.
Proof.
  intros ext nl ias item nl' ias' d Hocc.
  induction Hocc as [nl ias item | nl ias item nl1 ias1 c nl' ias' d Hin _ IH];
    intros [| stack] H; simpl in H; try discriminate H;
    apply bind_OK in H; destruct H as [[] [Hown H]].
  - apply own_check_OK. exact Hown.
  - apply (IH stack). exact (proj1 (check_all_OK _ _) H _ Hin).
Qed.

Lemma in_with_context : forall nl ias o a b c,
  In (a, b, c) (with_context nl ias o) -> o = Some c.
Proof.
  intros nl ias [x |] a b c H; simpl in H; [| contradiction].
  destruct H as [H | []]. congruence.
Qed.

Lemma list_max_In : forall (l : list nat) (x : nat),
  In x l -> (x <= list_max l)%nat.
Proof.
  intros l x H.
  pose proof (proj1 (list_max_le l (list_max l)) (Nat.le_refl _)) as F.
  rewrite Forall_forall in F. exact (F x H).
Qed.

Lemma item_depth_unfold : forall t nx v,
  item_depth (ParseItem t nx v)
  = S (Nat.max (match nx with Some n => item_depth n | None => O end)
               (value_depth v)).
Proof. intros t nx v. destruct v; reflexivity. Qed.

Lemma subscripts_depth : forall (nl : Z) elems (a : Z) (b : bool) c,
  In (a, b, c)
    (flat_map (fun e => (nl, true, fst e) :: with_context nl true (snd e)) elems) ->
  (item_depth c <= value_depth (v_array elems))%nat.
Proof.
  intros nl elems a b c H.
  apply in_flat_map in H. destruct H as [[from to] [He H]].
  apply (in_map (fun e => Nat.max (item_depth (fst e))
                            match snd e with
                            | Some t => item_depth t
                            | None => O
                            end)) in He.
  apply list_max_In in He. simpl in He, H |- *.
  destruct H as [H | H].
  - inversion H; subst. lia.
  - apply in_with_context in H. subst. lia.
Qed.

Lemma elements_depth : forall (nl : Z) (ias : bool) elems (a : Z) (b : bool) c,
  In (a, b, c) (map (fun e => (nl, ias, e)) elems) ->
  (item_depth c <= value_depth (v_sequence elems))%nat.
Proof.
  intros nl ias elems a b c H.
  apply in_map_iff in H. destruct H as [e [He Hin]].
  inversion He; subst.
  apply (in_map item_depth) in Hin. apply list_max_In in Hin. simpl. lia.
Qed.

Lemma fields_depth : forall (nl : Z) (ias : bool) fields (a : Z) (b : bool) c,
  In (a, b, c)
    (flat_map (fun f => [(nl, ias, fst f); (nl, ias, snd f)]) fields) ->
  (item_depth c <= value_depth (v_object fields))%nat.
Proof.
  intros nl ias fields a b c H.
  apply in_flat_map in H. destruct H as [[k w] [He H]].
  apply (in_map (fun f => Nat.max (item_depth (fst f)) (item_depth (snd f))))
    in He.
  apply list_max_In in He. simpl in He, H |- *.
  destruct H as [H | [H | []]]; inversion H; subst; lia.
Qed.

Lemma payload_children_depth : forall nl ias t nx v nl1 ias1 c,
  In (nl1, ias1, c) (payload_children nl ias (ParseItem t nx v)) ->
  (item_depth c <= value_depth v)%nat.
Proof.
  intros nl ias t nx v nl1 ias1 c H.
  unfold payload_children, value_args_left, value_args_right, value_arg,
    value_like_regex_expr, value_array_elems, value_sequence_elems,
    value_object_fields in H.
  simpl in H.
  destruct t; try contradiction;
    destruct v; simpl in H; try contradiction;
    first
      [ exact (subscripts_depth _ _ _ _ _ H)
      | exact (elements_depth _ _ _ _ _ _ H)
      | exact (fields_depth _ _ _ _ _ _ H)
      | repeat match goal with
               | K : In _ (_ ++ _) |- _ =>
                   apply in_app_or in K; destruct K as [K | K]
               | K : In _ (with_context _ _ _) |- _ =>
                   apply in_with_context in K; subst
               | K : _ = _ \/ False |- _ =>
                   destruct K as [K | []]; inversion K; subst
               end; simpl; lia ].
Qed.

(** An operand or successor takes fewer frames than the item. *)
Lemma children_depth : forall nl ias item nl1 ias1 c,
  In (nl1, ias1, c) (children nl ias item) ->
  (item_depth c < item_depth item)%nat.
Proof.
  intros nl ias [t nx v] nl1 ias1 c H.
  rewrite item_depth_unfold.
  unfold children in H. apply in_app_or in H. destruct H as [H | H].
  - apply payload_children_depth in H. lia.
  - apply in_with_context in H. simpl in H. subst nx. lia.
Qed.

(** With enough stack the encoder does not raise the stack-depth error. *)
Lemma flatten_check_enough_stack : forall stack ext nl ias item,
  (item_depth item <= stack)%nat ->
  flatten_check stack ext nl ias item <> Err ErrStackDepth.
Proof.
  induction stack as [| stack IH]; intros ext nl ias item Hd H.
  - destruct item. simpl in Hd. lia.
  - simpl in H. apply bind_Err in H. destruct H as [H | [[] [_ H]]].
    + apply own_check_Err in H. exact (own_error_not_stack _ _ _ _ H).
    + apply check_all_Err in H. destruct H as [[[nl1 ias1] c] [Hin Hc]].
      simpl in Hc. apply children_depth in Hin.
      apply (IH ext nl1 ias1 c); [lia | exact Hc].
Qed.

Lemma flatten_check_total : forall stack ext nl ias item,
  flatten_check stack ext nl ias item <> OutOfFuel.
Proof.
  induction stack as [| stack IH]; intros ext nl ias item; simpl.
  - discriminate.
  - unfold own_check. destruct (own_error ext nl ias item); simpl;
      [discriminate |].
    induction (children nl ias item) as [| [[nl1 ias1] c] rest IHc]; simpl.
    + discriminate.
    + pose proof (IH ext nl1 ias1 c) as K.
      destruct (flatten_check stack ext nl1 ias1 c) as [[] | e |]; simpl;
        [exact IHc | discriminate | congruence].
Qed.

Lemma void_Err : forall (A : Type) (r : result A) e, void r = Err e <-> r = Err e.
Proof.
  intros A r e. destruct r; simpl; split; intro H;
    try discriminate H; congruence.
Qed.

Lemma violation_is_input_error : forall ext nl ias d e,
  violation ext nl ias d e -> input_error e = true.
Proof.
  intros ext nl ias d e [(_ & _ & H) | [(_ & _ & H) | (_ & _ & H)]];
    subst e; reflexivity.
Qed.

Lemma violation_own_error : forall ext nl ias d e,
  violation ext nl ias d e -> own_error ext nl ias d = Some e.
Proof.
  intros ext nl ias d e [(Ht & He & H) | [(Ht & Hn & H) | (Ht & Hi & H)]];
    subst e; unfold own_error.
  - subst ext. destruct (item_type d); try discriminate Ht; reflexivity.
  - rewrite Ht. apply Z.leb_le in Hn. rewrite Hn. reflexivity.
  - rewrite Ht, Hi. reflexivity.
Qed.

Lemma own_error_violation : forall ext nl ias d e,
  own_error ext nl ias d = Some e ->
  input_error e = true \/ encodable d = true ->
  violation ext nl ias d e.
Proof.
  intros ext nl ias d e H Hin. unfold own_error, encodable in *.
  unfold violation.
  destruct (item_type d) eqn:Ht; try discriminate H.
  - (* jpiCurrent *)
    destruct (nl <=? 0) eqn:Hn; inversion H; subst e.
    apply Z.leb_le in Hn. right. left. auto.
  - (* jpiSubscript *)
    inversion H; subst e. destruct Hin as [K | K]; discriminate K.
  - (* jpiLast *)
    destruct ias; inversion H; subst e. right. right. auto.
  - (* jpiLikeRegex *)
    destruct (value_like_regex_expr d); inversion H; subst e.
    destruct Hin as [K | K]; discriminate K.
  - (* jpiSequence *)
    destruct ext; inversion H; subst e. left. auto.
  - (* jpiArray *)
    destruct ext; inversion H; subst e. left. auto.
  - (* jpiObject *)
    destruct ext; inversion H; subst e. left. auto.
  - (* jpiObjectField *)
    inversion H; subst e. destruct Hin as [K | K]; discriminate K.
Qed.

(** C4.  The encoder fails with an input error (a syntax error, in the
    words of the specification) exactly in the three situations.  First
    part: when it fails with an input error, it has reached an item in one of
    the three situations and the error is the one of that situation.  Second
    part: when an item that it reaches is in one of the three situations, it
    gives no result, whatever the stack; with enough stack for the tree (and
    memory, which the model does not bound), and the tree being one that the
    parser builds, it fails with the input error of an item in one of the
    three situations.  Last part: the errors of a
    current-item and of a last-index reference carry the code of a syntax
    error, that of the extensions the code of an invalid text
    representation; all three are input errors. *)
Theorem encoder_fails_exactly_on_violations :
  forall stack ext buf item nl ias,
    (forall e,
       flattenJsonPathParseItem stack ext buf item nl ias = Err e ->
       input_error e = true ->
       exists nl' ias' d,
         occurs nl ias item nl' ias' d /\ violation ext nl' ias' d e)
    /\ (forall nl' ias' d e',
          occurs nl ias item nl' ias' d ->
          violation ext nl' ias' d e' ->
          (forall r, flattenJsonPathParseItem stack ext buf item nl ias <> OK r)
          /\ ((item_depth item <= stack)%nat ->
              (forall nl1 ias1 d1,
                 occurs nl ias item nl1 ias1 d1 -> encodable d1 = true) ->
              exists e,
                flattenJsonPathParseItem stack ext buf item nl ias = Err e
                /\ input_error e = true
                /\ exists nl1 ias1 d1,
                     occurs nl ias item nl1 ias1 d1
                     /\ violation ext nl1 ias1 d1 e))
    /\ (errcode ErrCurrentInRoot = ERRCODE_SYNTAX_ERROR
        /\ errcode ErrLastOutsideSubscript = ERRCODE_SYNTAX_ERROR
        /\ errcode ErrExtensionsNotEnabled = ERRCODE_INVALID_TEXT_REPRESENTATION
        /\ forall nl' ias' d e,
             violation ext nl' ias' d e -> input_error e = true).
Proof.
  intros stack ext buf item nl ias.
  assert (Hnot : forall nl' ias' d e',
            occurs nl ias item nl' ias' d ->
            violation ext nl' ias' d e' ->
            flatten_check stack ext nl ias item <> OK tt).
  { intros nl' ias' d e' Hocc Hv Hok.
    pose proof (flatten_check_OK ext nl ias item nl' ias' d Hocc stack Hok) as K.
    rewrite (violation_own_error _ _ _ _ _ Hv) in K. discriminate K. }
  split; [| split].
  - intros e He Hin.
    apply void_Err in He. rewrite flatten_outcome in He.
    destruct (flatten_check_Err _ _ _ _ _ _ He)
      as [Hs | (nl' & ias' & d & Hocc & Hd)].
    + subst e. discriminate Hin.
    + exists nl', ias', d. split; [exact Hocc |].
      apply own_error_violation; auto.
  - intros nl' ias' d e' Hocc Hv. split.
    + intros r Hr. apply (Hnot _ _ _ _ Hocc Hv).
      rewrite <- flatten_outcome with (buf := buf). rewrite Hr. reflexivity.
    + intros Hdepth Henc.
      pose proof (Hnot _ _ _ _ Hocc Hv) as Hfail.
      destruct (flatten_check stack ext nl ias item) as [[] | e |] eqn:E.
      * exfalso. apply Hfail. reflexivity.
      * destruct (flatten_check_Err _ _ _ _ _ _ E)
          as [Hs | (nl1 & ias1 & d1 & Hocc1 & Hd1)].
        { subst e. exfalso.
          exact (flatten_check_enough_stack _ _ _ _ _ Hdepth E). }
        assert (Hv1 : violation ext nl1 ias1 d1 e).
        { apply own_error_violation; [exact Hd1 |].
          right. exact (Henc _ _ _ Hocc1). }
        exists e. split; [| split].
        -- apply void_Err. rewrite flatten_outcome. exact E.
        -- exact (violation_is_input_error _ _ _ _ _ Hv1).
        -- exists nl1, ias1, d1. auto.
      * exfalso. exact (flatten_check_total _ _ _ _ _ E).
  - repeat split. exact (violation_is_input_error ext).
Qed.

(** The current item is accepted inside a filter and refused at the root; the
    last index is accepted inside a subscript and refused outside. *)
Example current_and_last_in_context :
  is_ok (flattenJsonPathParseItem 16 false header_room filter_on_current 0 false)
  = true
  /\ flattenJsonPathParseItem 16 false header_room (leaf jpiCurrent None) 0 false
     = Err ErrCurrentInRoot
  /\ is_ok (flattenJsonPathParseItem 16 false header_room subscript_last 0 false)
     = true
  /\ flattenJsonPathParseItem 16 false header_room (leaf jpiLast None) 0 false
     = Err ErrLastOutsideSubscript.
Proof. repeat split; vm_compute; reflexivity. Qed.

(** An array constructor met while the extensions are off makes the encoder
    fail with the error of the extensions, whose code is that of an invalid
    text representation; with the extensions on it is encoded. *)
Example extensions_error_is_an_input_error :
  needs_extensions (item_type array_of_root) = true
  /\ flattenJsonPathParseItem 16 false header_room array_of_root 0 false
     = Err ErrExtensionsNotEnabled
  /\ errcode ErrExtensionsNotEnabled = ERRCODE_INVALID_TEXT_REPRESENTATION
  /\ input_error ErrExtensionsNotEnabled = true
  /\ is_ok (flattenJsonPathParseItem 16 true header_room array_of_root 0 false)
     = true.
Proof. repeat split; vm_compute; reflexivity. Qed.

(** The items that the encoder reaches from a current-item reference without
    successor: the reference alone. *)
Lemma occurs_leaf_current : forall nl ias nl' ias' d,
  occurs nl ias (leaf jpiCurrent None) nl' ias' d -> d = leaf jpiCurrent None.
Proof.
  intros nl ias nl' ias' d H.
  inversion H as [| ? ? ? ? ? ? ? ? ? Hin]; subst; [reflexivity |].
  destruct Hin.
Qed.

Lemma encoder_fails_exactly_on_violations_witness :
  (flattenJsonPathParseItem 16 false header_room array_of_root 0 false
   = Err ErrExtensionsNotEnabled
   /\ input_error ErrExtensionsNotEnabled = true
   /\ exists nl' ias' d,
        occurs 0 false array_of_root nl' ias' d
        /\ violation false nl' ias' d ErrExtensionsNotEnabled)
  /\ (occurs 0 false (leaf jpiCurrent None) 0 false (leaf jpiCurrent None)
      /\ violation false 0 false (leaf jpiCurrent None) ErrCurrentInRoot
      /\ (item_depth (leaf jpiCurrent None) <= 16)%nat
      /\ exists e,
           flattenJsonPathParseItem 16 false header_room (leaf jpiCurrent None)
             0 false = Err e
           /\ input_error e = true
           /\ exists nl1 ias1 d1,
                occurs 0 false (leaf jpiCurrent None) nl1 ias1 d1
                /\ violation false nl1 ias1 d1 e).
Proof.
  split.
  - split; [vm_compute; reflexivity |]. split; [reflexivity |].
    apply (proj1 (encoder_fails_exactly_on_violations 16 false header_room
                    array_of_root 0 false)
             ErrExtensionsNotEnabled).
    + vm_compute. reflexivity.
    + reflexivity.
  - assert (Hocc : occurs 0 false (leaf jpiCurrent None) 0 false
                     (leaf jpiCurrent None)) by apply occurs_here.
    assert (Hv : violation false 0 false (leaf jpiCurrent None)
                   ErrCurrentInRoot).
    { right. left. repeat split. simpl. lia. }
    assert (Hd : (item_depth (leaf jpiCurrent None) <= 16)%nat)
      by (vm_compute; lia).
    split; [exact Hocc |]. split; [exact Hv |]. split; [exact Hd |].
    apply (proj2 (proj1 (proj2 (encoder_fails_exactly_on_violations 16 false
                                  header_room (leaf jpiCurrent None) 0 false))
                    0 false (leaf jpiCurrent None) ErrCurrentInRoot Hocc Hv)
             Hd).
    intros nl1 ias1 d1 H1. rewrite (occurs_leaf_current _ _ _ _ _ H1).
    reflexivity.
Defined.

(* ------------------------------------------------------------------ *)
(** ** The encoder: where the fields of an item are *)

Lemma INTALIGN_eq : forall x, INTALIGN x = 4 * ((x + 3) / 4).
Proof.
  intro x. unfold INTALIGN. rewrite <- Z.ldiff_land.
  change 3 with (Z.ones 2) at 2.
  rewrite Z.ldiff_ones_r by lia.
  rewrite Z.shiftr_div_pow2, Z.shiftl_mul_pow2 by lia.
  change (2 ^ 2) with 4. lia.
Qed.

Lemma INTALIGN_bounds : forall x,
  0 <= INTALIGN x - x <= 3 /\ (INTALIGN x) mod 4 = 0.
Proof.
  intro x. rewrite INTALIGN_eq. split.
  - pose proof (Z.div_mod (x + 3) 4 ltac:(lia)) as E.
    pose proof (Z.mod_pos_bound (x + 3) 4 ltac:(lia)) as B. lia.
  - rewrite Z.mul_comm. apply Z.mod_mul. lia.
Qed.

Lemma len_app : forall a b : list Z, len (a ++ b) = len a + len b.
Proof. intros a b. unfold len. rewrite length_app. lia. Qed.

Lemma len_nonneg : forall b : list Z, 0 <= len b.
Proof. intro b. unfold len. lia. Qed.

Lemma len_int32_bytes : forall x, len (int32_bytes x) = 4.
Proof. reflexivity. Qed.

(** The padding appended is zero bytes, up to the next multiple of 4. *)
Lemma alignStringInfoInt_eq : forall buf,
  alignStringInfoInt buf
  = buf ++ repeat 0 (Z.to_nat (INTALIGN (len buf) - len buf)).
Proof.
  intro buf. unfold alignStringInfoInt, appendStringInfoChar.
  pose proof (proj1 (INTALIGN_bounds (len buf))) as B.
  destruct (INTALIGN (len buf) - len buf) as [| p | p] eqn:E.
  - simpl. rewrite app_nil_r. reflexivity.
  - assert (Hp : Z.pos p = 1 \/ Z.pos p = 2 \/ Z.pos p = 3) by lia.
    destruct Hp as [Hp | [Hp | Hp]]; inversion Hp; subst p; simpl;
      rewrite <- ?app_assoc; reflexivity.
  - lia.
Qed.

Lemma extends_refl : forall b, extends b b.
Proof. intro b. exists []. rewrite app_nil_r. reflexivity. Qed.

Lemma extends_trans : forall a b c, extends a b -> extends b c -> extends a c.
Proof.
  intros a b c [s1 H1] [s2 H2]. exists (s1 ++ s2). subst.
  rewrite app_assoc. reflexivity.
Qed.

Lemma extends_app : forall a b x, extends a b -> extends a (b ++ x).
Proof.
  intros a b x [s H]. exists (s ++ x). subst. rewrite app_assoc. reflexivity.
Qed.

Lemma extends_len : forall a b, extends a b -> len a <= len b.
Proof.
  intros a b [s H]. subst. rewrite len_app. pose proof (len_nonneg s). lia.
Qed.

(** Patching a slot that lies behind a prefix leaves the prefix alone. *)
Lemma store_int32_app : forall b0 s off x,
  len b0 <= off ->
  store_int32 (b0 ++ s) off x = b0 ++ store_int32 s (off - len b0) x.
Proof.
  intros b0 s off x H. unfold store_int32, len in *.
  rewrite firstn_app, skipn_app.
  rewrite firstn_all2 by lia. rewrite skipn_all2 by lia. simpl.
  rewrite <- app_assoc.
  replace (Z.to_nat off - List.length b0)%nat
    with (Z.to_nat (off - Z.of_nat (List.length b0))) by lia.
  replace (Z.to_nat off + 4 - List.length b0)%nat
    with (Z.to_nat (off - Z.of_nat (List.length b0)) + 4)%nat by lia.
  reflexivity.
Qed.

Lemma store_int32_extends : forall b0 b off x,
  extends b0 b -> len b0 <= off -> extends b0 (store_int32 b off x).
Proof.
  intros b0 b off x [s H] Hoff. subst b. rewrite store_int32_app by exact Hoff.
  eexists. reflexivity.
Qed.


Ltac len_side :=
  repeat match goal with
         | K : extends ?a ?b |- _ =>
             lazymatch goal with
             | _ : len a <= len b |- _ => fail
             | _ => pose proof (extends_len _ _ K)
             end
         end;
  unfold appendBinaryStringInfo, appendStringInfoChar, appendStringInfoSpaces in *;
  rewrite ?len_app, ?len_int32_bytes in *;
  repeat match goal with
         | |- context [len ?b] =>
             lazymatch goal with
             | _ : 0 <= len b |- _ => fail
             | _ => pose proof (len_nonneg b)
             end
         end;
  lia.

Ltac extends_step :=
  lazymatch goal with
  | |- extends ?a ?a => apply extends_refl
  | |- extends _ (store_int32 _ _ _) => apply store_int32_extends; [| len_side]
  | |- extends _ (_ ++ _) => first [assumption | apply extends_app]
  | |- extends _ _ => first [assumption | eapply extends_trans; [| eassumption]]
  end.

Ltac extends_tac := repeat extends_step.

Section EncoderFrame.

Variable rec : flattener.
Hypothesis Hrec : forall buf c nl ias pos buf',
  rec buf c nl ias = OK (pos, buf') -> extends buf buf'.

Ltac use_rec :=
  repeat match goal with
         | K : rec _ _ _ _ = OK _ |- _ => apply Hrec in K
         end.

Lemma flatten_args_extends : forall buf item pos nl d ias buf',
  flatten_args rec buf item pos nl d ias = OK buf' -> extends buf buf'.
Proof.
  intros buf item pos nl d ias buf' H. unfold flatten_args in H. simpl in H.
  destruct (value_args_left item) as [l |];
    destruct (value_args_right item) as [r |]; inv_bind; use_rec;
    unfold appendBinaryStringInfo in *; extends_tac.
Qed.

Lemma flatten_like_regex_extends : forall buf item pos nl ias buf',
  flatten_like_regex rec buf item pos nl ias = OK buf' -> extends buf buf'.
Proof.
  intros buf item pos nl ias buf' H. unfold flatten_like_regex in H.
  simpl in H. destruct (value_like_regex_expr item) as [e |]; inv_bind; use_rec.
  unfold appendBinaryStringInfo, appendStringInfoChar in *. extends_tac.
Qed.

Lemma flatten_arg_extends : forall ext buf item pos nl d ias buf',
  flatten_arg rec ext buf item pos nl d ias = OK buf' -> extends buf buf'.
Proof.
  intros ext buf item pos nl d ias buf' H. unfold flatten_arg in H.
  simpl in H. apply bind_OK in H. destruct H as [[] [_ H]].
  destruct (value_arg item) as [a |]; inv_bind; use_rec;
    unfold appendBinaryStringInfo in *; extends_tac.
Qed.

Lemma flatten_subscripts_extends : forall pos offset nl b0,
  len b0 <= offset ->
  forall elems i buf buf',
    0 <= i -> extends b0 buf ->
    flatten_subscripts rec pos offset nl elems i buf = OK buf' ->
    extends b0 buf'.
Proof.
  intros pos offset nl b0 Hoff.
  induction elems as [| [from to] rest IH]; intros i buf buf' Hi Hb H;
    simpl in H.
  - inv_bind. assumption.
  - apply bind_OK in H. destruct H as [[p b1] [H1 H]]. apply Hrec in H1.
    apply bind_OK in H. destruct H as [[tp b2] [H2 H]].
    assert (E2 : extends b1 b2).
    { destruct to as [t |]; inv_bind; use_rec; extends_tac. }
    eapply (IH (i + 1)); [lia | | exact H]. extends_tac.
Qed.

Lemma flatten_elements_extends : forall pos nl ias b0 elems offset buf buf',
  len b0 <= offset -> extends b0 buf ->
  flatten_elements rec pos offset nl ias elems buf = OK buf' ->
  extends b0 buf'.
Proof.
  intros pos nl ias b0.
  induction elems as [| e rest IH]; intros offset buf buf' Hoff Hb H;
    simpl in H.
  - inv_bind. assumption.
  - apply bind_OK in H. destruct H as [[p b1] [H1 H]]. apply Hrec in H1.
    eapply (IH (offset + 4)); [lia | | exact H]. extends_tac.
Qed.

Lemma flatten_fields_extends : forall pos nl ias b0 fields offset buf buf',
  len b0 <= offset -> extends b0 buf ->
  flatten_fields rec pos offset nl ias fields buf = OK buf' ->
  extends b0 buf'.
Proof.
  intros pos nl ias b0.
  induction fields as [| [k v] rest IH]; intros offset buf buf' Hoff Hb H;
    simpl in H.
  - inv_bind. assumption.
  - apply bind_OK in H. destruct H as [[p1 b1] [H1 H]]. apply Hrec in H1.
    apply bind_OK in H. destruct H as [[p2 b2] [H2 H]]. apply Hrec in H2.
    eapply (IH (offset + 2 * 4)); [lia | | exact H]. extends_tac.
Qed.

Lemma flatten_payload_extends : forall ext buf item pos nl ias buf',
  flatten_payload rec ext buf item pos nl ias = OK buf' -> extends buf buf'.
Proof.
  intros ext buf item pos nl ias buf' H. unfold flatten_payload in H.
  destruct (item_type item);
    try (apply flatten_args_extends in H; exact H);
    try (apply flatten_arg_extends in H; exact H);
    try (apply flatten_like_regex_extends in H; exact H);
    try (inv_bind; unfold appendBinaryStringInfo, appendStringInfoChar;
         extends_tac; fail).
  - (* jpiIndexArray *)
    eapply flatten_subscripts_extends; [| | | exact H];
      [len_side | lia | unfold appendBinaryStringInfo, appendStringInfoSpaces;
                        extends_tac].
  - (* jpiSequence *)
    apply bind_OK in H. destruct H as [[] [_ H]].
    eapply flatten_elements_extends; [| | exact H];
      [len_side | unfold appendBinaryStringInfo, appendStringInfoSpaces;
                  extends_tac].
  - (* jpiObject *)
    apply bind_OK in H. destruct H as [[] [_ H]].
    eapply flatten_fields_extends; [| | exact H];
      [len_side | unfold appendBinaryStringInfo, appendStringInfoSpaces;
                  extends_tac].
Qed.

End EncoderFrame.

(** The encoder only appends to the buffer it is given: the slots it patches
    are all behind the bytes it found. *)
Lemma flatten_extends : forall stack ext buf item nl ias pos buf',
  flattenJsonPathParseItem stack ext buf item nl ias = OK (pos, buf') ->
  extends buf buf'.
Proof.
  induction stack as [| stack IH]; intros ext buf item nl ias pos buf' H.
  - discriminate H.
  - simpl in H. apply bind_OK in H. destruct H as [b1 [Hp H]].
    apply (flatten_payload_extends _ (IH ext)) in Hp.
    rewrite alignStringInfoInt_eq in Hp.
    unfold appendBinaryStringInfo, appendStringInfoChar in Hp.
    assert (E1 : extends buf b1).
    { eapply extends_trans; [| exact Hp]. extends_tac. }
    destruct (item_next item) as [n |]; inv_bind.
    + apply IH in Ha. apply store_int32_extends.
      * eapply extends_trans; eassumption.
      * rewrite alignStringInfoInt_eq. len_side.
    + exact E1.
Qed.

(** The position returned is that of the end of the buffer received. *)
Lemma flatten_pos : forall stack ext buf item nl ias pos buf',
  flattenJsonPathParseItem stack ext buf item nl ias = OK (pos, buf') ->
  pos = len buf - JSONPATH_HDRSZ.
Proof.
  intros [| stack] ext buf item nl ias pos buf' H; [discriminate H |].
  simpl in H. apply bind_OK in H. destruct H as [b1 [_ H]].
  destruct (item_next item); inv_bind; reflexivity.
Qed.




(** The sample parser reads the two paths from two texts; so one of the
    texts does not round-trip. *)
Example sample_round_trip_fails :
  ~ (round_trips sample_parse sample_numeric_out 16 "($.a * $.b).c + $.d"
     /\ round_trips sample_parse sample_numeric_out 16 "$.a * $.b.c + $.d").
Proof.
  apply no_parser_round_trips_both; reflexivity.
Qed.

Lemma variable_lookup_witness :
  (forall c, In c (list_ascii_of_string "t") -> byte_of_ascii c <> 0)
  /\ variable_status ["tz"; "t"]%string [timestamptz_var; int4_var] "t"
       (strlen "t") jpdsNonDateTime
     = jpdsDateTimeZoned.
Proof.
  assert (Hnul : forall c, In c (list_ascii_of_string "t") -> byte_of_ascii c <> 0).
  { intros c [Hc | []]. subst c. vm_compute. discriminate. }
  split; [exact Hnul |].
  rewrite (proj1 variable_lookup_compares_a_prefix
             ["tz"; "t"]%string [timestamptz_var; int4_var] "t"%string
             jpdsNonDateTime Hnul).
  reflexivity.
Defined.

Lemma walker_depth_witness :
  (4 <= 7)%nat
  /\ jspIsMutable sample_format_flags 7 path_negations [] [] = OK false.
Proof.
  split; [lia |].
  apply (proj2 (proj2 (proj2 (proj2 (proj2 (proj2 (proj2
           walker_lacks_the_depth_check)))))) sample_format_flags 7%nat).
  lia.
Defined.

(* ------------------------------------------------------------------ *)
(** ** The cursor on what the encoder wrote *)
(** Lengths of the pieces of a buffer. *)
Lemma len_cons : forall (x : Z) l, len (x :: l) = 1 + len l.
Proof. intros. unfold len. simpl List.length. lia. Qed.

Lemma len_nil : len [] = 0.
Proof. reflexivity. Qed.

Lemma len_repeat : forall (x : Z) n, len (repeat x n) = Z.of_nat n.
Proof. intros. unfold len. rewrite repeat_length. reflexivity. Qed.

Lemma len_bytes_of_string : forall s, len (bytes_of_string s) = strlen s.
Proof.
  intro s. unfold len, bytes_of_string, strlen. rewrite length_map.
  f_equal. induction s; simpl; congruence.
Qed.

Ltac len_norm :=
  unfold appendBinaryStringInfo, appendStringInfoChar, appendStringInfoSpaces,
    VARSIZE in *;
  rewrite ?len_app, ?len_cons, ?len_nil, ?len_int32_bytes, ?len_repeat,
    ?len_bytes_of_string in *.

Lemma strlen_nonneg : forall s, 0 <= strlen s.
Proof. intro s. unfold strlen. lia. Qed.

Ltac len_pos :=
  repeat match goal with
         | |- context [strlen ?s] =>
             lazymatch goal with
             | _ : 0 <= strlen s |- _ => fail
             | _ => pose proof (strlen_nonneg s)
             end
         | _ : context [strlen ?s] |- _ =>
             lazymatch goal with
             | _ : 0 <= strlen s |- _ => fail
             | _ => pose proof (strlen_nonneg s)
             end
         | |- context [len ?b] =>
             lazymatch goal with
             | _ : 0 <= len b |- _ => fail
             | _ => pose proof (len_nonneg b)
             end
         | _ : context [len ?b] |- _ =>
             lazymatch goal with
             | _ : 0 <= len b |- _ => fail
             | _ => pose proof (len_nonneg b)
             end
         end.

Ltac len_lia := len_norm; len_pos; lia.

(** Reading behind a prefix, and at the start of what follows it. *)
Lemma load_byte_skip : forall a b addr,
  len a <= addr -> load_byte (a ++ b) addr = load_byte b (addr - len a).
Proof.
  intros a b addr H. unfold load_byte, len in *.
  destruct (addr <? 0) eqn:E1; [apply Z.ltb_lt in E1; lia |].
  destruct (addr - Z.of_nat (List.length a) <? 0) eqn:E2;
    [apply Z.ltb_lt in E2; lia |].
  rewrite nth_error_app2 by lia.
  replace (Z.to_nat addr - List.length a)%nat
    with (Z.to_nat (addr - Z.of_nat (List.length a))) by lia.
  reflexivity.
Qed.

Lemma load_byte_here : forall c b addr,
  addr = 0 -> load_byte ([c] ++ b) addr = OK c.
Proof. intros c b addr ->. reflexivity. Qed.

Lemma load_uint32_skip : forall a b addr,
  len a <= addr -> load_uint32 (a ++ b) addr = load_uint32 b (addr - len a).
Proof.
  intros a b addr H. unfold load_uint32.
  rewrite !load_byte_skip by lia.
  replace (addr + 1 - len a) with (addr - len a + 1) by lia.
  replace (addr + 2 - len a) with (addr - len a + 2) by lia.
  replace (addr + 3 - len a) with (addr - len a + 3) by lia.
  reflexivity.
Qed.

(** The four bytes stored for a value give the value back, modulo 2^32. *)
Lemma int32_bytes_value : forall x,
  let u := x mod 4294967296 in
  u mod 256 + 256 * ((u / 256) mod 256) + 65536 * ((u / 65536) mod 256)
  + 16777216 * ((u / 16777216) mod 256) = u.
Proof.
  intros x u.
  assert (Hu : 0 <= u < 4294967296) by (apply Z.mod_pos_bound; lia).
  pose proof (Z.div_mod u 256 ltac:(lia)).
  pose proof (Z.mod_pos_bound u 256 ltac:(lia)).
  pose proof (Z.div_mod (u / 256) 256 ltac:(lia)).
  pose proof (Z.mod_pos_bound (u / 256) 256 ltac:(lia)).
  pose proof (Z.div_mod (u / 256 / 256) 256 ltac:(lia)).
  pose proof (Z.mod_pos_bound (u / 256 / 256) 256 ltac:(lia)).
  replace (u / 65536) with (u / 256 / 256)
    by (rewrite Z.div_div by lia; reflexivity).
  replace (u / 16777216) with (u / 256 / 256 / 256)
    by (rewrite !Z.div_div by lia; reflexivity).
  assert (u / 256 / 256 / 256 < 256).
  { apply Z.div_lt_upper_bound; [lia |].
    apply Z.div_lt_upper_bound; [lia |].
    apply Z.div_lt_upper_bound; lia. }
  assert (0 <= u / 256 / 256 / 256).
  { repeat apply Z.div_pos; lia. }
  rewrite (Z.mod_small (u / 256 / 256 / 256)) by lia.
  lia.
Qed.

Lemma load_uint32_here : forall x b addr,
  addr = 0 ->
  load_uint32 (int32_bytes x ++ b) addr = OK (x mod 4294967296).
Proof.
  intros x b addr ->. unfold load_uint32, int32_bytes. simpl.
  f_equal. apply int32_bytes_value.
Qed.

Lemma to_int32_small : forall x,
  0 <= x < 2147483648 -> to_int32 (x mod 4294967296) = x.
Proof.
  intros x H. rewrite Z.mod_small by lia. unfold to_int32.
  destruct (x <? 2147483648) eqn:E; [reflexivity | apply Z.ltb_ge in E; lia].
Qed.

Lemma ascii_of_byte_of_ascii : forall c, ascii_of_byte (byte_of_ascii c) = c.
Proof.
  intro c. unfold ascii_of_byte, byte_of_ascii. rewrite N2Z.id.
  apply ascii_N_embedding.
Qed.

(** A name stored with its terminating NUL is read back. *)
Lemma cstring_bytes : forall s rest,
  no_nul s = true -> cstring (bytes_of_string s ++ 0 :: rest) = OK s.
Proof.
  induction s as [| c s IH]; intros rest H.
  - reflexivity.
  - simpl in H. apply andb_true_iff in H. destruct H as [Hc Hs].
    unfold bytes_of_string. simpl.
    apply negb_true_iff in Hc. rewrite Hc.
    fold (bytes_of_string s). rewrite (IH rest Hs). simpl.
    rewrite ascii_of_byte_of_ascii. reflexivity.
Qed.

Lemma load_cstring_skip : forall a b addr,
  len a <= addr -> load_cstring (a ++ b) addr = load_cstring b (addr - len a).
Proof.
  intros a b addr H. unfold load_cstring, len in *.
  destruct (addr <? 0) eqn:E1; [apply Z.ltb_lt in E1; lia |].
  destruct (addr - Z.of_nat (List.length a) <? 0) eqn:E2;
    [apply Z.ltb_lt in E2; lia |].
  rewrite skipn_app. rewrite skipn_all2 by lia. simpl.
  replace (Z.to_nat addr - List.length a)%nat
    with (Z.to_nat (addr - Z.of_nat (List.length a))) by lia.
  reflexivity.
Qed.

Lemma load_cstring_here : forall s rest addr,
  addr = 0 -> no_nul s = true ->
  load_cstring (bytes_of_string s ++ [0] ++ rest) addr = OK s.
Proof.
  intros s rest addr -> H. unfold load_cstring. simpl. apply cstring_bytes, H.
Qed.

Lemma type_of_code_type_code : forall t, type_of_code (type_code t) = Some t.
Proof. destruct t; reflexivity. Qed.

Lemma INTALIGN_shift : forall x, INTALIGN (x - 8) = INTALIGN x - 8.
Proof.
  intro x. rewrite !INTALIGN_eq.
  replace (x - 8 + 3) with (x + 3 + (-2) * 4) by lia.
  rewrite Z.div_add by lia. lia.
Qed.

(** A cursor depends on the address [base + pos] alone. *)
Lemma init_content_base : forall mem t b p,
  init_content mem t b p = init_content mem t 0 (b + p).
Proof.
  intros mem t b p. unfold init_content, read_int32, read_int32_n.
  destruct t; try reflexivity; simpl;
    repeat (rewrite ?Z.add_0_l, ?Z.add_assoc;
            match goal with
            | |- bind (bind ?r _) _ = bind (bind ?r _) _ =>
                destruct r; simpl; try reflexivity
            | |- bind ?r _ = bind ?r _ => destruct r; simpl; try reflexivity
            | _ => idtac
            end);
    rewrite ?Z.add_0_l, ?Z.add_assoc; reflexivity.
Qed.

Lemma jspInitByBuffer_base : forall mem b p,
  jspInitByBuffer mem b p = jspInitByBuffer mem 0 (b + p).
Proof.
  intros mem b p. unfold jspInitByBuffer, read_byte, read_int32.
  rewrite ?Z.add_0_l, ?Z.sub_0_r.
  destruct (load_byte mem (b + p)) as [tag | |]; simpl; try reflexivity.
  rewrite ?Z.add_0_l, ?Z.sub_0_r, !(Z.add_assoc b p 1).
  set (q := INTALIGN (b + p + 1)).
  replace (b + (q - b)) with q by lia.
  destruct (load_uint32 mem q) as [nx | |]; simpl; try reflexivity.
  destruct (type_of_code tag) as [t |]; try reflexivity.
  rewrite init_content_base.
  replace (b + (q - b + 4)) with (q + 4) by lia.
  reflexivity.
Qed.

Lemma len_zero_nil : forall l : list Z, len l = 0 -> l = [].
Proof. intros [| x l] H; [reflexivity |]. rewrite len_cons in H. pose proof (len_nonneg l). lia. Qed.

Lemma split_slot : forall (slots : list Z) k r,
  len slots = k + r -> 0 <= k -> 0 <= r ->
  exists w rest,
    slots = w ++ rest /\ List.length w = Z.to_nat k /\ len w = k /\ len rest = r.
Proof.
  intros slots k r H Hk Hr.
  exists (firstn (Z.to_nat k) slots), (skipn (Z.to_nat k) slots).
  split; [symmetry; apply firstn_skipn |].
  unfold len in *. rewrite length_firstn, length_skipn. lia.
Qed.

(** Patching the four bytes at the start of a buffer. *)
Lemma store_int32_here : forall slot s off x,
  off = 0 -> List.length slot = 4%nat ->
  store_int32 (slot ++ s) off x = int32_bytes x ++ s.
Proof.
  intros slot s off x -> Hslot. unfold store_int32.
  destruct slot as [| b1 [| b2 [| b3 [| b4 [| b5 slot]]]]];
    try discriminate Hslot. reflexivity.
Qed.

Ltac store_norm :=
  repeat rewrite store_int32_app by len_lia;
  rewrite store_int32_here by (first [reflexivity | len_lia]).

Ltac store_norm_in H :=
  repeat rewrite store_int32_app in H by len_lia;
  rewrite store_int32_here in H by (first [reflexivity | len_lia]).

Ltac load_norm :=
  repeat rewrite load_uint32_skip by len_lia;
  rewrite load_uint32_here by len_lia.

(** The operands of an item, as [rec] lays them. *)
Section EncoderLayout.

Variable rec : flattener.
Variable ok : JsonPathParseItem -> bool.
Variable rd : list Z -> item_reader.

Hypothesis Hrec : forall buf c nl ias pos buf',
  rec buf c nl ias = OK (pos, buf') ->
  ok c = true ->
  exists s,
    buf' = buf ++ s /\ pos = len buf - 8
    /\ (len buf' < 2147483648 -> laid rd s pos c).

Lemma operand_laid : forall o pos buf nl ias chld b',
  match o with
  | Some l => rec buf l nl ias
  | None => OK (pos, buf)
  end = OK (chld, b') ->
  ok_opt ok o = true ->
  exists s,
    b' = buf ++ s
    /\ match o with
       | None => chld = pos /\ s = []
       | Some c =>
           chld = len buf - 8 /\ (len b' < 2147483648 -> laid rd s chld c)
       end.
Proof.
  intros o pos buf nl ias chld b' H Hok. destruct o as [c |].
  - destruct (Hrec _ _ _ _ _ _ H Hok) as (s & E & P & L).
    exists s. subst. auto.
  - inversion H; subst. exists []. rewrite app_nil_r. auto.
Qed.

Lemma reads_operand_laid : forall o pos q chld s b' pre post mem get,
  match o with
  | None => chld = pos /\ s = []
  | Some c => chld = q /\ (len b' < 2147483648 -> laid rd s chld c)
  end ->
  len b' < 2147483648 ->
  mem = pre ++ s ++ post ->
  len pre = q ->
  pos < q ->
  get = jspInitByBuffer mem pos (chld - pos) ->
  reads_operand (rd mem) (chld - pos) get o.
Proof.
  intros o pos q chld s b' pre post mem get H Hb Hmem Hpre Hq Hget.
  destruct o as [c |]; simpl.
  - destruct H as [-> L]. split; [lia |].
    destruct (L Hb pre post Hpre) as (v & Hv & R).
    exists v. subst mem get. rewrite jspInitByBuffer_base.
    replace (pos + (q - pos)) with q by lia. auto.
  - destruct H as [-> _]. lia.
Qed.

(** The two-operand cases: both displacements, then the operands. *)
Lemma flatten_args_laid : forall b1 item pos nl d ias b2,
  flatten_args rec b1 item pos nl d ias = OK b2 ->
  ok_opt ok (value_args_left item) = true ->
  ok_opt ok (value_args_right item) = true ->
  len b2 < 2147483648 ->
  pos < len b1 - 8 ->
  exists pl,
    b2 = b1 ++ pl
    /\ forall pre post,
         len pre = len b1 - 8 -> 0 <= pos ->
         let mem := pre ++ pl ++ post in
         exists l r,
           load_uint32 mem (len pre) = OK l
           /\ load_uint32 mem (len pre + 4) = OK r
           /\ forall v, base v = pos ->
                content v = c_args (to_int32 l) (to_int32 r) ->
                reads_operand (rd mem) (content_args_left v)
                  (jspGetLeftArg mem v) (value_args_left item)
                /\ reads_operand (rd mem) (content_args_right v)
                     (jspGetRightArg mem v) (value_args_right item).
Proof.
  intros b1 item pos nl d ias b2 H Hl Hr Hlen Hpos.
  unfold flatten_args, reserveSpaceForItemPointer in H. simpl in H.
  apply bind_OK in H. destruct H as [[chl bl] [Hcl H]].
  apply bind_OK in H. destruct H as [[chr br] [Hcr H]].
  inversion H; subst b2; clear H.
  destruct (operand_laid _ _ _ _ _ _ _ Hcl Hl) as (sl & El & Ll).
  subst bl. unfold appendBinaryStringInfo in *.
  rewrite <- !app_assoc in Hcr.
  store_norm_in Hcr.
  destruct (operand_laid _ _ _ _ _ _ _ Hcr Hr) as (sr & Er & Lr).
  subst br. rewrite <- !app_assoc in *.
  store_norm_in Hlen. store_norm.
  eexists. split; [reflexivity |].
  intros pre post Hpre Hp0.
  assert (Bl : 0 <= chl - pos < 2147483648).
  { destruct (value_args_left item); destruct Ll as [-> _]; len_lia. }
  assert (Br : 0 <= chr - pos < 2147483648).
  { destruct (value_args_right item); destruct Lr as [-> _]; len_lia. }
  rewrite <- !app_assoc.
  eexists. eexists.
  split; [load_norm; reflexivity |].
  split; [load_norm; reflexivity |].
  intros v Hbase Hc.
  unfold jspGetLeftArg, jspGetRightArg, content_args_left, content_args_right.
  rewrite Hc, Hbase. simpl. rewrite !to_int32_small by lia.
  split.
  - eapply (reads_operand_laid _ _ _ _ sl _
              (pre ++ int32_bytes (chl - pos) ++ int32_bytes (chr - pos))
              (sr ++ post));
      [exact Ll | len_lia | rewrite <- !app_assoc; reflexivity | len_lia
      | len_lia | reflexivity].
  - eapply (reads_operand_laid _ _ _ _ sr _
              (pre ++ int32_bytes (chl - pos) ++ int32_bytes (chr - pos) ++ sl)
              post);
      [exact Lr | len_lia | rewrite <- !app_assoc; reflexivity | len_lia
      | len_lia | reflexivity].
Qed.

(** The one-operand cases. *)
Lemma flatten_arg_laid : forall ext b1 item pos nl d ias b2,
  flatten_arg rec ext b1 item pos nl d ias = OK b2 ->
  ok_opt ok (value_arg item) = true ->
  len b2 < 2147483648 ->
  pos < len b1 - 8 ->
  exists pl,
    b2 = b1 ++ pl
    /\ forall pre post,
         len pre = len b1 - 8 -> 0 <= pos ->
         let mem := pre ++ pl ++ post in
         exists a,
           load_uint32 mem (len pre) = OK a
           /\ forall v, base v = pos -> content v = c_arg (to_int32 a) ->
                reads_operand (rd mem) (content_arg v) (jspGetArg mem v)
                  (value_arg item).
Proof.
  intros ext b1 item pos nl d ias b2 H Ha Hlen Hpos.
  unfold flatten_arg, reserveSpaceForItemPointer in H. simpl in H.
  apply bind_OK in H. destruct H as [[] [_ H]].
  unfold appendBinaryStringInfo in *.
  destruct (value_arg item) as [a |] eqn:Ea.
  - apply bind_OK in H. destruct H as [[chld b] [Hc H]].
    inversion H; subst b2; clear H.
    destruct (Hrec _ _ _ _ _ _ Hc Ha) as (sa & E & P & L). subst b.
    rewrite <- !app_assoc in *.
    store_norm_in Hlen. store_norm.
    eexists. split; [reflexivity |].
    intros pre post Hpre Hp0.
    assert (B : 0 <= chld - pos < 2147483648) by len_lia.
    rewrite <- !app_assoc.
    eexists. split; [load_norm; reflexivity |].
    intros v Hbase Hc'. unfold jspGetArg, content_arg.
    rewrite Hc', Hbase. simpl. rewrite !to_int32_small by lia.
    split; [len_lia |].
    destruct (L ltac:(len_lia) (pre ++ int32_bytes (chld - pos)) post
                ltac:(len_lia)) as (w & Hw & R).
    exists w. rewrite jspInitByBuffer_base.
    replace (pos + (chld - pos)) with chld by lia.
    rewrite <- ?app_assoc in Hw; rewrite <- ?app_assoc in R. auto.
  - inversion H; subst b2; clear H.
    eexists. split; [reflexivity |].
    intros pre post Hpre Hp0.
    eexists. split; [load_norm; reflexivity |].
    intros v Hbase Hc'. unfold content_arg. rewrite Hc'. simpl. reflexivity.
Qed.

Lemma flatten_like_regex_laid : forall b1 item pos nl ias b2,
  flatten_like_regex rec b1 item pos nl ias = OK b2 ->
  ok_opt ok (value_like_regex_expr item) = true ->
  no_nul (value_like_regex_pattern item) = true ->
  is_uint32 (value_like_regex_flags item) = true ->
  len b2 < 2147483648 ->
  pos < len b1 - 8 ->
  exists pl,
    b2 = b1 ++ pl
    /\ forall pre post,
         len pre = len b1 - 8 -> 0 <= pos ->
         let mem := pre ++ pl ++ post in
         exists f e n,
           load_uint32 mem (len pre) = OK f
           /\ load_uint32 mem (len pre + 4) = OK e
           /\ load_uint32 mem (len pre + 4 + 4) = OK n
           /\ forall v, base v = pos ->
                content v
                = c_like_regex (to_int32 e) (len pre + 4 + 4 + 4) (to_int32 n) f ->
                content_like_regex_flags v = value_like_regex_flags item
                /\ load_cstring mem (content_like_regex_pattern v)
                   = OK (value_like_regex_pattern item)
                /\ exists e a,
                     value_like_regex_expr item = Some e
                     /\ jspInitByBuffer mem (base v) (content_like_regex_expr v)
                        = OK a
                     /\ rd mem a e.
Proof.
  intros b1 item pos nl ias b2 H He Hnul Hfl Hlen Hpos.
  unfold flatten_like_regex, reserveSpaceForItemPointer in H. simpl in H.
  unfold appendBinaryStringInfo, appendStringInfoChar in *.
  destruct (value_like_regex_expr item) as [e |] eqn:Ee; [| discriminate H].
  apply bind_OK in H. destruct H as [[chld b] [Hc H]].
  inversion H; subst b2; clear H.
  destruct (Hrec _ _ _ _ _ _ Hc He) as (se & E & P & L). subst b.
  rewrite <- !app_assoc in *.
  store_norm_in Hlen. store_norm.
  eexists. split; [reflexivity |].
  intros pre post Hpre Hp0.
  assert (B : 0 <= chld - pos < 2147483648) by len_lia.
  assert (Bs : 0 <= strlen (value_like_regex_pattern item) < 2147483648)
    by len_lia.
  rewrite <- !app_assoc.
  do 3 eexists.
  split; [load_norm; reflexivity |].
  split; [load_norm; reflexivity |].
  split; [load_norm; reflexivity |].
  intros v Hbase Hc'.
  unfold content_like_regex_flags, content_like_regex_pattern,
    content_like_regex_expr. rewrite Hc', Hbase. cbv beta iota.
  unfold is_uint32 in Hfl. apply andb_true_iff in Hfl. destruct Hfl as [F1 F2].
  apply Z.leb_le in F1. apply Z.ltb_lt in F2.
  split; [apply Z.mod_small; lia |].
  split.
  - repeat rewrite load_cstring_skip by len_lia.
    apply load_cstring_here; [len_lia | exact Hnul].
  - exists e.
    destruct (L ltac:(len_lia)
                (pre ++ int32_bytes (value_like_regex_flags item)
                   ++ int32_bytes (chld - pos)
                   ++ int32_bytes (strlen (value_like_regex_pattern item))
                   ++ bytes_of_string (value_like_regex_pattern item) ++ [0])
                post ltac:(len_lia)) as (w & Hw & R).
    exists w. rewrite to_int32_small by lia. rewrite jspInitByBuffer_base.
    replace (pos + (chld - pos)) with chld by lia.
    rewrite <- ?app_assoc in Hw; rewrite <- ?app_assoc in R. auto.
Qed.

(** The loops: [A] ends with the slots already patched, [slots] are those
    still to patch, [sofar] holds the items already written. *)
Lemma flatten_elements_laid : forall pos nl ias elems A slots sofar offset b2,
  flatten_elements rec pos offset nl ias elems (A ++ slots ++ sofar) = OK b2 ->
  offset = len A ->
  len slots = 4 * Z.of_nat (List.length elems) ->
  forallb ok elems = true ->
  exists table more,
    b2 = A ++ table ++ sofar ++ more
    /\ len table = len slots
    /\ (len b2 < 2147483648 -> pos < len A - 8 -> 0 <= pos ->
        forall pre post, len pre = len A - 8 ->
          forall i e, nth_error elems i = Some e ->
            exists d a,
              load_uint32 (pre ++ table ++ sofar ++ more ++ post)
                (len pre + 4 * Z.of_nat i) = OK d
              /\ jspInitByBuffer (pre ++ table ++ sofar ++ more ++ post) pos
                   (to_int32 d) = OK a
              /\ rd (pre ++ table ++ sofar ++ more ++ post) a e).
Proof.
  intros pos nl ias.
  induction elems as [| e rest IH]; intros A slots sofar offset b2 H Hoff Hsl Hok.
  - simpl in H. inversion H; subst b2; clear H.
    exists [], []. rewrite app_nil_r.
    assert (slots = []) by (apply len_zero_nil; simpl in Hsl; lia). subst slots.
    split; [reflexivity |]. split; [reflexivity |].
    intros _ _ _ pre post _ i e Hnth. destruct i; discriminate Hnth.
  - simpl in H, Hok. apply andb_true_iff in Hok. destruct Hok as [Hoke Hokr].
    apply bind_OK in H. destruct H as [[p b'] [He H]].
    destruct (Hrec _ _ _ _ _ _ He Hoke) as (se & E & P & L). subst b'.
    destruct (split_slot slots 4 (4 * Z.of_nat (List.length rest)))
      as (w & slots' & Es & Hw & Hw' & Hs'); [simpl List.length in Hsl; lia | lia | lia |].
    subst slots offset. rewrite <- !app_assoc in *.
    store_norm_in H.
    replace (A ++ int32_bytes (p - pos) ++ slots' ++ sofar ++ se)
      with ((A ++ int32_bytes (p - pos)) ++ slots' ++ (sofar ++ se)) in H
      by (rewrite <- !app_assoc; reflexivity).
    destruct (IH _ _ _ _ _ H ltac:(len_lia) Hs' Hokr)
      as (table' & more' & E2 & Ht & R).
    exists (int32_bytes (p - pos) ++ table'), (se ++ more').
    split; [subst b2; rewrite <- !app_assoc; reflexivity |].
    split; [len_lia |].
    intros Hlen Hpos Hp0 pre post Hpre i e' Hnth.
    subst b2. rewrite <- !app_assoc in *.
    destruct i as [| j].
    + simpl in Hnth. inversion Hnth; subst e'; clear Hnth.
      assert (B : 0 <= p - pos < 2147483648) by len_lia.
      destruct (L ltac:(len_lia)
                  (pre ++ int32_bytes (p - pos) ++ table' ++ sofar)
                  (more' ++ post) ltac:(len_lia)) as (a & Ha & Ra).
      rewrite <- ?app_assoc in Ha; rewrite <- ?app_assoc in Ra.
      exists ((p - pos) mod 4294967296), a.
      split; [load_norm; reflexivity |].
      rewrite to_int32_small by lia. rewrite jspInitByBuffer_base.
      replace (pos + (p - pos)) with p by lia. auto.
    + simpl in Hnth.
      destruct (R ltac:(len_lia) ltac:(len_lia) Hp0
                  (pre ++ int32_bytes (p - pos)) post ltac:(len_lia)
                  j e' Hnth) as (d & a & Hd & Ha & Ra).
      rewrite <- ?app_assoc in Hd; rewrite <- ?app_assoc in Ha; rewrite <- ?app_assoc in Ra.
      exists d, a.
      replace (len pre + 4 * Z.of_nat (S j))
        with (len (pre ++ int32_bytes (p - pos)) + 4 * Z.of_nat j) by len_lia.
      auto.
Qed.

Lemma flatten_fields_laid : forall pos nl ias fields A slots sofar offset b2,
  flatten_fields rec pos offset nl ias fields (A ++ slots ++ sofar) = OK b2 ->
  offset = len A ->
  len slots = 8 * Z.of_nat (List.length fields) ->
  forallb (fun f => ok (fst f) && ok (snd f)) fields = true ->
  exists table more,
    b2 = A ++ table ++ sofar ++ more
    /\ len table = len slots
    /\ (len b2 < 2147483648 -> pos < len A - 8 -> 0 <= pos ->
        forall pre post, len pre = len A - 8 ->
          forall i k w, nth_error fields i = Some (k, w) ->
            exists dk dw key val,
              load_uint32 (pre ++ table ++ sofar ++ more ++ post)
                (len pre + 8 * Z.of_nat i) = OK dk
              /\ load_uint32 (pre ++ table ++ sofar ++ more ++ post)
                   (len pre + 8 * Z.of_nat i + 4) = OK dw
              /\ jspInitByBuffer (pre ++ table ++ sofar ++ more ++ post) pos
                   (to_int32 dk) = OK key
              /\ jspInitByBuffer (pre ++ table ++ sofar ++ more ++ post) pos
                   (to_int32 dw) = OK val
              /\ rd (pre ++ table ++ sofar ++ more ++ post) key k
              /\ rd (pre ++ table ++ sofar ++ more ++ post) val w).
Proof.
  intros pos nl ias.
  induction fields as [| [k w] rest IH];
    intros A slots sofar offset b2 H Hoff Hsl Hok.
  - simpl in H. inversion H; subst b2; clear H.
    exists [], []. rewrite app_nil_r.
    assert (slots = []) by (apply len_zero_nil; simpl in Hsl; lia). subst slots.
    split; [reflexivity |]. split; [reflexivity |].
    intros _ _ _ pre post _ i e f Hnth. destruct i; discriminate Hnth.
  - simpl in H, Hok. apply andb_true_iff in Hok. destruct Hok as [Hok1 Hokr].
    apply andb_true_iff in Hok1. destruct Hok1 as [Hokk Hokw].
    apply bind_OK in H. destruct H as [[pk bk] [Hk H]].
    destruct (Hrec _ _ _ _ _ _ Hk Hokk) as (sk & Ek & Pk & Lk). subst bk.
    apply bind_OK in H. destruct H as [[pw bw] [Hw H]].
    destruct (Hrec _ _ _ _ _ _ Hw Hokw) as (sw & Ew & Pw & Lw). subst bw.
    destruct (split_slot slots 4 (4 + 8 * Z.of_nat (List.length rest)))
      as (w1 & slots1 & Es1 & Hw1 & Hw1' & Hs1);
      [simpl List.length in Hsl; lia | lia | lia |].
    destruct (split_slot slots1 4 (8 * Z.of_nat (List.length rest)))
      as (w2 & slots' & Es2 & Hw2 & Hw2' & Hs');
      [lia | lia | lia |].
    subst slots slots1 offset. rewrite <- !app_assoc in *.
    store_norm_in H. store_norm_in H.
    replace (A ++ int32_bytes (pk - pos) ++ int32_bytes (pw - pos) ++ slots'
               ++ sofar ++ sk ++ sw)
      with ((A ++ int32_bytes (pk - pos) ++ int32_bytes (pw - pos)) ++ slots'
              ++ (sofar ++ sk ++ sw)) in H
      by (rewrite <- !app_assoc; reflexivity).
    destruct (IH _ _ _ _ _ H ltac:(len_lia) Hs' Hokr)
      as (table' & more' & E2 & Ht & R).
    exists (int32_bytes (pk - pos) ++ int32_bytes (pw - pos) ++ table'),
      (sk ++ sw ++ more').
    split; [subst b2; rewrite <- !app_assoc; reflexivity |].
    split; [len_lia |].
    intros Hlen Hpos Hp0 pre post Hpre i k' w' Hnth.
    subst b2. rewrite <- !app_assoc in *.
    destruct i as [| j].
    + simpl in Hnth. inversion Hnth; subst k' w'; clear Hnth.
      assert (Bk : 0 <= pk - pos < 2147483648) by len_lia.
      assert (Bw : 0 <= pw - pos < 2147483648) by len_lia.
      destruct (Lk ltac:(len_lia)
                  (pre ++ int32_bytes (pk - pos) ++ int32_bytes (pw - pos)
                     ++ table' ++ sofar)
                  (sw ++ more' ++ post) ltac:(len_lia)) as (key & Hkey & Rk).
      destruct (Lw ltac:(len_lia)
                  (pre ++ int32_bytes (pk - pos) ++ int32_bytes (pw - pos)
                     ++ table' ++ sofar ++ sk)
                  (more' ++ post) ltac:(len_lia)) as (val & Hval & Rw).
      rewrite <- ?app_assoc in Hkey; rewrite <- ?app_assoc in Rk; rewrite <- ?app_assoc in Hval; rewrite <- ?app_assoc in Rw.
      exists ((pk - pos) mod 4294967296), ((pw - pos) mod 4294967296), key, val.
      split; [load_norm; reflexivity |].
      split; [load_norm; reflexivity |].
      rewrite !to_int32_small by lia.
      rewrite (jspInitByBuffer_base _ pos (pk - pos)).
      rewrite (jspInitByBuffer_base _ pos (pw - pos)).
      replace (pos + (pk - pos)) with pk by lia.
      replace (pos + (pw - pos)) with pw by lia. auto 10.
    + simpl in Hnth.
      destruct (R ltac:(len_lia) ltac:(len_lia) Hp0
                  (pre ++ int32_bytes (pk - pos) ++ int32_bytes (pw - pos))
                  post ltac:(len_lia) j k' w' Hnth)
        as (dk & dw & key & val & Hdk & Hdw & Hkey & Hval & Rk & Rw).
      rewrite <- ?app_assoc in Hdk; rewrite <- ?app_assoc in Hdw; rewrite <- ?app_assoc in Hkey; rewrite <- ?app_assoc in Hval; rewrite <- ?app_assoc in Rk; rewrite <- ?app_assoc in Rw.
      exists dk, dw, key, val.
      replace (len pre + 8 * Z.of_nat (S j))
        with (len (pre ++ int32_bytes (pk - pos) ++ int32_bytes (pw - pos))
              + 8 * Z.of_nat j) by len_lia.
      auto 10.
Qed.

Lemma flatten_subscripts_laid : forall pos nl offset elems i A slots sofar b2,
  flatten_subscripts rec pos offset nl elems i (A ++ slots ++ sofar) = OK b2 ->
  offset + i * 2 * 4 = len A ->
  len slots = 8 * Z.of_nat (List.length elems) ->
  forallb (fun e => ok (fst e) && ok_opt ok (snd e)) elems = true ->
  exists table more,
    b2 = A ++ table ++ sofar ++ more
    /\ len table = len slots
    /\ (len b2 < 2147483648 -> pos < len A - 8 -> 0 <= pos ->
        forall pre post, len pre = len A - 8 ->
          forall j from to, nth_error elems j = Some (from, to) ->
            exists df dt f,
              load_uint32 (pre ++ table ++ sofar ++ more ++ post)
                (len pre + 8 * Z.of_nat j) = OK df
              /\ load_uint32 (pre ++ table ++ sofar ++ more ++ post)
                   (len pre + 8 * Z.of_nat j + 4) = OK dt
              /\ jspInitByBuffer (pre ++ table ++ sofar ++ more ++ post) pos
                   (to_int32 df) = OK f
              /\ rd (pre ++ table ++ sofar ++ more ++ post) f from
              /\ match to with
                 | None => to_int32 dt = 0
                 | Some to' =>
                     to_int32 dt <> 0
                     /\ exists t,
                          jspInitByBuffer (pre ++ table ++ sofar ++ more ++ post)
                            pos (to_int32 dt) = OK t
                          /\ rd (pre ++ table ++ sofar ++ more ++ post) t to'
                 end).
Proof.
  intros pos nl offset.
  induction elems as [| [from to] rest IH];
    intros i A slots sofar b2 H Hoff Hsl Hok.
  - simpl in H. inversion H; subst b2; clear H.
    exists [], []. rewrite app_nil_r.
    assert (slots = []) by (apply len_zero_nil; simpl in Hsl; lia). subst slots.
    split; [reflexivity |]. split; [reflexivity |].
    intros _ _ _ pre post _ j e f Hnth. destruct j; discriminate Hnth.
  - simpl in H, Hok. apply andb_true_iff in Hok. destruct Hok as [Hok1 Hokr].
    apply andb_true_iff in Hok1. destruct Hok1 as [Hokf Hokt].
    apply bind_OK in H. destruct H as [[pf bf] [Hf H]].
    destruct (Hrec _ _ _ _ _ _ Hf Hokf) as (sf & Ef & Pf & Lf). subst bf.
    apply bind_OK in H. destruct H as [[topos bt] [Ht H]].
    assert (Et : exists st,
               bt = (A ++ slots ++ sofar) ++ sf ++ st
               /\ match to with
                  | None => topos = 0 /\ st = []
                  | Some to' =>
                      topos = len ((A ++ slots ++ sofar) ++ sf) - 8 - pos
                      /\ (len bt < 2147483648 ->
                          laid rd st (topos + pos) to')
                  end).
    { destruct to as [to' |].
      - apply bind_OK in Ht. destruct Ht as [[pt b] [Ht E]].
        inversion E; subst topos bt; clear E.
        destruct (Hrec _ _ _ _ _ _ Ht Hokt) as (st & Et & Pt & Lt). subst b.
        exists st. rewrite <- !app_assoc. split; [reflexivity |].
        split; [len_lia |].
        replace (pt - pos + pos) with pt by lia.
        rewrite <- !app_assoc in Lt. exact Lt.
      - inversion Ht; subst topos bt; clear Ht.
        exists []. rewrite !app_nil_r. auto. }
    destruct Et as (st & Ebt & Lt). subst bt.
    destruct (split_slot slots 4 (4 + 8 * Z.of_nat (List.length rest)))
      as (w1 & slots1 & Es1 & Hw1 & Hw1' & Hs1);
      [simpl List.length in Hsl; lia | lia | lia |].
    destruct (split_slot slots1 4 (8 * Z.of_nat (List.length rest)))
      as (w2 & slots' & Es2 & Hw2 & Hw2' & Hs');
      [lia | lia | lia |].
    subst slots slots1. rewrite <- !app_assoc in *.
    store_norm_in H. store_norm_in H.
    replace (A ++ int32_bytes (pf - pos) ++ int32_bytes topos ++ slots'
               ++ sofar ++ sf ++ st)
      with ((A ++ int32_bytes (pf - pos) ++ int32_bytes topos) ++ slots'
              ++ (sofar ++ sf ++ st)) in H
      by (rewrite <- !app_assoc; reflexivity).
    destruct (IH _ _ _ _ _ H ltac:(len_lia) Hs' Hokr)
      as (table' & more' & E2 & Htab & R).
    exists (int32_bytes (pf - pos) ++ int32_bytes topos ++ table'),
      (sf ++ st ++ more').
    split; [subst b2; rewrite <- !app_assoc; reflexivity |].
    split; [len_lia |].
    intros Hlen Hpos Hp0 pre post Hpre j from' to' Hnth.
    subst b2. rewrite <- !app_assoc in *.
    destruct j as [| j].
    + simpl in Hnth. inversion Hnth; subst from' to'; clear Hnth.
      assert (Bf : 0 <= pf - pos < 2147483648) by len_lia.
      assert (Bt : 0 <= topos < 2147483648).
      { destruct to; destruct Lt as [-> _]; len_lia. }
      destruct (Lf ltac:(len_lia)
                  (pre ++ int32_bytes (pf - pos) ++ int32_bytes topos
                     ++ table' ++ sofar)
                  (st ++ more' ++ post) ltac:(len_lia)) as (f & Hfr & Rf).
      rewrite <- ?app_assoc in Hfr; rewrite <- ?app_assoc in Rf.
      exists ((pf - pos) mod 4294967296), (topos mod 4294967296), f.
      split; [load_norm; reflexivity |].
      split; [load_norm; reflexivity |].
      rewrite !to_int32_small by lia.
      rewrite (jspInitByBuffer_base _ pos (pf - pos)).
      replace (pos + (pf - pos)) with pf by lia.
      split; [exact Hfr |]. split; [exact Rf |].
      destruct to as [to' |].
      * destruct Lt as [Et Lt]. split; [len_lia |].
        destruct (Lt ltac:(len_lia)
                    (pre ++ int32_bytes (pf - pos) ++ int32_bytes topos
                       ++ table' ++ sofar ++ sf)
                    (more' ++ post) ltac:(len_lia)) as (t & Hto & Rt).
        rewrite <- ?app_assoc in Hto; rewrite <- ?app_assoc in Rt.
        exists t. rewrite jspInitByBuffer_base.
        replace (pos + topos) with (topos + pos) by lia. auto.
      * destruct Lt as [-> _]. reflexivity.
    + simpl in Hnth.
      destruct (R ltac:(len_lia) ltac:(len_lia) Hp0
                  (pre ++ int32_bytes (pf - pos) ++ int32_bytes topos)
                  post ltac:(len_lia) j from' to' Hnth)
        as (df & dt & f & Hdf & Hdt & Hfr & Rf & Rt).
      rewrite <- ?app_assoc in Hdf; rewrite <- ?app_assoc in Hdt; rewrite <- ?app_assoc in Hfr; rewrite <- ?app_assoc in Rf; rewrite <- ?app_assoc in Rt.
      exists df, dt, f.
      replace (len pre + 8 * Z.of_nat (S j))
        with (len (pre ++ int32_bytes (pf - pos) ++ int32_bytes topos)
              + 8 * Z.of_nat j) by len_lia.
      auto 10.
Qed.

End EncoderLayout.

Lemma skipn_firstn_middle : forall (pre x post : list Z),
  firstn (List.length x) (skipn (Z.to_nat (len pre)) (pre ++ x ++ post)) = x.
Proof.
  intros pre x post. unfold len. rewrite Nat2Z.id.
  rewrite skipn_app, skipn_all, Nat.sub_diag. simpl.
  rewrite firstn_app, firstn_all, Nat.sub_diag. simpl. apply app_nil_r.
Qed.

Lemma read_int32_0 : forall mem p,
  read_int32 mem 0 p = (v <- load_uint32 mem p ;; OK (v, p + 4)).
Proof. intros. unfold read_int32. rewrite Z.add_0_l. reflexivity. Qed.

Section PayloadLayout.

Variable rec : flattener.
Variable ok : JsonPathParseItem -> bool.
Variable rd : list Z -> item_reader.

Hypothesis Hrec : forall buf c nl ias pos buf',
  rec buf c nl ias = OK (pos, buf') ->
  ok c = true ->
  exists s,
    buf' = buf ++ s /\ pos = len buf - 8
    /\ (len buf' < 2147483648 -> laid rd s pos c).

Lemma oks_app : forall a b, oks ok (a ++ b) = oks ok a && oks ok b.
Proof. intros. apply forallb_app. Qed.

Lemma oks_with_context : forall nl ias o,
  oks ok (with_context nl ias o) = ok_opt ok o.
Proof. intros nl ias [c |]; simpl; [apply andb_true_r | reflexivity]. Qed.

Lemma oks_subscripts : forall nl elems,
  oks ok (flat_map (fun e => (nl, true, fst e) :: with_context nl true (snd e))
         elems)
  = forallb (fun e => ok (fst e) && ok_opt ok (snd e)) elems.
Proof.
  intros nl. induction elems as [| [f t] rest IH]; [reflexivity |].
  simpl. unfold oks in *. rewrite forallb_app. fold (oks ok (with_context nl true t)).
  rewrite oks_with_context, IH. simpl. rewrite andb_assoc. reflexivity.
Qed.

Lemma oks_elements : forall nl ias elems,
  oks ok (map (fun e => (nl, ias, e)) elems) = forallb ok elems.
Proof.
  intros nl ias. induction elems as [| e rest IH]; [reflexivity |].
  simpl. unfold oks in *. rewrite IH. reflexivity.
Qed.

Lemma oks_fields : forall nl ias fields,
  oks ok (flat_map (fun f => [(nl, ias, fst f); (nl, ias, snd f)]) fields)
  = forallb (fun f => ok (fst f) && ok (snd f)) fields.
Proof.
  intros nl ias. induction fields as [| [k w] rest IH]; [reflexivity |].
  simpl. unfold oks in *. simpl in IH. rewrite IH. rewrite andb_assoc. reflexivity.
Qed.

Ltac leaf_case H :=
  inversion H; subst; clear H;
  exists []; split; [rewrite app_nil_r; reflexivity |];
  intros pre post Hpre Hp0; eexists; split; [reflexivity |];
  intros v Htv Hbase Hc; exact I.

Ltac string_case H Hown :=
  inversion H; subst; clear H;
  unfold appendBinaryStringInfo, appendStringInfoChar in *;
  rewrite <- !app_assoc in *;
  eexists; split; [reflexivity |];
  intros pre post Hpre Hp0; rewrite <- !app_assoc;
  unfold init_content; rewrite read_int32_0; load_norm; cbn [bind];
  eexists; split; [reflexivity |];
  intros v Htv Hbase Hc;
  unfold jspGetString, content_value_data, content_value_datalen;
  rewrite Hc; cbv beta iota;
  rewrite to_int32_small by len_lia;
  repeat rewrite load_cstring_skip by len_lia;
  rewrite load_cstring_here by (first [exact Hown | len_lia]);
  reflexivity.

(** The [switch] of the encoder against the [switch] of [jspInitByBuffer]. *)
Lemma flatten_payload_laid : forall ext b1 item pos nl ias b2,
  flatten_payload rec ext b1 item pos nl ias = OK b2 ->
  own_values_ok item = true ->
  oks ok (payload_children 0 false item) = true ->
  len b2 < 2147483648 ->
  pos < len b1 - 8 ->
  payload_laid rd b1 b2 pos item.
Proof.
  intros ext b1 item pos nl ias b2 H Hown Hoks Hlen Hpos.
  unfold flatten_payload in H. unfold own_values_ok in Hown.
  unfold payload_children in Hoks.
  unfold payload_laid, reads_payload.
  destruct (item_type item) eqn:Ht;
    try (leaf_case H; fail);
    try (match type of H with (if ?c then _ else _) = _ => destruct c end;
         [discriminate H | leaf_case H]; fail);
    try (discriminate H);
    try (rewrite oks_app, !oks_with_context in Hoks;
         apply andb_true_iff in Hoks; destruct Hoks as [Hl Hr];
         destruct (flatten_args_laid rec ok rd Hrec _ _ _ _ _ _ _ H Hl Hr
                     Hlen Hpos) as (pl & E & R);
         exists pl; split; [exact E |];
         intros pre post Hpre Hp0;
         destruct (R pre post Hpre Hp0) as (l & r & Hl' & Hr' & R');
         unfold init_content;
         rewrite read_int32_0, Hl'; cbn [bind];
         rewrite read_int32_0, Hr'; cbn [bind];
         eexists; split; [reflexivity |];
         intros v Htv Hbase Hc; apply R'; assumption);
    try (rewrite oks_with_context in Hoks;
         destruct (flatten_arg_laid rec ok rd Hrec _ _ _ _ _ _ _ _ H Hoks
                     Hlen Hpos) as (pl & E & R);
         exists pl; split; [exact E |];
         intros pre post Hpre Hp0;
         destruct (R pre post Hpre Hp0) as (a & Ha & R');
         unfold init_content;
         rewrite read_int32_0, Ha; cbn [bind];
         eexists; split; [reflexivity |];
         intros v Htv Hbase Hc; apply R'; assumption).
  - (* jpiString *) string_case H Hown.
  - (* jpiNumeric *)
    inversion H; subst b2; clear H. unfold appendBinaryStringInfo in *.
    eexists. split; [reflexivity |].
    intros pre post Hpre Hp0. eexists. split; [reflexivity |].
    intros v Htv Hbase Hc. unfold jspGetNumeric, content_value_data.
    rewrite Hc. cbv beta iota. rewrite Z.add_0_l.
    split; [len_lia | apply skipn_firstn_middle].
  - (* jpiBool *)
    inversion H; subst b2; clear H. unfold appendBinaryStringInfo in *.
    eexists. split; [reflexivity |].
    intros pre post Hpre Hp0. eexists. split; [reflexivity |].
    intros v Htv Hbase Hc. unfold jspGetBool, content_value_data.
    rewrite Hc. cbv beta iota. rewrite Z.add_0_l.
    rewrite load_byte_skip by len_lia.
    rewrite load_byte_here by len_lia. cbn [bind].
    destruct (value_boolean item); reflexivity.
  - (* jpiIndexArray *)
    cbv zeta in H. unfold appendBinaryStringInfo, appendStringInfoSpaces in H.
    set (n := Z.of_nat (List.length (value_array_elems item))) in *.
    replace ((b1 ++ int32_bytes n) ++ repeat 32 (Z.to_nat (4 * 2 * n)))
      with ((b1 ++ int32_bytes n) ++ repeat 32 (Z.to_nat (4 * 2 * n)) ++ [])
      in H by (rewrite app_nil_r; reflexivity).
    rewrite oks_subscripts in Hoks.
    destruct (flatten_subscripts_laid rec ok rd Hrec _ _ _ _ _ _ _ _ _ H
                ltac:(lia) ltac:(len_lia) Hoks)
      as (table & more & E & Htab & R).
    simpl app in E. rewrite <- !app_assoc in E.
    eexists. split; [exact E |].
    intros pre post Hpre Hp0.
    assert (Bn : 0 <= n < 2147483648) by (subst b2; len_lia).
    rewrite <- !app_assoc.
    unfold init_content. rewrite read_int32_0. load_norm. cbn [bind].
    unfold read_int32_n. rewrite to_int32_small by lia.
    eexists. split; [reflexivity |].
    intros v Htv Hbase Hc.
    unfold content_array_nelems. rewrite Hc. cbv beta iota.
    split; [reflexivity |].
    intros i from to Hnth.
    destruct (R ltac:(subst b2; len_lia) ltac:(len_lia) Hp0
                (pre ++ int32_bytes n) post ltac:(len_lia) i from to Hnth)
      as (df & dt & f & Hdf & Hdt & Hf & Rf & Rt).
    simpl app in Hdf, Hdt, Hf, Rf, Rt.
    rewrite <- ?app_assoc in Hdf; rewrite <- ?app_assoc in Hdt;
      rewrite <- ?app_assoc in Hf; rewrite <- ?app_assoc in Rf;
      rewrite <- ?app_assoc in Rt.
    unfold jspGetArraySubscript, content_array_elems.
    rewrite Hc, Hbase. cbv beta iota.
    replace (0 + (len pre + 4) + 8 * Z.of_nat i)
      with (len (pre ++ int32_bytes n) + 8 * Z.of_nat i) by len_lia.
    rewrite Hdf. cbn [bind]. rewrite Hf. cbn [bind]. rewrite Hdt. cbn [bind].
    destruct to as [to' |].
    + destruct Rt as (Hne & t & Ht' & Rt).
      apply Z.eqb_neq in Hne. rewrite Hne. rewrite Ht'. cbn [bind].
      exists f, (Some t). auto.
    + rewrite Rt. rewrite Z.eqb_refl. exists f, None. auto.
  - (* jpiAny *)
    inversion H; subst b2; clear H. unfold appendBinaryStringInfo in *.
    rewrite <- !app_assoc in *.
    apply andb_true_iff in Hown. destruct Hown as [Hf Hl].
    unfold is_uint32 in Hf, Hl.
    apply andb_true_iff in Hf. destruct Hf as [F1 F2].
    apply andb_true_iff in Hl. destruct Hl as [L1 L2].
    apply Z.leb_le in F1, L1. apply Z.ltb_lt in F2, L2.
    eexists. split; [reflexivity |].
    intros pre post Hpre Hp0. rewrite <- !app_assoc.
    unfold init_content. rewrite read_int32_0. load_norm. cbn [bind].
    rewrite read_int32_0. load_norm. cbn [bind].
    eexists. split; [reflexivity |].
    intros v Htv Hbase Hc.
    unfold content_anybounds_first, content_anybounds_last.
    rewrite Hc. cbv beta iota. split; apply Z.mod_small; lia.
  - (* jpiKey *) string_case H Hown.
  - (* jpiVariable *) string_case H Hown.
  - (* jpiLikeRegex *)
    rewrite oks_with_context in Hoks.
    apply andb_true_iff in Hown. destruct Hown as [Hnul Hfl].
    destruct (flatten_like_regex_laid rec ok rd Hrec _ _ _ _ _ _ H Hoks Hnul
                Hfl Hlen Hpos) as (pl & E & R).
    exists pl. split; [exact E |].
    intros pre post Hpre Hp0.
    destruct (R pre post Hpre Hp0) as (f & e & n & Hf & He & Hn & R').
    unfold init_content.
    rewrite read_int32_0, Hf. cbn [bind].
    rewrite read_int32_0, He. cbn [bind].
    rewrite read_int32_0, Hn. cbn [bind].
    eexists. split; [reflexivity |].
    intros v Htv Hbase Hc. apply R'; [exact Hbase |].
    rewrite Hc. rewrite Z.add_0_l. reflexivity.
  - (* jpiSequence *)
    apply bind_OK in H. destruct H as [[] [Hext H]].
    cbv zeta in H. unfold appendBinaryStringInfo, appendStringInfoSpaces in H.
    set (n := Z.of_nat (List.length (value_sequence_elems item))) in *.
    replace ((b1 ++ int32_bytes n) ++ repeat 32 (Z.to_nat (4 * n)))
      with ((b1 ++ int32_bytes n) ++ repeat 32 (Z.to_nat (4 * n)) ++ [])
      in H by (rewrite app_nil_r; reflexivity).
    rewrite oks_elements in Hoks.
    destruct (flatten_elements_laid rec ok rd Hrec _ _ _ _ _ _ _ _ _ H
                ltac:(reflexivity) ltac:(len_lia) Hoks)
      as (table & more & E & Htab & R).
    simpl app in E. rewrite <- !app_assoc in E.
    eexists. split; [exact E |].
    intros pre post Hpre Hp0.
    assert (Bn : 0 <= n < 2147483648) by (subst b2; len_lia).
    rewrite <- !app_assoc.
    unfold init_content. rewrite read_int32_0. load_norm. cbn [bind].
    unfold read_int32_n. rewrite to_int32_small by lia.
    eexists. split; [reflexivity |].
    intros v Htv Hbase Hc.
    unfold content_sequence_nelems. rewrite Hc. cbv beta iota.
    split; [reflexivity |].
    intros i e Hnth.
    destruct (R ltac:(subst b2; len_lia) ltac:(len_lia) Hp0
                (pre ++ int32_bytes n) post ltac:(len_lia) i e Hnth)
      as (d & a & Hd & Ha & Ra).
    simpl app in Hd, Ha, Ra.
    rewrite <- ?app_assoc in Hd; rewrite <- ?app_assoc in Ha;
      rewrite <- ?app_assoc in Ra.
    unfold jspGetSequenceElement, content_sequence_elems.
    rewrite Hc, Hbase. cbv beta iota.
    replace (0 + (len pre + 4) + 4 * Z.of_nat i)
      with (len (pre ++ int32_bytes n) + 4 * Z.of_nat i) by len_lia.
    rewrite Hd. cbn [bind]. exists a. auto.
  - (* jpiObject *)
    apply bind_OK in H. destruct H as [[] [Hext H]].
    cbv zeta in H. unfold appendBinaryStringInfo, appendStringInfoSpaces in H.
    set (n := Z.of_nat (List.length (value_object_fields item))) in *.
    replace ((b1 ++ int32_bytes n) ++ repeat 32 (Z.to_nat (4 * 2 * n)))
      with ((b1 ++ int32_bytes n) ++ repeat 32 (Z.to_nat (4 * 2 * n)) ++ [])
      in H by (rewrite app_nil_r; reflexivity).
    rewrite oks_fields in Hoks.
    destruct (flatten_fields_laid rec ok rd Hrec _ _ _ _ _ _ _ _ _ H
                ltac:(reflexivity) ltac:(len_lia) Hoks)
      as (table & more & E & Htab & R).
    simpl app in E. rewrite <- !app_assoc in E.
    eexists. split; [exact E |].
    intros pre post Hpre Hp0.
    assert (Bn : 0 <= n < 2147483648) by (subst b2; len_lia).
    rewrite <- !app_assoc.
    unfold init_content. rewrite read_int32_0. load_norm. cbn [bind].
    unfold read_int32_n. rewrite to_int32_small by lia.
    eexists. split; [reflexivity |].
    intros v Htv Hbase Hc.
    unfold content_object_nfields. rewrite Hc. cbv beta iota.
    split; [reflexivity |].
    intros i k w Hnth.
    destruct (R ltac:(subst b2; len_lia) ltac:(len_lia) Hp0
                (pre ++ int32_bytes n) post ltac:(len_lia) i k w Hnth)
      as (dk & dw & key & val & Hdk & Hdw & Hkey & Hval & Rk & Rw).
    simpl app in Hdk, Hdw, Hkey, Hval, Rk, Rw.
    rewrite <- ?app_assoc in Hdk; rewrite <- ?app_assoc in Hdw;
      rewrite <- ?app_assoc in Hkey; rewrite <- ?app_assoc in Hval;
      rewrite <- ?app_assoc in Rk; rewrite <- ?app_assoc in Rw.
    unfold jspGetObjectField, content_object_fields.
    rewrite Hc, Hbase. cbv beta iota.
    replace (0 + (len pre + 4) + 8 * Z.of_nat i)
      with (len (pre ++ int32_bytes n) + 8 * Z.of_nat i) by len_lia.
    rewrite Hdk. cbn [bind]. rewrite Hkey. cbn [bind].
    rewrite Hdw. cbn [bind]. rewrite Hval. cbn [bind].
    exists key, val. auto.
Qed.

End PayloadLayout.

(** The encoder against the cursor: the bytes appended for an item read as
    the item, wherever they are put. *)
Lemma flatten_laid : forall stack ext buf item nl ias pos buf',
  flattenJsonPathParseItem stack ext buf item nl ias = OK (pos, buf') ->
  every own_values_ok stack item = true ->
  exists s,
    buf' = buf ++ s /\ pos = len buf - 8
    /\ (len buf' < 2147483648 -> laid (reads_back stack) s pos item).
Proof.
  induction stack as [| stack IH]; intros ext buf item nl ias pos buf' H Hok.
  - discriminate H.
  - pose proof (flatten_pos _ _ _ _ _ _ _ _ H) as Hp. unfold JSONPATH_HDRSZ in Hp.
    subst pos.
    simpl in H, Hok.
    apply andb_true_iff in Hok. destruct Hok as [Hown Hch].
    unfold children in Hch. rewrite forallb_app in Hch.
    apply andb_true_iff in Hch. destruct Hch as [Hpc Hnx].
    apply bind_OK in H. destruct H as [b2 [Hpl H]].
    rewrite alignStringInfoInt_eq in Hpl, H.
    unfold appendBinaryStringInfo, appendStringInfoChar, JSONPATH_HDRSZ
      in Hpl, H.
    set (tag := type_code (item_type item)) in *.
    pose proof (INTALIGN_bounds (len (buf ++ [tag]))) as [Hpad _].
    set (pad := INTALIGN (len (buf ++ [tag])) - len (buf ++ [tag])) in *.
    rewrite <- ?app_assoc in Hpl. rewrite <- ?app_assoc in H.
    destruct (flatten_payload_extends _ (flatten_extends stack ext) _ _ _ _ _ _ _ Hpl)
      as [pl Epl].
    rewrite <- !app_assoc in Epl.
    assert (Hpay : len b2 < 2147483648 ->
              payload_laid (reads_back stack)
                (buf ++ [tag] ++ repeat 0 (Z.to_nat pad) ++ int32_bytes 0)
                b2 (len buf - 8) item).
    { intro Hlen.
      apply (flatten_payload_laid _ (every own_values_ok stack) (reads_back stack)
               (IH ext) ext _ _ _ nl ias b2); auto.
      len_lia. }
    assert (Hnext : exists sn nd,
               buf' = buf ++ [tag] ++ repeat 0 (Z.to_nat pad)
                          ++ int32_bytes nd ++ pl ++ sn
               /\ match item_next item with
                  | None => nd = 0 /\ sn = []
                  | Some n =>
                      nd = len b2 - 8 - (len buf - 8)
                      /\ (len buf' < 2147483648 ->
                          laid (reads_back stack) sn (len b2 - 8) n)
                  end).
    { destruct (item_next item) as [n |].
      - apply bind_OK in H. destruct H as [[chld b3] [Hn H]].
        inversion H; subst buf'; clear H.
        simpl in Hnx. rewrite andb_true_r in Hnx.
        destruct (IH _ _ _ _ _ _ _ Hn Hnx) as (sn & E & P & L). subst b3 b2.
        rewrite <- !app_assoc in *.
        exists sn, (chld - (len buf - 8)). split.
        + store_norm. reflexivity.
        + split; [len_lia |]. intro Hlen. rewrite <- P. apply L.
          revert Hlen. store_norm. intro Hlen. len_lia.
      - inversion H; subst buf'; clear H. subst b2.
        exists [], 0. rewrite app_nil_r. auto. }
    destruct Hnext as (sn & nd & Ebuf & Hn).
    eexists. split; [exact Ebuf |]. split; [reflexivity |].
    intro Hlen. intros pre post Hpre.
    subst buf'.
    destruct (Hpay ltac:(subst b2; len_lia)) as (pl' & Epl' & R).
    subst b2. rewrite <- !app_assoc in Epl'.
    repeat apply app_inv_head in Epl'. subst pl'.
    assert (Bnd : 0 <= nd < 2147483648).
    { destruct (item_next item); destruct Hn as [-> _]; len_lia. }
    destruct (R (pre ++ [tag] ++ repeat 0 (Z.to_nat pad) ++ int32_bytes nd)
                (sn ++ post) ltac:(len_lia) ltac:(len_lia)) as (c & Hc & Rc).
    rewrite <- ?app_assoc in Hc.
    assert (Hal : INTALIGN (len pre + 1) = len pre + 1 + pad).
    { subst pad. rewrite Hpre.
      replace (len buf - 8 + 1) with (len (buf ++ [tag]) - 8) by len_lia.
      rewrite INTALIGN_shift. lia. }
    exists {| type := item_type item; nextPos := nd; base := len pre;
              content := c |}.
    rewrite <- !app_assoc.
    split.
    + unfold jspInitByBuffer, read_byte. rewrite !Z.add_0_l, <- Hpre.
      rewrite load_byte_skip by len_lia.
      rewrite load_byte_here by len_lia. cbn [bind].
      rewrite Z.sub_0_r, Z.add_0_l, Hal. rewrite read_int32_0. load_norm.
      cbn [bind]. subst tag. rewrite type_of_code_type_code.
      rewrite to_int32_small by lia.
      replace (len pre + 1 + pad + 4)
        with (len (pre ++ [type_code (item_type item)]
                     ++ repeat 0 (Z.to_nat pad) ++ int32_bytes nd))
        by len_lia.
      rewrite Hc. reflexivity.
    + cbn [reads_back]. split; [reflexivity |]. split.
      * specialize (Rc {| type := item_type item; nextPos := nd;
                          base := len pre; content := c |}
                      eq_refl Hpre eq_refl).
        rewrite <- ?app_assoc in Rc. exact Rc.
      * destruct (item_next item) as [n |].
        -- destruct Hn as [End Ln].
          destruct (Ln Hlen
                      (pre ++ [tag] ++ repeat 0 (Z.to_nat pad)
                         ++ int32_bytes nd ++ pl)
                      post ltac:(len_lia)) as (a & Ha & Ra).
          rewrite <- ?app_assoc in Ha. rewrite <- ?app_assoc in Ra.
          exists a. split; [| exact Ra].
          unfold jspGetNext, jspHasNext. cbn [nextPos base].
          assert (Hpos : (0 <? nd) = true) by (apply Z.ltb_lt; len_lia).
          rewrite Hpos. rewrite jspInitByBuffer_base.
          replace (len pre + nd)
            with (len (buf ++ [tag] ++ repeat 0 (Z.to_nat pad)
                         ++ int32_bytes 0 ++ pl) - 8) by len_lia.
          rewrite Ha. reflexivity.
        -- destruct Hn as [-> _].
          unfold jspGetNext, jspHasNext. reflexivity.
Qed.

(** The value built for a parse tree shows the tree. *)
Lemma encoded_tree_is_read_back : forall stack jsonpath js,
  encode_parse_result stack jsonpath = OK js ->
  every own_values_ok stack (pr_expr jsonpath) = true ->
  JSONPATH_HDRSZ + len (data js) < 2147483648 ->
  exists v,
    jspInit js = OK v /\ reads_back stack (data js) v (pr_expr jsonpath).
Proof.
  intros stack p js H Hok Hlen. unfold encode_parse_result in H.
  apply bind_OK in H. destruct H as [[pos buf] [Hf H]].
  inversion H; subst js; clear H. cbn [data] in *.
  destruct (flatten_laid _ _ _ _ _ _ _ _ Hf Hok) as (s & E & P & L).
  subst buf. unfold appendStringInfoSpaces, JSONPATH_HDRSZ in *.
  simpl app in *. simpl skipn in *.
  destruct (L ltac:(rewrite !len_cons; lia) [] [] ltac:(subst pos; reflexivity))
    as (v & Hv & R).
  simpl app in Hv, R. rewrite app_nil_r in Hv, R.
  exists v. unfold jspInit. cbn [data]. subst pos. auto.
Qed.

Ltac solved := eexists; reflexivity.

Section PrinterOnTree.

Variable numeric_out : list Z -> string.
Variable rec : printer.
Variable mem : list Z.
Variable rd : item_reader.
Variable ok : JsonPathParseItem -> bool.
Hypothesis Hrec : forall a c inKey pb,
  rd a c -> ok c = true -> succeeds (rec a inKey pb).

Lemma print_subscripts_total : forall v elems i0,
  (forall i from to,
     nth_error elems i = Some (from, to) ->
     exists f t,
       jspGetArraySubscript mem v (i0 + Z.of_nat i) = OK (f, t)
       /\ rd f from
       /\ match to, t with
          | Some to', Some t' => rd t' to'
          | None, None => True
          | _, _ => False
          end) ->
  forallb (fun e => ok (fst e) && ok_opt ok (snd e)) elems = true ->
  succeeds (print_subscripts rec mem v (List.length elems) i0).
Proof.
  intros v. induction elems as [| [from to] rest IH]; intros i0 H Hok.
  - eexists. reflexivity.
  - simpl in Hok. apply andb_true_iff in Hok. destruct Hok as [Hok1 Hokr].
    apply andb_true_iff in Hok1. destruct Hok1 as [Hokf Hokt].
    destruct (H 0%nat from to eq_refl) as (f & t & Hg & Rf & Rt).
    rewrite Z.add_0_r in Hg.
    simpl. rewrite Hg. cbn [bind].
    destruct (Hrec f from false (is_sequence (type f)) Rf Hokf) as [tf ->].
    cbn [bind].
    assert (Hrest : succeeds (print_subscripts rec mem v (List.length rest)
                                (i0 + 1))).
    { apply IH; [| exact Hokr]. intros i from' to' Hnth.
      replace (i0 + 1 + Z.of_nat i) with (i0 + Z.of_nat (S i)) by lia.
      apply H. exact Hnth. }
    destruct Hrest as [trest Hrest].
    destruct to as [to' |], t as [t' |]; try contradiction.
    + destruct (Hrec t' to' false (is_sequence (type t')) Rt Hokt) as [tt ->].
      cbn [bind]. rewrite Hrest. eexists. reflexivity.
    + cbn [bind]. rewrite Hrest. eexists. reflexivity.
Qed.

Lemma print_elements_total : forall v elems i0,
  (forall i e,
     nth_error elems i = Some e ->
     exists a, jspGetSequenceElement mem v (i0 + Z.of_nat i) = OK a /\ rd a e) ->
  forallb ok elems = true ->
  succeeds (print_elements rec mem v (List.length elems) i0).
Proof.
  intros v. induction elems as [| e rest IH]; intros i0 H Hok.
  - eexists. reflexivity.
  - simpl in Hok. apply andb_true_iff in Hok. destruct Hok as [Hoke Hokr].
    destruct (H 0%nat e eq_refl) as (a & Hg & Ra).
    rewrite Z.add_0_r in Hg.
    simpl. rewrite Hg. cbn [bind].
    destruct (Hrec a e false (is_sequence (type a)) Ra Hoke) as [ta ->].
    cbn [bind].
    destruct (IH (i0 + 1)) as [trest ->]; [| exact Hokr | eexists; reflexivity].
    intros i e' Hnth.
    replace (i0 + 1 + Z.of_nat i) with (i0 + Z.of_nat (S i)) by lia.
    apply H. exact Hnth.
Qed.

Lemma print_fields_total : forall v fields i0,
  (forall i k w,
     nth_error fields i = Some (k, w) ->
     exists key val,
       jspGetObjectField mem v (i0 + Z.of_nat i) = OK (key, val)
       /\ rd key k /\ rd val w) ->
  forallb (fun f => ok (fst f) && ok (snd f)) fields = true ->
  succeeds (print_fields rec mem v (List.length fields) i0).
Proof.
  intros v. induction fields as [| [k w] rest IH]; intros i0 H Hok.
  - eexists. reflexivity.
  - simpl in Hok. apply andb_true_iff in Hok. destruct Hok as [Hok1 Hokr].
    apply andb_true_iff in Hok1. destruct Hok1 as [Hokk Hokw].
    destruct (H 0%nat k w eq_refl) as (key & val & Hg & Rk & Rw).
    rewrite Z.add_0_r in Hg.
    simpl. rewrite Hg. cbn [bind].
    destruct (Hrec key k false false Rk Hokk) as [tk ->]. cbn [bind].
    destruct (Hrec val w false (is_sequence (type val)) Rw Hokw) as [tw ->].
    cbn [bind].
    destruct (IH (i0 + 1)) as [trest ->]; [| exact Hokr | eexists; reflexivity].
    intros i k' w' Hnth.
    replace (i0 + 1 + Z.of_nat i) with (i0 + Z.of_nat (S i)) by lia.
    apply H. exact Hnth.
Qed.

Ltac use_rec v c :=
  match goal with
  | R : rd v c, K : ok c = true |- _ =>
      let t := fresh "t" in
      let E := fresh "E" in
      match goal with
      | |- context [rec v ?ik ?pb] =>
          destruct (Hrec v c ik pb R K) as [t E]; rewrite E; cbn [bind]
      end
  end.

Lemma print_item_total : forall v item inKey pb,
  type v = item_type item ->
  reads_payload rd mem v item ->
  own_operands_present item = true ->
  oks ok (payload_children 0 false item) = true ->
  succeeds (print_item numeric_out rec mem v inKey pb).
Proof.
  intros v item inKey pb Ht Hp Hown Hoks.
  unfold print_item, print_binary. rewrite Ht.
  unfold reads_payload, own_operands_present, payload_children in *.
  destruct (item_type item) eqn:E;
    try solved;
    try contradiction;
    try (rewrite Hp; cbn [bind]; solved);
    (* two operands *)
    try (destruct (value_args_left item) as [l |]; [| discriminate Hown];
         destruct (value_args_right item) as [r |]; [| discriminate Hown];
         destruct Hp as [(_ & a & Ha & Ra) (_ & b & Hb & Rb)];
         rewrite oks_app, !oks_with_context in Hoks;
         apply andb_true_iff in Hoks; destruct Hoks as [Hl Hr];
         simpl in Hl, Hr;
         rewrite Ha; cbn [bind]; use_rec a l;
         cbn [jspOperationName bind];
         rewrite Hb; cbn [bind]; use_rec b r; solved);
    (* one operand, always present *)
    try (destruct (value_arg item) as [c |]; [| discriminate Hown];
         destruct Hp as (_ & a & Ha & Ra);
         rewrite oks_with_context in Hoks; simpl in Hoks;
         rewrite Ha; cbn [bind]; use_rec a c; solved).
  - (* jpiIndexArray *)
    destruct Hp as [Hn Hs]. rewrite Hn, Nat2Z.id.
    rewrite oks_subscripts in Hoks.
    destruct (print_subscripts_total v (value_array_elems item) 0) as [t E'];
      [intros i from to Hnth; rewrite Z.add_0_l; apply Hs; exact Hnth
      | exact Hoks |].
    rewrite E'. solved.
  - (* jpiDatetime *)
    destruct (value_arg item) as [c |]; simpl in Hp.
    + destruct Hp as (Hpos & a & Ha & Ra).
      rewrite oks_with_context in Hoks. simpl in Hoks.
      assert (Hz : (content_arg v =? 0) = false) by (apply Z.eqb_neq; lia).
      rewrite Hz, Ha. cbn [bind]. use_rec a c. solved.
    + rewrite Hp. solved.
  - (* jpiLikeRegex *)
    destruct Hp as (_ & Hpat & e & a & He & Ha & Ra).
    rewrite He in Hoks. rewrite oks_with_context in Hoks. simpl in Hoks.
    rewrite Ha. cbn [bind]. use_rec a e. rewrite Hpat. solved.
  - (* jpiSequence *)
    destruct Hp as [Hn Hs]. rewrite Hn, Nat2Z.id.
    rewrite oks_elements in Hoks.
    destruct (print_elements_total v (value_sequence_elems item) 0) as [t E'];
      [intros i e Hnth; rewrite Z.add_0_l; apply Hs; exact Hnth
      | exact Hoks |].
    rewrite E'. solved.
  - (* jpiArray *)
    destruct (value_arg item) as [c |]; simpl in Hp.
    + destruct Hp as (Hpos & a & Ha & Ra).
      rewrite oks_with_context in Hoks. simpl in Hoks.
      assert (Hz : (content_arg v =? 0) = false) by (apply Z.eqb_neq; lia).
      rewrite Hz, Ha. cbn [bind]. use_rec a c. solved.
    + rewrite Hp. solved.
  - (* jpiObject *)
    destruct Hp as [Hn Hs]. rewrite Hn, Nat2Z.id.
    rewrite oks_fields in Hoks.
    destruct (print_fields_total v (value_object_fields item) 0) as [t E'];
      [intros i k w Hnth; rewrite Z.add_0_l; apply Hs; exact Hnth
      | exact Hoks |].
    rewrite E'. solved.
Qed.

End PrinterOnTree.

(** The printer ends on a cursor that shows a tree. *)
Lemma printer_succeeds_on_read_back :
  forall numeric_out depth mem v item inKey printBracketes,
    reads_back depth mem v item ->
    every own_operands_present depth item = true ->
    succeeds (printJsonPathItem numeric_out depth mem v inKey printBracketes).
Proof.
  intros numeric_out. induction depth as [| d IH];
    intros mem v item inKey pb R Hc.
  - contradiction.
  - cbn [reads_back] in R. destruct R as (Ht & Hp & Hn).
    simpl in Hc. apply andb_true_iff in Hc. destruct Hc as [Hown Hch].
    unfold children in Hch. rewrite forallb_app in Hch.
    apply andb_true_iff in Hch. destruct Hch as [Hpc Hnx].
    simpl.
    destruct (print_item_total numeric_out (printJsonPathItem numeric_out d mem)
                mem (reads_back d mem) (every own_operands_present d)
                (fun a c ik pb' Ra Kc => IH mem a c ik pb' Ra Kc)
                v item inKey pb Ht Hp Hown Hpc) as [text ->].
    cbn [bind].
    destruct (item_next item) as [n |].
    + destruct Hn as (a & Ha & Ra). rewrite Ha. cbn [bind].
      simpl in Hnx. rewrite andb_true_r in Hnx.
      destruct (IH mem a n true true Ra Hnx) as [t ->]. solved.
    + rewrite Hn. solved.
Qed.

Lemma answers_OK : forall (A : Type) (a : A), answers (OK a).
Proof. intros. left. eexists. reflexivity. Qed.

Lemma answers_bind : forall (A B : Type) (r : result A) (k : A -> result B),
  answers r -> (forall a, r = OK a -> answers (k a)) -> answers (bind r k).
Proof.
  intros A B r k [[a ->] | ->] Hk.
  - simpl. apply Hk. reflexivity.
  - right. reflexivity.
Qed.

Section WalkerOnTree.

Variable datetime_format_flags : string -> option Z.
Variable rec : walker.
Variable mem : list Z.
Variable rd : item_reader.
Variable ok : JsonPathParseItem -> bool.
Hypothesis Hrec : forall a c cxt, rd a c -> ok c = true -> answers (rec a cxt).
Hypothesis Hstring : forall a c,
  rd a c -> type a = jpiString -> succeeds (jspGetString mem a).

Lemma walk_subscripts_total : forall jpi elems i0 cxt,
  (forall i from to,
     nth_error elems i = Some (from, to) ->
     exists f t,
       jspGetArraySubscript mem jpi (i0 + Z.of_nat i) = OK (f, t)
       /\ rd f from
       /\ match to, t with
          | Some to', Some t' => rd t' to'
          | None, None => True
          | _, _ => False
          end) ->
  forallb (fun e => ok (fst e) && ok_opt ok (snd e)) elems = true ->
  answers (walk_subscripts rec mem jpi (List.length elems) i0 cxt).
Proof.
  intros jpi. induction elems as [| [from to] rest IH]; intros i0 cxt H Hok.
  - apply answers_OK.
  - simpl in Hok. apply andb_true_iff in Hok. destruct Hok as [Hok1 Hokr].
    apply andb_true_iff in Hok1. destruct Hok1 as [Hokf Hokt].
    destruct (H 0%nat from to eq_refl) as (f & t & Hg & Rf & Rt).
    rewrite Z.add_0_r in Hg.
    simpl. rewrite Hg. cbn [bind].
    apply answers_bind.
    + destruct to as [to' |], t as [t' |]; try contradiction.
      * apply answers_bind; [apply (Hrec t' to'); assumption |].
        intros [s c] _. apply answers_OK.
      * apply answers_OK.
    + intros c1 _. apply answers_bind; [apply (Hrec f from); assumption |].
      intros [s c2] _. apply IH; [| exact Hokr].
      intros i from' to' Hnth.
      replace (i0 + 1 + Z.of_nat i) with (i0 + Z.of_nat (S i)) by lia.
      apply H. exact Hnth.
Qed.

Lemma walker_switch_total : forall jpi item status cxt,
  type jpi = item_type item ->
  reads_payload rd mem jpi item ->
  own_operands_present item = true ->
  oks ok (payload_children 0 false item) = true ->
  answers (walker_switch datetime_format_flags rec mem jpi status cxt).
Proof.
  intros jpi item status cxt Ht Hp Hown Hoks.
  unfold walker_switch, datetime_status. rewrite Ht.
  unfold reads_payload, own_operands_present, payload_children in *.
  destruct (item_type item) eqn:E;
    try apply answers_OK;
    try contradiction;
    try (rewrite Hp; cbn [bind]; apply answers_OK);
    (* two operands *)
    try (destruct (value_args_left item) as [l |]; [| discriminate Hown];
         destruct (value_args_right item) as [r |]; [| discriminate Hown];
         destruct Hp as [(_ & a & Ha & Ra) (_ & b & Hb & Rb)];
         rewrite oks_app, !oks_with_context in Hoks;
         apply andb_true_iff in Hoks; destruct Hoks as [Hl Hr];
         simpl in Hl, Hr;
         rewrite Ha; cbn [bind];
         apply answers_bind; [apply (Hrec a l); assumption |];
         intros [s1 c1] _; rewrite Hb; cbn [bind];
         apply answers_bind; [apply (Hrec b r); assumption |];
         intros [s2 c2] _;
         try (destruct (comparison_is_mutable s1 s2)); apply answers_OK);
    (* one operand, always present *)
    try (destruct (value_arg item) as [c |]; [| discriminate Hown];
         destruct Hp as (_ & a & Ha & Ra);
         rewrite oks_with_context in Hoks; simpl in Hoks;
         rewrite Ha; cbn [bind];
         apply answers_bind; [apply (Hrec a c); assumption |];
         intros [s1 c1] _; apply answers_OK).
  - (* jpiIndexArray *)
    destruct Hp as [Hn Hs]. rewrite Hn, Nat2Z.id.
    rewrite oks_subscripts in Hoks.
    apply answers_bind.
    + apply walk_subscripts_total; [| exact Hoks].
      intros i from to Hnth. rewrite Z.add_0_l. apply Hs. exact Hnth.
    + intros c _. apply answers_OK.
  - (* jpiDatetime *)
    destruct (value_arg item) as [c |]; simpl in Hp.
    + destruct Hp as (Hpos & a & Ha & Ra).
      assert (Hz : (content_arg jpi =? 0) = false) by (apply Z.eqb_neq; lia).
      rewrite Hz, Ha. cbn [bind]. apply answers_bind; [| intros; apply answers_OK].
      destruct (type a) eqn:Eta; try apply answers_OK.
      destruct (Hstring a c Ra Eta) as [[template n] ->]. cbn [bind].
      destruct (datetime_format_flags template) as [flags |].
      * destruct (Z.land flags DCH_ZONED =? 0); apply answers_OK.
      * right. reflexivity.
    + rewrite Hp. cbn [bind]. apply answers_OK.
  - (* jpiLikeRegex *)
    destruct Hp as (_ & Hpat & e & a & He & Ha & Ra).
    rewrite He in Hoks. rewrite oks_with_context in Hoks. simpl in Hoks.
    rewrite Ha. cbn [bind].
    apply answers_bind; [apply (Hrec a e); assumption |].
    intros [s1 c1] _. apply answers_OK.
Qed.

End WalkerOnTree.

Lemma reads_back_string : forall d mem a c,
  reads_back d mem a c -> type a = jpiString -> succeeds (jspGetString mem a).
Proof.
  intros [| d] mem a c R Ht; [contradiction |].
  cbn [reads_back] in R. destruct R as (Hta & Hp & _).
  unfold reads_payload in Hp. rewrite <- Hta, Ht in Hp.
  rewrite Hp. eexists. reflexivity.
Qed.

(** The walker ends on a cursor that shows a tree, within the nesting of the
    tree. *)
Lemma walker_answers_on_read_back :
  forall datetime_format_flags depth mem jpi item status cxt,
    reads_back depth mem jpi item ->
    every own_operands_present depth item = true ->
    answers (jspIsMutableWalker_loop datetime_format_flags depth mem jpi
               status cxt).
Proof.
  intros dff. induction depth as [| d IH];
    intros mem jpi item status cxt R Hc.
  - contradiction.
  - cbn [reads_back] in R. destruct R as (Ht & Hp & Hn).
    simpl in Hc. apply andb_true_iff in Hc. destruct Hc as [Hown Hch].
    unfold children in Hch. rewrite forallb_app in Hch.
    apply andb_true_iff in Hch. destruct Hch as [Hpc Hnx].
    simpl. destruct (mutable cxt); [apply answers_OK |].
    apply answers_bind.
    + apply (walker_switch_total dff _ mem (reads_back d mem)
               (every own_operands_present d)) with (item := item); auto.
      * intros a c cxt' Ra Kc. apply (IH mem a c); assumption.
      * intros a c Ra. apply (reads_back_string d mem a c Ra).
    + intros [s1 c1] _.
      destruct (item_next item) as [n |].
      * destruct Hn as (a & Ha & Ra). rewrite Ha. cbn [bind].
        simpl in Hnx. rewrite andb_true_r in Hnx.
        apply (IH mem a n); assumption.
      * rewrite Hn. cbn [bind]. apply answers_OK.
Qed.

(* ------------------------------------------------------------------ *)
(** ** From the text to the value and back *)
Lemma every_weaken : forall (P Q : JsonPathParseItem -> bool),
  (forall i, P i = true -> Q i = true) ->
  forall d item, every P d item = true -> every Q d item = true.
Proof.
  intros P Q HPQ. induction d as [| d IH]; intros item H; [discriminate H |].
  simpl in *. apply andb_true_iff in H. destruct H as [HP Hc].
  apply andb_true_iff. split; [apply HPQ, HP |].
  rewrite forallb_forall in *. intros c Hin. apply IH, Hc, Hin.
Qed.

Lemma as_parsed_values : forall i, as_parsed i = true -> own_values_ok i = true.
Proof. intros i H. apply andb_true_iff in H. tauto. Qed.

Lemma as_parsed_operands : forall i,
  as_parsed i = true -> own_operands_present i = true.
Proof. intros i H. apply andb_true_iff in H. tauto. Qed.

Section WalkImmutable.

Variable datetime_format_flags : string -> option Z.
Variable rec : walker.
Variable mem : list Z.
Variable rd : item_reader.
Variable ok : JsonPathParseItem -> bool.
Hypothesis Hrec : forall a c cxt s cxt',
  rd a c -> ok c = true -> rec a cxt = OK (s, cxt') ->
  mutable cxt = false -> mutable cxt' = false.

Lemma walk_subscripts_immutable : forall jpi elems i0 cxt cxt',
  (forall i from to,
     nth_error elems i = Some (from, to) ->
     exists f t,
       jspGetArraySubscript mem jpi (i0 + Z.of_nat i) = OK (f, t)
       /\ rd f from
       /\ match to, t with
          | Some to', Some t' => rd t' to'
          | None, None => True
          | _, _ => False
          end) ->
  forallb (fun e => ok (fst e) && ok_opt ok (snd e)) elems = true ->
  walk_subscripts rec mem jpi (List.length elems) i0 cxt = OK cxt' ->
  mutable cxt = false -> mutable cxt' = false.
Proof.
  intros jpi. induction elems as [| [from to] rest IH];
    intros i0 cxt cxt' H Hok Hw Hm.
  - simpl in Hw. inversion Hw; subst. exact Hm.
  - simpl in Hok. apply andb_true_iff in Hok. destruct Hok as [Hok1 Hokr].
    apply andb_true_iff in Hok1. destruct Hok1 as [Hokf Hokt].
    destruct (H 0%nat from to eq_refl) as (f & t & Hg & Rf & Rt).
    rewrite Z.add_0_r in Hg.
    simpl in Hw. rewrite Hg in Hw. cbn [bind] in Hw.
    apply bind_OK in Hw. destruct Hw as [c1 [H1 Hw]].
    assert (Hm1 : mutable c1 = false).
    { destruct to as [to' |], t as [t' |]; try contradiction.
      - apply bind_OK in H1. destruct H1 as [[s c] [H1 E]].
        inversion E; subst c1; clear E.
        exact (Hrec _ _ _ _ _ Rt Hokt H1 Hm).
      - inversion H1; subst. exact Hm. }
    apply bind_OK in Hw. destruct Hw as [[s2 c2] [H2 Hw]].
    pose proof (Hrec _ _ _ _ _ Rf Hokf H2 Hm1) as Hm2.
    eapply (IH (i0 + 1)); [| exact Hokr | exact Hw | exact Hm2].
    intros i from' to' Hnth.
    replace (i0 + 1 + Z.of_nat i) with (i0 + Z.of_nat (S i)) by lia.
    apply H. exact Hnth.
Qed.

Lemma walker_switch_immutable : forall jpi item status cxt s cxt',
  type jpi = item_type item ->
  reads_payload rd mem jpi item ->
  own_operands_present item = true ->
  not_a_comparison item = true ->
  oks ok (payload_children 0 false item) = true ->
  walker_switch datetime_format_flags rec mem jpi status cxt = OK (s, cxt') ->
  mutable cxt = false -> mutable cxt' = false.
Proof.
  intros jpi item status cxt s cxt' Ht Hp Hown Hnc Hoks H Hm.
  unfold walker_switch in H. rewrite Ht in H.
  unfold reads_payload, own_operands_present, payload_children,
    not_a_comparison in *.
  destruct (item_type item) eqn:E;
    try discriminate Hnc;
    try contradiction;
    try (inv_bind; assumption);
    (* two operands *)
    try (destruct (value_args_left item) as [l |]; [| discriminate Hown];
         destruct (value_args_right item) as [r |]; [| discriminate Hown];
         destruct Hp as [(_ & a & Ha & Ra) (_ & b & Hb & Rb)];
         rewrite oks_app, !oks_with_context in Hoks;
         apply andb_true_iff in Hoks; destruct Hoks as [Hl Hr];
         simpl in Hl, Hr;
         rewrite Ha in H; cbn [bind] in H;
         apply bind_OK in H; destruct H as [[s1 c1] [H1 H]];
         rewrite Hb in H; cbn [bind] in H;
         apply bind_OK in H; destruct H as [[s2 c2] [H2 H]];
         inversion H; subst; clear H;
         eapply (Hrec b r); [exact Rb | exact Hr | exact H2 |];
         eapply (Hrec a l); [exact Ra | exact Hl | exact H1 | exact Hm]);
    (* one operand, always present *)
    try (destruct (value_arg item) as [c |]; [| discriminate Hown];
         destruct Hp as (_ & a & Ha & Ra);
         rewrite oks_with_context in Hoks; simpl in Hoks;
         rewrite Ha in H; cbn [bind] in H;
         apply bind_OK in H; destruct H as [[s1 c1] [H1 H]];
         inversion H; subst; clear H;
         try (cbn [set_current mutable]);
         eapply (Hrec a c); [exact Ra | exact Hoks | exact H1 | exact Hm]).
  - (* jpiIndexArray *)
    destruct Hp as [Hn Hs]. rewrite Hn, Nat2Z.id in H.
    rewrite oks_subscripts in Hoks.
    apply bind_OK in H. destruct H as [c1 [H1 H]].
    inversion H; subst; clear H.
    eapply walk_subscripts_immutable; [| exact Hoks | exact H1 | exact Hm].
    intros i from to Hnth. rewrite Z.add_0_l. apply Hs. exact Hnth.
  - (* jpiLikeRegex *)
    destruct Hp as (_ & Hpat & e & a & He & Ha & Ra).
    rewrite He in Hoks. rewrite oks_with_context in Hoks. simpl in Hoks.
    rewrite Ha in H. cbn [bind] in H.
    apply bind_OK in H. destruct H as [[s1 c1] [H1 H]].
    inversion H; subst; clear H.
    eapply (Hrec a e); [exact Ra | exact Hoks | exact H1 | exact Hm].
Qed.

End WalkImmutable.

Lemma walker_immutable_on_read_back :
  forall datetime_format_flags depth mem jpi item status cxt s cxt',
    reads_back depth mem jpi item ->
    every own_operands_present depth item = true ->
    every not_a_comparison depth item = true ->
    jspIsMutableWalker_loop datetime_format_flags depth mem jpi status cxt
    = OK (s, cxt') ->
    mutable cxt = false -> mutable cxt' = false.
Proof.
  intros dff. induction depth as [| d IH];
    intros mem jpi item status cxt s cxt' R Hc Hnc H Hm.
  - contradiction.
  - cbn [reads_back] in R. destruct R as (Ht & Hp & Hn).
    simpl in Hc, Hnc.
    apply andb_true_iff in Hc. destruct Hc as [Hown Hch].
    apply andb_true_iff in Hnc. destruct Hnc as [Hnown Hnch].
    unfold children in Hch, Hnch. rewrite forallb_app in Hch, Hnch.
    apply andb_true_iff in Hch. destruct Hch as [Hpc Hnx].
    apply andb_true_iff in Hnch. destruct Hnch as [Hnpc Hnnx].
    simpl in H. rewrite Hm in H.
    apply bind_OK in H. destruct H as [[s1 c1] [Hsw H]].
    assert (Hm1 : mutable c1 = false).
    { eapply (walker_switch_immutable dff _ mem (reads_back d mem)
                (fun c => every own_operands_present d c
                          && every not_a_comparison d c));
        [| exact Ht | exact Hp | exact Hown | exact Hnown | | exact Hsw
         | exact Hm].
      - intros a c cx s' cx' Ra Kc Hw Hmc.
        apply andb_true_iff in Kc. destruct Kc as [K1 K2].
        exact (IH _ _ _ _ _ _ _ Ra K1 K2 Hw Hmc).
      - unfold oks. rewrite forallb_forall in *. intros c Hin.
        rewrite (Hpc c Hin), (Hnpc c Hin). reflexivity. }
    destruct (item_next item) as [n |].
    + destruct Hn as (a & Ha & Ra). rewrite Ha in H. cbn [bind] in H.
      simpl in Hnx, Hnnx. rewrite andb_true_r in Hnx, Hnnx.
      exact (IH _ _ _ _ _ _ _ Ra Hnx Hnnx H Hm1).
    + rewrite Hn in H. cbn [bind] in H. inversion H; subst. exact Hm1.
Qed.

Lemma jsonpath_in_encodes : forall parsejsonpath stack text jsonpath js,
  parsejsonpath text = OK (Some jsonpath) ->
  jsonpath_in parsejsonpath stack text = OK js ->
  encode_parse_result stack jsonpath = OK js.
Proof.
  intros parse stack text p js Hp H.
  unfold jsonpath_in, jsonPathFromCstring in H. rewrite Hp in H. exact H.
Qed.



(** X2.  What [jsonpath_in] accepts, [jsonpath_out] prints: on the value
    encoded for a tree as the parser builds it, the printer ends with a text,
    within the stack that the encoder had.  It reads no byte outside the
    value and meets no kind it does not know. *)
Theorem jsonpath_out_prints_what_jsonpath_in_accepts :
  forall parsejsonpath numeric_out stack text jsonpath js,
    parsejsonpath text = OK (Some jsonpath) ->
    jsonpath_in parsejsonpath stack text = OK js ->
    every as_parsed stack (pr_expr jsonpath) = true ->
    JSONPATH_HDRSZ + len (data js) < 2147483648 ->
    succeeds (jsonpath_out numeric_out stack js).
Proof.
  intros parse numeric_out stack text p js Hp H Hok Hlen.
  pose proof (jsonpath_in_encodes _ _ _ _ _ Hp H) as He.
  destruct (encoded_tree_is_read_back stack p js He
              (every_weaken _ _ as_parsed_values _ _ Hok) Hlen)
    as (v & Hv & R).
  unfold jsonpath_out, jsonPathToCstring. rewrite Hv. cbn [bind].
  destruct (printer_succeeds_on_read_back numeric_out stack (data js) v
              (pr_expr p) false (negb (is_sequence (type v))) R
              (every_weaken _ _ as_parsed_operands _ _ Hok)) as [t ->].
  eexists. reflexivity.
Qed.

Lemma jsonpath_out_prints_witness :
  sample_parse "$.a + $.b * 2" = OK (Some path_sum_of_product)
  /\ jsonpath_in sample_parse 16 "$.a + $.b * 2" = OK encoded_sum_of_product
  /\ every as_parsed 16 (pr_expr path_sum_of_product) = true
  /\ JSONPATH_HDRSZ + len (data encoded_sum_of_product) < 2147483648
  /\ succeeds (jsonpath_out sample_numeric_out 16 encoded_sum_of_product).
Proof.
  split; [reflexivity |]. split; [reflexivity |]. split; [reflexivity |].
  split; [reflexivity |].
  apply (jsonpath_out_prints_what_jsonpath_in_accepts sample_parse
           sample_numeric_out 16 "$.a + $.b * 2" path_sum_of_product
           encoded_sum_of_product);
    reflexivity.
Defined.

(** X3.  On the value encoded for a tree as the parser builds it,
    [jspIsMutable] ends with an answer, or with the error that
    [datetime_format_flags] raises for a template: the nesting of the calls of
    the walker, which tests no stack depth, is at most that of the calls of
    the encoder, which does.  The walker reads no byte outside the value. *)
Theorem jspIsMutable_answers_on_encoded_path :
  forall parsejsonpath datetime_format_flags stack text jsonpath js names exprs,
    parsejsonpath text = OK (Some jsonpath) ->
    jsonpath_in parsejsonpath stack text = OK js ->
    every as_parsed stack (pr_expr jsonpath) = true ->
    JSONPATH_HDRSZ + len (data js) < 2147483648 ->
    answers (jspIsMutable datetime_format_flags stack js names exprs).
Proof.
  intros parse dff stack text p js names exprs Hp H Hok Hlen.
  pose proof (jsonpath_in_encodes _ _ _ _ _ Hp H) as He.
  destruct (encoded_tree_is_read_back stack p js He
              (every_weaken _ _ as_parsed_values _ _ Hok) Hlen)
    as (v & Hv & R).
  unfold jspIsMutable. rewrite Hv. cbn [bind].
  apply answers_bind.
  - apply (walker_answers_on_read_back dff stack (data js) v (pr_expr p)).
    + exact R.
    + exact (every_weaken _ _ as_parsed_operands _ _ Hok).
  - intros [s c] _. apply answers_OK.
Qed.

Lemma jspIsMutable_answers_witness :
  sample_parse "$.a + $.b * 2" = OK (Some path_sum_of_product)
  /\ jsonpath_in sample_parse 16 "$.a + $.b * 2" = OK encoded_sum_of_product
  /\ every as_parsed 16 (pr_expr path_sum_of_product) = true
  /\ JSONPATH_HDRSZ + len (data encoded_sum_of_product) < 2147483648
  /\ answers (jspIsMutable sample_format_flags 16 encoded_sum_of_product
                ["t"%string] [timestamptz_var]).
Proof.
  split; [reflexivity |]. split; [reflexivity |]. split; [reflexivity |].
  split; [reflexivity |].
  apply (jspIsMutable_answers_on_encoded_path sample_parse sample_format_flags
           16 "$.a + $.b * 2" path_sum_of_product encoded_sum_of_product);
    reflexivity.
Defined.

(** X4.  A path without a comparison is never flagged as mutable: the
    [mutable] flag is set by the comparison case of the walker alone, so on
    the value encoded for a tree that holds none of the six comparisons
    [jspIsMutable] answers false (or ends with the error of
    [datetime_format_flags]), whatever the variables are. *)
Theorem path_without_comparison_is_immutable :
  forall parsejsonpath datetime_format_flags stack text jsonpath js names exprs,
    parsejsonpath text = OK (Some jsonpath) ->
    jsonpath_in parsejsonpath stack text = OK js ->
    every as_parsed stack (pr_expr jsonpath) = true ->
    every not_a_comparison stack (pr_expr jsonpath) = true ->
    JSONPATH_HDRSZ + len (data js) < 2147483648 ->
    jspIsMutable datetime_format_flags stack js names exprs = OK false
    \/ jspIsMutable datetime_format_flags stack js names exprs
       = Err ErrCollaborator.
Proof.
  intros parse dff stack text p js names exprs Hp H Hok Hnc Hlen.
  pose proof (jsonpath_in_encodes _ _ _ _ _ Hp H) as He.
  destruct (encoded_tree_is_read_back stack p js He
              (every_weaken _ _ as_parsed_values _ _ Hok) Hlen)
    as (v & Hv & R).
  pose proof (every_weaken _ _ as_parsed_operands _ _ Hok) as Hop.
  unfold jspIsMutable. rewrite Hv. cbn [bind].
  unfold jspIsMutableWalker.
  set (cxt := {| varnames := names; varexprs := exprs;
                 current := jpdsNonDateTime;
                 lax := negb (Z.land (header js) JSONPATH_LAX =? 0);
                 mutable := false |}).
  destruct (walker_answers_on_read_back dff stack (data js) v (pr_expr p)
              jpdsNonDateTime cxt R Hop) as [[[s c] Hw] | Hw].
  - rewrite Hw. cbn [bind]. left. f_equal.
    exact (walker_immutable_on_read_back dff stack (data js) v (pr_expr p)
             jpdsNonDateTime cxt s c R Hop Hnc Hw eq_refl).
  - rewrite Hw. right. reflexivity.
Qed.

Lemma path_without_comparison_witness :
  sample_parse "$.a + $.b * 2" = OK (Some path_sum_of_product)
  /\ jsonpath_in sample_parse 16 "$.a + $.b * 2" = OK encoded_sum_of_product
  /\ every as_parsed 16 (pr_expr path_sum_of_product) = true
  /\ every not_a_comparison 16 (pr_expr path_sum_of_product) = true
  /\ JSONPATH_HDRSZ + len (data encoded_sum_of_product) < 2147483648
  /\ (jspIsMutable sample_format_flags 16 encoded_sum_of_product
        ["t"%string] [timestamptz_var] = OK false
      \/ jspIsMutable sample_format_flags 16 encoded_sum_of_product
           ["t"%string] [timestamptz_var] = Err ErrCollaborator).
Proof.
  split; [reflexivity |]. split; [reflexivity |]. split; [reflexivity |].
  split; [reflexivity |]. split; [reflexivity |].
  apply (path_without_comparison_is_immutable sample_parse sample_format_flags
           16 "$.a + $.b * 2" path_sum_of_product encoded_sum_of_product);
    reflexivity.
Defined.

(** X5.  The mode of a path survives the header word: the two flag bits that
    [jsonPathFromCstring] sets from the parse result are the ones that
    [jsonPathToCstring] and [jspIsMutable] test.  The text printed starts
    with [pg ] exactly for a path parsed with the extensions on, then with
    [strict ] exactly for a path parsed as not lax, and the walker runs in lax
    mode exactly for a path parsed as lax. *)
Theorem mode_flags_survive_the_header :
  forall numeric_out datetime_format_flags stack jsonpath js,
    encode_parse_result stack jsonpath = OK js ->
    (forall stack' out,
       jsonPathToCstring numeric_out stack' out js
       = (v <- jspInit js ;;
          t <- printJsonPathItem numeric_out stack' (data js) v false
                 (negb (is_sequence (type v))) ;;
          OK (((out +++ (if pr_ext jsonpath then "pg " else ""))
               +++ (if pr_lax jsonpath then "" else "strict ")) +++ t)))
    /\ (forall fuel names exprs,
          jspIsMutable datetime_format_flags fuel js names exprs
          = (jpi <- jspInit js ;;
             '(_, cxt) <- jspIsMutableWalker datetime_format_flags fuel
                            (data js) jpi
                            (initial_context names exprs (pr_lax jsonpath)) ;;
             OK (mutable cxt))).
Proof.
  intros numeric_out dff stack p js H. unfold encode_parse_result in H.
  apply bind_OK in H. destruct H as [[pos buf] [_ H]].
  inversion H; subst js; clear H.
  split.
  - intros stack' out. unfold jsonPathToCstring. cbn [header data].
    destruct (pr_lax p), (pr_ext p); cbn -[printJsonPathItem jspInit];
      rewrite ?append_empty_r; reflexivity.
  - intros fuel names exprs. unfold jspIsMutable, initial_context.
    cbn [header data].
    destruct (pr_lax p), (pr_ext p); reflexivity.
Qed.

Lemma mode_flags_witness :
  encode_parse_result 16 (strict_path (root_key "a" None))
  = OK encoded_strict_root_key
  /\ jsonpath_out sample_numeric_out 16 encoded_strict_root_key
     = OK ("strict $." +++ quoted "a").
Proof.
  split; [reflexivity |].
  unfold jsonpath_out.
  rewrite (proj1 (mode_flags_survive_the_header sample_numeric_out
                    sample_format_flags 16
                    (strict_path (root_key "a" None))
                    encoded_strict_root_key eq_refl) 16%nat EmptyString).
  reflexivity.
Defined.

Section OutputFacts.

Variable parsejsonpath : string -> result (option JsonPathParseResult).
Variable pg_client_to_server : list Z -> string.
Variable numeric_out : list Z -> string.
Variable pg_server_to_client : string -> list Z.

(** X6.  What [jsonpath_send] writes, [jsonpath_recv] takes: the message
    starts with the version that [jsonpath_recv] supports and goes on with the
    text that [jsonpath_out] prints; receiving it raises neither the
    unsupported-version error nor the short-message error, and gives what
    [jsonpath_in] gives for that text after the two conversions. *)
Theorem jsonpath_recv_takes_what_jsonpath_send_writes :
  forall stack stack' js body,
    jsonpath_send numeric_out pg_server_to_client stack js = OK body ->
    exists text,
      jsonpath_out numeric_out stack js = OK text
      /\ body = JSONPATH_VERSION :: pg_server_to_client text
      /\ jsonpath_recv parsejsonpath pg_client_to_server stack'
           {| msg := body; cursor := 0 |}
         = jsonpath_in parsejsonpath stack'
             (pg_client_to_server (pg_server_to_client text)).
Proof.
  intros stack stack' js body H. unfold jsonpath_send in H.
  apply bind_OK in H. destruct H as [text [Ht H]].
  inversion H; subst body; clear H.
  exists text. split; [exact Ht |]. split; [reflexivity |].
  unfold pq_sendtext, pq_sendint8, appendBinaryStringInfo, appendStringInfoChar.
  change ([] ++ [JSONPATH_VERSION mod 256]) with [1].
  change ([1] ++ pg_server_to_client text) with (1 :: pg_server_to_client text).
  unfold jsonpath_recv, pq_getmsgint1. cbn [msg cursor].
  assert (Hl : (len (1 :: pg_server_to_client text) - 0 <? 1) = false).
  { apply Z.ltb_ge. rewrite len_cons.
    pose proof (len_nonneg (pg_server_to_client text)). lia. }
  rewrite Hl. change (0 <? 0) with false. cbn [orb].
  change (load_byte (1 :: pg_server_to_client text) 0) with (@OK Z 1).
  cbn [bind]. change (1 =? JSONPATH_VERSION) with true. cbv iota.
  unfold pq_getmsgtext. cbn [msg cursor].
  replace (len (1 :: pg_server_to_client text) - (0 + 1))
    with (len (pg_server_to_client text)) by (rewrite len_cons; lia).
  assert (H1 : (len (pg_server_to_client text) <? 0) = false).
  { apply Z.ltb_ge. apply len_nonneg. }
  rewrite H1, Z.ltb_irrefl. cbn [orb bind].
  change (Z.to_nat (0 + 1)) with 1%nat. cbn [skipn].
  unfold len. rewrite Nat2Z.id, firstn_all. reflexivity.
Qed.

End OutputFacts.

Lemma jsonpath_send_recv_witness :
  jsonpath_send sample_numeric_out sample_server_to_client 16
    encoded_sum_of_product
  = OK (1 :: bytes_of_string
               (String.append "($." (String.append (quoted "a")
                  (String.append " + $." (String.append (quoted "b") " * 2)")))))
  /\ exists text,
       jsonpath_out sample_numeric_out 16 encoded_sum_of_product = OK text
       /\ jsonpath_recv sample_parse sample_client_to_server 16
            {| msg := 1 :: bytes_of_string
                            (String.append "($." (String.append (quoted "a")
                               (String.append " + $."
                                  (String.append (quoted "b") " * 2)"))));
               cursor := 0 |}
          = jsonpath_in sample_parse 16
              (sample_client_to_server (sample_server_to_client text)).
Proof.
  split; [reflexivity |].
  destruct (jsonpath_recv_takes_what_jsonpath_send_writes sample_parse
              sample_client_to_server sample_numeric_out
              sample_server_to_client 16 16 encoded_sum_of_product _ eq_refl)
    as (text & Ht & _ & Hr).
  exists text. split; [exact Ht | exact Hr].
Defined.

(** X7.  A walk leaves the context as it found it, but for the [mutable]
    flag: the variable lists and the lax mode are never written, and the
    status of [@], which a filter sets for its predicate, is restored when the
    filter is left.  A walk that finds the flag set does nothing. *)
Theorem walker_restores_the_context :
  forall datetime_format_flags fuel mem jpi cxt status cxt',
    jspIsMutableWalker datetime_format_flags fuel mem jpi cxt
    = OK (status, cxt') ->
    varnames cxt' = varnames cxt
    /\ varexprs cxt' = varexprs cxt
    /\ current cxt' = current cxt
    /\ lax cxt' = lax cxt
    /\ (mutable cxt = true -> cxt' = cxt /\ status = jpdsNonDateTime).
Proof.
  intros dff fuel mem jpi cxt status cxt' H.
  pose proof (walk_loop_settings dff _ _ _ _ _ _ _ H) as (A & B & C & D).
  split; [exact A |]. split; [exact B |]. split; [exact C |].
  split; [exact D |]. intro Hm.
  destruct fuel as [| fuel]; [discriminate H |].
  unfold jspIsMutableWalker in H. simpl in H. rewrite Hm in H.
  inversion H. split; reflexivity.
Qed.

Lemma walker_restores_the_context_witness :
  exists status cxt',
    jspIsMutableWalker sample_format_flags 16 mem_datetime_eq_datetime
      (item_of (jspInitByBuffer mem_datetime_eq_datetime 0 0))
      (initial_context [] [] true) = OK (status, cxt')
    /\ current cxt' = jpdsNonDateTime /\ lax cxt' = true
    /\ mutable cxt' = true.
Proof.
  destruct (jspIsMutableWalker sample_format_flags 16 mem_datetime_eq_datetime
              (item_of (jspInitByBuffer mem_datetime_eq_datetime 0 0))
              (initial_context [] [] true)) as [[status cxt'] | |] eqn:E;
    try (vm_compute in E; discriminate E).
  exists status, cxt'. split; [reflexivity |].
  destruct (walker_restores_the_context _ _ _ _ _ _ _ E)
    as (_ & _ & Hc & Hl & _).
  split; [exact Hc |]. split; [exact Hl |].
  vm_compute in E. inversion E. reflexivity.
Defined.

Lemma key_chain_values : forall keys d,
  forallb no_nul keys = true ->
  (List.length keys <= d)%nat ->
  forallb (fun c => every own_values_ok d (snd c))
    (with_context 0 false (key_chain keys)) = true.
Proof.
  induction keys as [| k rest IH]; intros d Hk Hd; [reflexivity |].
  simpl in Hk. apply andb_true_iff in Hk. destruct Hk as [Hk Hr].
  destruct d as [| d]; [simpl in Hd; lia |].
  simpl in Hd. cbn [key_chain with_context forallb snd]. rewrite andb_true_r.
  cbn [every]. apply andb_true_iff. split; [exact Hk |].
  unfold children. cbn [payload_children named item_type item_next app].
  apply IH; [exact Hr | lia].
Qed.

Lemma key_chain_text : forall numeric_out keys d mem v k,
  reads_back d mem v (named jpiKey k (key_chain keys)) ->
  printJsonPathItem numeric_out d mem v true true
  = OK (member_text (k :: keys)).
Proof.
  intros numeric_out. induction keys as [| k' rest IH]; intros d mem v k R.
  - destruct d as [| d]; [contradiction |].
    cbn [reads_back] in R. destruct R as (Ht & Hp & Hn).
    cbn [key_chain named item_next item_type] in *.
    unfold reads_payload in Hp. cbn [named item_type value_string item_value] in Hp.
    simpl. unfold print_item. rewrite Ht, Hp. cbn [bind]. rewrite Hn.
    cbn [bind dot member_text]. rewrite append_empty_r. reflexivity.
  - destruct d as [| d]; [contradiction |].
    cbn [reads_back] in R. destruct R as (Ht & Hp & Hn).
    cbn [key_chain named item_next item_type] in *.
    unfold reads_payload in Hp. cbn [named item_type value_string item_value] in Hp.
    destruct Hn as (a & Ha & Ra).
    simpl. unfold print_item. rewrite Ht, Hp. cbn [bind]. rewrite Ha.
    cbn [bind]. rewrite (IH d mem a k' Ra). cbn [dot member_text].
    reflexivity.
Qed.

(** X8.  A path of member accessors prints as it reads: for
    [$.k1.k2 ... .kn], whatever the names are (without NUL) and however many,
    [jsonpath_out] applied to what [jsonpath_in] gives is the text [$], then
    for each name a dot and the name as [escape_json] writes it. *)
Theorem member_path_prints_its_keys :
  forall parsejsonpath numeric_out stack text keys js,
    parsejsonpath text = OK (Some (member_path keys)) ->
    jsonpath_in parsejsonpath stack text = OK js ->
    forallb no_nul keys = true ->
    (List.length keys < stack)%nat ->
    JSONPATH_HDRSZ + len (data js) < 2147483648 ->
    jsonpath_out numeric_out stack js = OK ("$" +++ member_text keys).
Proof.
  intros parse numeric_out stack text keys js Hp H Hk Hs Hlen.
  pose proof (jsonpath_in_encodes _ _ _ _ _ Hp H) as He.
  destruct stack as [| d]; [lia |].
  assert (Hok : every own_values_ok (S d) (pr_expr (member_path keys)) = true).
  { cbn [every member_path lax_path pr_expr]. apply andb_true_iff.
    split; [reflexivity |]. unfold children.
    cbn [payload_children leaf item_type item_next app].
    apply key_chain_values; [exact Hk | lia]. }
  destruct (encoded_tree_is_read_back (S d) _ js He Hok Hlen) as (v & Hv & R).
  assert (Hh : header js = Z.lor JSONPATH_VERSION JSONPATH_LAX).
  { unfold encode_parse_result in He. apply bind_OK in He.
    destruct He as [[pos buf] [_ He]]. inversion He. reflexivity. }
  unfold jsonpath_out, jsonPathToCstring. rewrite Hh, Hv.
  change (Z.land (Z.lor JSONPATH_VERSION JSONPATH_LAX) JSONPATH_EXT =? 0)
    with true.
  change (Z.land (Z.lor JSONPATH_VERSION JSONPATH_LAX) JSONPATH_LAX =? 0)
    with false.
  cbn [bind].
  cbn [reads_back member_path lax_path pr_expr] in R.
  destruct R as (Ht & _ & Hn).
  cbn [leaf item_type item_next] in Ht, Hn.
  rewrite Ht. cbn [is_sequence negb].
  simpl printJsonPathItem. unfold print_item. rewrite Ht. cbn [bind].
  destruct keys as [| k rest].
  - cbn [key_chain] in Hn. rewrite Hn. reflexivity.
  - cbn [key_chain] in Hn. destruct Hn as (a & Ha & Ra).
    rewrite Ha. cbn [bind].
    rewrite (key_chain_text numeric_out rest d (data js) a k Ra).
    reflexivity.
Qed.

Lemma member_path_witness :
  forallb no_nul ["a"; "b"]%string = true
  /\ (List.length ["a"; "b"]%string < 16)%nat
  /\ exists js,
       jsonpath_in (fun _ => OK (Some (member_path ["a"; "b"]%string))) 16
         "$.a.b" = OK js
       /\ jsonpath_out sample_numeric_out 16 js
          = OK ("$." +++ quoted "a" +++ "." +++ quoted "b").
Proof.
  split; [reflexivity |]. split; [simpl; lia |].
  destruct (jsonpath_in (fun _ => OK (Some (member_path ["a"; "b"]%string))) 16
              "$.a.b") as [js | |] eqn:E;
    try (vm_compute in E; discriminate E).
  exists js. split; [reflexivity |].
  apply (member_path_prints_its_keys
           (fun _ => OK (Some (member_path ["a"; "b"]%string)))
           sample_numeric_out 16 "$.a.b" ["a"; "b"]%string js);
    [reflexivity | exact E | reflexivity | simpl; lia |].
  vm_compute in E. inversion E. vm_compute. reflexivity.
Defined.

(* ------------------------------------------------------------------ *)
(** ** What the encoding and the analysis do not depend on *)

Section EncoderStable.

Variables rec rec' : flattener.
Hypothesis Hrec : forall buf c nl ias r,
  rec buf c nl ias = OK r -> rec' buf c nl ias = OK r.

Ltac step H :=
  let a := fresh "a" in
  let Ha := fresh "Ha" in
  apply bind_OK in H; destruct H as [a [Ha H]];
  try (apply Hrec in Ha); rewrite Ha; cbn [bind].

Lemma flatten_subscripts_stable : forall pos offset nl elems i buf b',
  flatten_subscripts rec pos offset nl elems i buf = OK b' ->
  flatten_subscripts rec' pos offset nl elems i buf = OK b'.
Proof.
  intros pos offset nl.
  induction elems as [| [from to] rest IH]; intros i buf b' H; simpl in *.
  - exact H.
  - apply bind_OK in H. destruct H as [[p b1] [H1 H]].
    rewrite (Hrec _ _ _ _ _ H1). cbn [bind].
    apply bind_OK in H. destruct H as [[topos b2] [H2 H]].
    assert (E : match to with
                | Some t => '(p0, buf0) <- rec' b1 t nl true ;; OK (p0 - pos, buf0)
                | None => OK (0, b1)
                end = OK (topos, b2)).
    { destruct to as [t |]; [| exact H2].
      apply bind_OK in H2. destruct H2 as [[pt bt] [Ht H2]].
      rewrite (Hrec _ _ _ _ _ Ht). exact H2. }
    rewrite E. cbn [bind]. apply IH. exact H.
Qed.

Lemma flatten_elements_stable : forall pos nl ias elems offset buf b',
  flatten_elements rec pos offset nl ias elems buf = OK b' ->
  flatten_elements rec' pos offset nl ias elems buf = OK b'.
Proof.
  intros pos nl ias.
  induction elems as [| e rest IH]; intros offset buf b' H; simpl in *.
  - exact H.
  - apply bind_OK in H. destruct H as [[p b1] [H1 H]].
    rewrite (Hrec _ _ _ _ _ H1). cbn [bind]. apply IH. exact H.
Qed.

Lemma flatten_fields_stable : forall pos nl ias fields offset buf b',
  flatten_fields rec pos offset nl ias fields buf = OK b' ->
  flatten_fields rec' pos offset nl ias fields buf = OK b'.
Proof.
  intros pos nl ias.
  induction fields as [| [k w] rest IH]; intros offset buf b' H; simpl in *.
  - exact H.
  - apply bind_OK in H. destruct H as [[p1 b1] [H1 H]].
    rewrite (Hrec _ _ _ _ _ H1). cbn [bind].
    apply bind_OK in H. destruct H as [[p2 b2] [H2 H]].
    rewrite (Hrec _ _ _ _ _ H2). cbn [bind]. apply IH. exact H.
Qed.

Lemma operand_stable : forall o pos buf nl ias r,
  match o with
  | Some l => rec buf l nl ias
  | None => OK (pos, buf)
  end = OK r ->
  match o with
  | Some l => rec' buf l nl ias
  | None => OK (pos, buf)
  end = OK r.
Proof. intros [l |] pos buf nl ias r H; [apply Hrec |]; exact H. Qed.

Lemma flatten_payload_stable : forall ext ext' buf item pos nl ias b',
  (ext = true -> ext' = true) ->
  flatten_payload rec ext buf item pos nl ias = OK b' ->
  flatten_payload rec' ext' buf item pos nl ias = OK b'.
Proof.
  intros ext ext' buf item pos nl ias b' Hext H.
  assert (Hchk : forall t,
            checkJsonPathExtensionsEnabled ext t = OK tt ->
            checkJsonPathExtensionsEnabled ext' t = OK tt).
  { intros t. unfold checkJsonPathExtensionsEnabled.
    destruct ext; [rewrite (Hext eq_refl); auto | discriminate]. }
  unfold flatten_payload in *.
  destruct (item_type item) eqn:Et; try exact H;
    try (unfold flatten_args, reserveSpaceForItemPointer in *; cbv zeta in *;
         cbn [fst snd] in *;
         apply bind_OK in H; destruct H as [[c1 b1] [H1 H]];
         rewrite (operand_stable _ _ _ _ _ _ H1); cbn [bind];
         apply bind_OK in H; destruct H as [[c2 b2] [H2 H]];
         rewrite (operand_stable _ _ _ _ _ _ H2); cbn [bind]; exact H);
    try (unfold flatten_arg, reserveSpaceForItemPointer in *; cbv zeta in *;
         rewrite Et in *;
         apply bind_OK in H; destruct H as [[] [Hc H]];
         try rewrite (Hchk _ Hc); cbn [bind];
         destruct (value_arg item) as [a |]; [| exact H];
         apply bind_OK in H; destruct H as [[c1 b1] [H1 H]];
         rewrite (Hrec _ _ _ _ _ H1); cbn [bind]; exact H).
  - (* jpiIndexArray *)
    cbv zeta in *. apply flatten_subscripts_stable. exact H.
  - (* jpiLikeRegex *)
    unfold flatten_like_regex, reserveSpaceForItemPointer in *. cbv zeta in *.
    destruct (value_like_regex_expr item) as [e |]; [| exact H].
    apply bind_OK in H. destruct H as [[c1 b1] [H1 H]].
    rewrite (Hrec _ _ _ _ _ H1). cbn [bind]. exact H.
  - (* jpiSequence *)
    apply bind_OK in H. destruct H as [[] [Hc H]].
    rewrite (Hchk _ Hc). cbn [bind]. cbv zeta in *.
    apply flatten_elements_stable. exact H.
  - (* jpiObject *)
    apply bind_OK in H. destruct H as [[] [Hc H]].
    rewrite (Hchk _ Hc). cbn [bind]. cbv zeta in *.
    apply flatten_fields_stable. exact H.
Qed.

End EncoderStable.

Lemma flatten_stable : forall stack stack' ext ext' buf item nl ias r,
  (stack <= stack')%nat ->
  (ext = true -> ext' = true) ->
  flattenJsonPathParseItem stack ext buf item nl ias = OK r ->
  flattenJsonPathParseItem stack' ext' buf item nl ias = OK r.
Proof.
  induction stack as [| stack IH];
    intros stack' ext ext' buf item nl ias r Hs Hext H.
  - discriminate H.
  - destruct stack' as [| stack']; [lia |].
    simpl in *.
    apply bind_OK in H. destruct H as [b1 [Hp H]].
    rewrite (flatten_payload_stable _ (flattenJsonPathParseItem stack' ext')
               (fun buf c nl ias r K =>
                  IH stack' ext ext' buf c nl ias r ltac:(lia) Hext K)
               ext ext' _ _ _ _ _ _ Hext Hp).
    cbn [bind].
    destruct (item_next item) as [n |]; [| exact H].
    apply bind_OK in H. destruct H as [[chld b2] [Hn H]].
    rewrite (IH stack' ext ext' _ _ _ _ _ ltac:(lia) Hext Hn). exact H.
Qed.

(** X9.  The encoding of a path depends neither on the stack that is left
    nor on the extensions switch, which only decide whether there is one: a
    value built with some stack and with the extensions off is the value built
    with any larger stack, and with the extensions on but for the extensions
    bit of its header. *)
Theorem encoding_is_stable :
  forall stack stack' expr is_lax js,
    (stack <= stack')%nat ->
    encode_parse_result stack
      {| pr_expr := expr; pr_lax := is_lax; pr_ext := false |} = OK js ->
    encode_parse_result stack'
      {| pr_expr := expr; pr_lax := is_lax; pr_ext := false |} = OK js
    /\ encode_parse_result stack'
         {| pr_expr := expr; pr_lax := is_lax; pr_ext := true |}
       = OK {| header := Z.lor (header js) JSONPATH_EXT; data := data js |}.
Proof.
  intros stack stack' expr is_lax js Hs H.
  unfold encode_parse_result in *. cbn [pr_expr pr_lax pr_ext] in *.
  apply bind_OK in H. destruct H as [[pos buf] [Hf H]].
  inversion H; subst js; clear H. cbn [header data].
  split.
  - rewrite (flatten_stable stack stack' false false _ _ _ _ _ Hs
               (fun K => K) Hf). reflexivity.
  - rewrite (flatten_stable stack stack' false true _ _ _ _ _ Hs
               (fun _ => eq_refl) Hf). reflexivity.
Qed.

Lemma encoding_is_stable_witness :
  (4 <= 16)%nat
  /\ encode_parse_result 4 (lax_path (negations 3)) = OK path_negations
  /\ encode_parse_result 16 (lax_path (negations 3)) = OK path_negations
  /\ encode_parse_result 16
       {| pr_expr := negations 3; pr_lax := true; pr_ext := true |}
     = OK {| header := Z.lor (header path_negations) JSONPATH_EXT;
             data := data path_negations |}.
Proof.
  split; [lia |]. split; [reflexivity |].
  apply (encoding_is_stable 4 16 (negations 3) true path_negations);
    [lia | reflexivity].
Defined.

Lemma mode_flags_agree : forall stack expr ext js_lax js_strict,
  encode_parse_result stack
    {| pr_expr := expr; pr_lax := true; pr_ext := ext |} = OK js_lax ->
  encode_parse_result stack
    {| pr_expr := expr; pr_lax := false; pr_ext := ext |} = OK js_strict ->
  data js_lax = data js_strict
  /\ (Z.land (header js_lax) JSONPATH_LAX =? 0) = false
  /\ (Z.land (header js_strict) JSONPATH_LAX =? 0) = true.
Proof.
  intros stack expr ext js1 js2 H1 H2. unfold encode_parse_result in *.
  cbn [pr_expr pr_lax pr_ext] in *.
  destruct (flattenJsonPathParseItem stack ext
              (appendStringInfoSpaces [] JSONPATH_HDRSZ) expr 0 false)
    as [[pos buf] | |]; try discriminate H1.
  cbn [bind] in *. inversion H1; subst js1. inversion H2; subst js2.
  cbn [header data]. destruct ext; repeat split; reflexivity.
Qed.

Section WalkerMode.

Variable datetime_format_flags : string -> option Z.
Variable rec : walker.
Variable mem : list Z.
Variable rd : item_reader.
Variable ok : JsonPathParseItem -> bool.
Variable l : bool.
Hypothesis Hrec : forall a c cxt,
  rd a c -> ok c = true -> rec a (set_lax cxt l) = in_mode l (rec a cxt).

Lemma walker_switch_mode : forall jpi item status cxt,
  type jpi = item_type item ->
  reads_payload rd mem jpi item ->
  own_operands_present item = true ->
  not_an_array_accessor item = true ->
  oks ok (payload_children 0 false item) = true ->
  walker_switch datetime_format_flags rec mem jpi status (set_lax cxt l)
  = in_mode l (walker_switch datetime_format_flags rec mem jpi status cxt).
Proof.
  intros jpi item status cxt Ht Hp Hown Hna Hoks.
  unfold walker_switch. rewrite Ht.
  unfold reads_payload, own_operands_present, payload_children,
    not_an_array_accessor in *.
  destruct (item_type item) eqn:E;
    try discriminate Hna;
    try contradiction;
    try reflexivity;
    try (destruct (jspGetString mem jpi) as [[s n] | |]; reflexivity);
    try (destruct (datetime_status datetime_format_flags mem jpi);
         reflexivity);
    (* two operands *)
    try (destruct (value_args_left item) as [a' |]; [| discriminate Hown];
         destruct (value_args_right item) as [b' |]; [| discriminate Hown];
         destruct Hp as [(_ & a & Ha & Ra) (_ & b & Hb & Rb)];
         rewrite oks_app, !oks_with_context in Hoks;
         apply andb_true_iff in Hoks; destruct Hoks as [Hl Hr];
         simpl in Hl, Hr;
         rewrite Ha, Hb; cbn [bind];
         rewrite (Hrec a a' cxt Ra Hl);
         destruct (rec a cxt) as [[s1 c1] | |]; cbn [in_mode bind];
         try reflexivity;
         rewrite (Hrec b b' c1 Rb Hr);
         destruct (rec b c1) as [[s2 c2] | |]; cbn [in_mode bind];
         try reflexivity;
         try (destruct (comparison_is_mutable s1 s2)); reflexivity);
    (* one operand, always present *)
    try (destruct (value_arg item) as [c |]; [| discriminate Hown];
         destruct Hp as (_ & a & Ha & Ra);
         rewrite oks_with_context in Hoks; simpl in Hoks;
         rewrite Ha; cbn [bind];
         first [rewrite (Hrec a c cxt Ra Hoks);
                destruct (rec a cxt) as [[s1 c1] | |]
               |change (set_current (set_lax cxt l) status)
                  with (set_lax (set_current cxt status) l);
                rewrite (Hrec a c (set_current cxt status) Ra Hoks);
                destruct (rec a (set_current cxt status)) as [[s1 c1] | |]];
         cbn [in_mode bind]; reflexivity).
  (* jpiLikeRegex *)
  destruct Hp as (_ & Hpat & e & a & He & Ha & Ra).
  rewrite He in Hoks. rewrite oks_with_context in Hoks. simpl in Hoks.
  rewrite Ha. cbn [bind]. rewrite (Hrec a e cxt Ra Hoks).
  destruct (rec a cxt) as [[s1 c1] | |]; reflexivity.
Qed.

End WalkerMode.

Lemma walker_mode_on_read_back :
  forall datetime_format_flags l depth mem jpi item status cxt,
    reads_back depth mem jpi item ->
    every own_operands_present depth item = true ->
    every not_an_array_accessor depth item = true ->
    jspIsMutableWalker_loop datetime_format_flags depth mem jpi status
      (set_lax cxt l)
    = in_mode l (jspIsMutableWalker_loop datetime_format_flags depth mem jpi
                   status cxt).
Proof.
  intros dff l. induction depth as [| d IH];
    intros mem jpi item status cxt R Hc Hna.
  - contradiction.
  - cbn [reads_back] in R. destruct R as (Ht & Hp & Hn).
    simpl in Hc, Hna.
    apply andb_true_iff in Hc. destruct Hc as [Hown Hch].
    apply andb_true_iff in Hna. destruct Hna as [Hnown Hnch].
    unfold children in Hch, Hnch. rewrite forallb_app in Hch, Hnch.
    apply andb_true_iff in Hch. destruct Hch as [Hpc Hnx].
    apply andb_true_iff in Hnch. destruct Hnch as [Hnpc Hnnx].
    simpl. change (mutable (set_lax cxt l)) with (mutable cxt).
    destruct (mutable cxt); [reflexivity |].
    rewrite (walker_switch_mode dff _ mem (reads_back d mem)
               (fun c => every own_operands_present d c
                         && every not_an_array_accessor d c) l)
      with (item := item); try assumption.
    + destruct (walker_switch dff _ mem jpi status cxt) as [[s1 c1] | |];
        cbn [in_mode bind]; try reflexivity.
      destruct (item_next item) as [n |].
      * destruct Hn as (a & Ha & Ra). rewrite Ha. cbn [bind].
        simpl in Hnx, Hnnx. rewrite andb_true_r in Hnx, Hnnx.
        exact (IH mem a n s1 c1 Ra Hnx Hnnx).
      * rewrite Hn. reflexivity.
    + intros a c cx Ra Kc.
      apply andb_true_iff in Kc. destruct Kc as [K1 K2].
      exact (IH mem a c jpdsNonDateTime cx Ra K1 K2).
    + unfold oks. rewrite forallb_forall in *. intros c Hin.
      rewrite (Hpc c Hin), (Hnpc c Hin). reflexivity.
Qed.

(** X10.  The mode of a path bears on the analysis at the array accessors
    alone: for a tree without indexed or wildcard array accessor, the value
    parsed as lax and the value parsed as strict get the same answer from
    [jspIsMutable]. *)
Theorem mode_matters_only_at_array_accessors :
  forall datetime_format_flags stack expr ext js_lax js_strict names exprs,
    encode_parse_result stack
      {| pr_expr := expr; pr_lax := true; pr_ext := ext |} = OK js_lax ->
    encode_parse_result stack
      {| pr_expr := expr; pr_lax := false; pr_ext := ext |} = OK js_strict ->
    every as_parsed stack expr = true ->
    every not_an_array_accessor stack expr = true ->
    JSONPATH_HDRSZ + len (data js_lax) < 2147483648 ->
    jspIsMutable datetime_format_flags stack js_lax names exprs
    = jspIsMutable datetime_format_flags stack js_strict names exprs.
Proof.
  intros dff stack expr ext js1 js2 names exprs H1 H2 Hok Hna Hlen.
  destruct (encoded_tree_is_read_back stack _ js1 H1
              (every_weaken _ _ as_parsed_values _ _ Hok) Hlen)
    as (v & Hv & R).
  cbn [pr_expr] in R.
  pose proof (every_weaken _ _ as_parsed_operands _ _ Hok) as Hop.
  destruct (mode_flags_agree stack expr ext js1 js2 H1 H2) as (Hd & Hl1 & Hl2).
  unfold jspIsMutable, jspInit, jspIsMutableWalker. rewrite <- Hd, Hl1, Hl2.
  unfold jspInit in Hv. rewrite Hv. cbn [bind negb].
  set (c2 := {| varnames := names; varexprs := exprs;
                current := jpdsNonDateTime; lax := false; mutable := false |}).
  change {| varnames := names; varexprs := exprs; current := jpdsNonDateTime;
            lax := true; mutable := false |} with (set_lax c2 true).
  rewrite (walker_mode_on_read_back dff true stack (data js1) v expr
             jpdsNonDateTime c2 R Hop Hna).
  destruct (jspIsMutableWalker_loop dff stack (data js1) v jpdsNonDateTime c2)
    as [[s c] | |]; reflexivity.
Qed.

Lemma mode_matters_witness :
  every as_parsed 16 (pr_expr path_sum_of_product) = true
  /\ every not_an_array_accessor 16 (pr_expr path_sum_of_product) = true
  /\ jspIsMutable sample_format_flags 16 encoded_sum_of_product [] []
     = jspIsMutable sample_format_flags 16
         {| header := JSONPATH_VERSION; data := data encoded_sum_of_product |}
         [] [].
Proof.
  split; [reflexivity |]. split; [reflexivity |].
  apply (mode_matters_only_at_array_accessors sample_format_flags 16
           (pr_expr path_sum_of_product) false);
    reflexivity.
Defined.
